(** * WebCrawler: a shallow embedding of the crawl orchestration engine

    The development follows [src/WebCrawler.js]: the frontier
    ([queue], [visited], [skippedUrls]), the fetch and retry policy
    ([validateStatus], [makeRequest], [handleCrawlError]) and the
    orchestrator loop ([processQueue], [crawl], [saveResults]).

    The network, the robots.txt file and the HTML extractor are external
    collaborators.  They are gathered in a [World]; every theorem is
    universally quantified over it.  Effects the program performs on the
    outside (requests, sleeps, robots look-ups) and on its own registry
    are logged, in program order, in a ghost [trace]. *)

From Stdlib Require Import ZArith Ascii String.
From stdpp Require Import gmap strings list sorting.

Local Open Scope Z_scope.

(** ** Data model *)

(** The options object of the constructor, after defaults are resolved. *)
Record Options := {
  maxPages : Z;
  delay : Z;
  maxDepth : Z;
  respectRobots : bool;
  timeout : Z;
  retries : Z;
  userAgent : string;
  skipUnauthorized : bool;
  ignoreRestrictions : bool
}.

(** The object handed to [new WebCrawler(options)]: a key is absent
    ([None]) or carries a value. *)
Record RawOptions := {
  raw_maxPages : option Z;
  raw_delay : option Z;
  raw_maxDepth : option Z;
  raw_respectRobots : option bool;
  raw_timeout : option Z;
  raw_retries : option Z;
  raw_userAgent : option string;
  raw_skipUnauthorized : option bool;
  raw_ignoreRestrictions : option bool
}.

(** [options.k || d] on a number: absent and [0] are falsy. *)
Definition num_or (v : option Z) (d : Z) : Z :=
  match v with
  | Some x => if x =? 0 then d else x
  | None => d
  end.

(** [options.k !== undefined ? options.k : d]. *)
Definition defined_or {A} (v : option A) (d : A) : A :=
  match v with Some x => x | None => d end.

(** [options.k || false] on a boolean. *)
Definition bool_or_false (v : option bool) : bool :=
  match v with Some x => x | None => false end.

(** [options.k || d] on a string: absent and the empty string are falsy. *)
Definition str_or (v : option string) (d : string) : string :=
  match v with
  | Some EmptyString => d
  | Some x => x
  | None => d
  end.

(** The trailing [...options] of the object literal: a key present in
    [options] overrides the value computed before it. *)
Definition spread {A} (v : option A) (computed : A) : A :=
  match v with Some x => x | None => computed end.

Definition mkOptions (r : RawOptions) : Options := {|
  maxPages := spread (raw_maxPages r) (num_or (raw_maxPages r) 50);
  delay := spread (raw_delay r) (num_or (raw_delay r) 1000);
  maxDepth := spread (raw_maxDepth r) (num_or (raw_maxDepth r) 3);
  respectRobots :=
    spread (raw_respectRobots r) (defined_or (raw_respectRobots r) false);
  timeout := spread (raw_timeout r) (num_or (raw_timeout r) 30000);
  retries := spread (raw_retries r) (num_or (raw_retries r) 3);
  userAgent :=
    spread (raw_userAgent r)
      (str_or (raw_userAgent r)
         "WebCrawler/1.0 (+https://github.com/webcrawler)");
  skipUnauthorized :=
    spread (raw_skipUnauthorized r)
      (defined_or (raw_skipUnauthorized r) false);
  ignoreRestrictions :=
    spread (raw_ignoreRestrictions r)
      (bool_or_false (raw_ignoreRestrictions r))
|}.

(** An entry of [pageData.links] (built by [DataExtractor.extractLinks]). *)
Record Link := { link_url : string; isInternal : bool }.

(** An entry of [this.queue]: [{ url, depth, parent }]. *)
Record QueueItem := {
  item_url : string;
  item_depth : Z;
  item_parent : option string
}.

(** An entry of [this.results]; the extracted title, headings, content and
    images play no role in the orchestration and are left out. *)
Record PageData := {
  page_url : string;
  page_depth : Z;
  page_parent : option string;
  page_links : list Link
}.

(** An entry of [this.skippedUrls]: [{ url, reason, parent, statusCode }]. *)
Record SkipRecord := {
  skip_url : string;
  (** [None] is [undefined] *)
  skip_reason : option string;
  skip_parent : option string;
  skip_statusCode : option Z
}.

(** An entry of [this.failedUrls]: [{ url, error, parent }]. *)
Record FailRecord := {
  fail_url : string;
  fail_error : string;
  fail_parent : option string
}.

(** What [cheerio.load] and [DataExtractor] make of [response.data] in
    [crawlPage]: the links [extractLinks] reads from the document, or
    the message of the error that one of them throws. *)
Inductive Extraction :=
  | Extracted (links : list Link)
  | ExtractionError (message : string).

(** What axios resolves with; the body is kept as what the extractor
    makes of it. *)
Record Response := { resp_status : Z; resp_data : Extraction }.

(** An error as the [catch] clauses of [makeRequest] and [processQueue]
    and [handleCrawlError] read it: [error.response?.status] and
    [error.message].  Axios rejects with one that carries the status of
    the reply, if there was a reply; an error thrown by the extractor
    has no [response]. *)
Record AxiosError := { err_status : option Z; err_message : string }.

(** ** The world outside the crawler *)

(** The raw outcome of one HTTP exchange, before [validateStatus]: a
    reply whose body the extractor reads, a reply whose body makes
    [cheerio.load] or the extractor throw, or no reply at all. *)
Inductive NetOutcome :=
  | HttpReply (status : Z) (links : list Link)
  | HttpUnreadable (status : Z) (message : string)
  | TransportError (message : string).

Record World := {
  (** outcome of the [n]-th page request of the session, for its URL *)
  net : nat -> string -> NetOutcome;
  (** the message axios gives an error raised for a rejected status *)
  reject_message : Z -> string;
  (** [loadRobotsTxt]: [None] when the file cannot be fetched, otherwise
      the truthiness of [robots.isAllowed(url, userAgent)] *)
  robots_txt : option (string -> bool)
}.

Definition reply_status (r : NetOutcome) : option Z :=
  match r with
  | HttpReply s _ => Some s
  | HttpUnreadable s _ => Some s
  | TransportError _ => None
  end.

(** ** Ghost trace of effects *)

Inductive Event :=
  | EvLoadRobots
  | EvEnqueue (it : QueueItem)
  | EvDequeue (it : QueueItem)
  | EvRobotsCheck (url : string)
  | EvVisited (url : string)
  | EvGet (url : string)
  | EvSleep (ms : Z).

(** ** The crawler object *)

Record Crawler := {
  visited : gset string;
  queue : list QueueItem;
  results : list PageData;
  failedUrls : list FailRecord;
  skippedUrls : list SkipRecord;
  robots : option (string -> bool);
  baseUrl : option string;
  (** ghost: number of page requests issued so far *)
  requests : nat;
  (** ghost: effects in program order *)
  trace : list Event
}.

(** The state the constructor leaves. *)
Definition new_WebCrawler : Crawler := {|
  visited := ∅;
  queue := [];
  results := [];
  failedUrls := [];
  skippedUrls := [];
  robots := None;
  baseUrl := None;
  requests := 0%nat;
  trace := []
|}.

Definition set_visited (v : gset string) (c : Crawler) : Crawler :=
  {| visited := v; queue := queue c; results := results c;
     failedUrls := failedUrls c; skippedUrls := skippedUrls c;
     robots := robots c; baseUrl := baseUrl c;
     requests := requests c; trace := trace c |}.

Definition set_queue (q : list QueueItem) (c : Crawler) : Crawler :=
  {| visited := visited c; queue := q; results := results c;
     failedUrls := failedUrls c; skippedUrls := skippedUrls c;
     robots := robots c; baseUrl := baseUrl c;
     requests := requests c; trace := trace c |}.

Definition set_results (r : list PageData) (c : Crawler) : Crawler :=
  {| visited := visited c; queue := queue c; results := r;
     failedUrls := failedUrls c; skippedUrls := skippedUrls c;
     robots := robots c; baseUrl := baseUrl c;
     requests := requests c; trace := trace c |}.

Definition set_failedUrls (f : list FailRecord) (c : Crawler) : Crawler :=
  {| visited := visited c; queue := queue c; results := results c;
     failedUrls := f; skippedUrls := skippedUrls c;
     robots := robots c; baseUrl := baseUrl c;
     requests := requests c; trace := trace c |}.

Definition set_skippedUrls (s : list SkipRecord) (c : Crawler) : Crawler :=
  {| visited := visited c; queue := queue c; results := results c;
     failedUrls := failedUrls c; skippedUrls := s;
     robots := robots c; baseUrl := baseUrl c;
     requests := requests c; trace := trace c |}.

Definition set_robots (r : option (string -> bool)) (c : Crawler) : Crawler :=
  {| visited := visited c; queue := queue c; results := results c;
     failedUrls := failedUrls c; skippedUrls := skippedUrls c;
     robots := r; baseUrl := baseUrl c;
     requests := requests c; trace := trace c |}.

Definition set_baseUrl (b : option string) (c : Crawler) : Crawler :=
  {| visited := visited c; queue := queue c; results := results c;
     failedUrls := failedUrls c; skippedUrls := skippedUrls c;
     robots := robots c; baseUrl := b;
     requests := requests c; trace := trace c |}.

Definition tick (c : Crawler) : Crawler :=
  {| visited := visited c; queue := queue c; results := results c;
     failedUrls := failedUrls c; skippedUrls := skippedUrls c;
     robots := robots c; baseUrl := baseUrl c;
     requests := S (requests c); trace := trace c |}.

Definition log (e : Event) (c : Crawler) : Crawler :=
  {| visited := visited c; queue := queue c; results := results c;
     failedUrls := failedUrls c; skippedUrls := skippedUrls c;
     robots := robots c; baseUrl := baseUrl c;
     requests := requests c; trace := trace c ++ [e] |}.

(** [this.sleep(ms)]: only the waiting time is observable. *)
Definition sleep (ms : Z) (c : Crawler) : Crawler := log (EvSleep ms) c.

(** [array.includes(status)] on a list of numbers. *)
Definition includes (codes : list Z) (status : Z) : bool :=
  bool_decide (status ∈ codes).

(** [statusCode && codes.includes(statusCode)]: [undefined] and [0] are
    falsy. *)
Definition status_in (statusCode : option Z) (codes : list Z) : bool :=
  match statusCode with
  | Some s => negb (s =? 0) && includes codes s
  | None => false
  end.

(** The literal [1000] of [this.sleep(1000 * (retryCount + 1))]. *)
Definition baseDelay : Z := 1000.

(** [s.toLowerCase()], on the ASCII letters. *)
Definition lower_ascii (a : ascii) : ascii :=
  let n := nat_of_ascii a in
  if ((65 <=? n) && (n <=? 90))%nat then ascii_of_nat (n + 32) else a.

Fixpoint toLowerCase (s : string) : string :=
  match s with
  | EmptyString => EmptyString
  | String a s' => String (lower_ascii a) (toLowerCase s')
  end.

(** [s.includes(k)]. *)
Definition js_includes (s k : string) : bool :=
  match String.index 0 k s with
  | Some _ => true
  | None => false
  end.

(** ** Numbers and JSON values of the report *)

(** The JavaScript numbers the statistics can take. *)
Inductive JsNumber :=
  | JsInt (z : Z)
  | JsNaN
  | JsInfinity.

(** [Math.round(a / b)] for two non-negative integers: [0 / 0] is [NaN],
    [a / 0] is [Infinity] for [a > 0], and [Math.round] keeps both;
    otherwise the quotient is rounded half up. *)
Definition js_round_div (a b : Z) : JsNumber :=
  if b =? 0 then (if a =? 0 then JsNaN else JsInfinity)
  else JsInt ((2 * a + b) / (2 * b)).

Inductive Json :=
  | JNull
  | JNumber (z : Z).

(** [JSON.stringify] on a number: [NaN] and [Infinity] become [null]. *)
Definition JSON_stringify_number (n : JsNumber) : Json :=
  match n with
  | JsInt z => JNumber z
  | JsNaN => JNull
  | JsInfinity => JNull
  end.

(** A value of the object [getSkipReasonStats] builds: a count, or the
    string that [+ 1] makes of a value that is not a number. *)
Inductive StatValue :=
  | StatCount (n : Z)
  | StatText (s : string).

(** How a built-in function converts to a string in Node.js. *)
Definition native_function (name : string) : string :=
  "function " +:+ name +:+ "() { [native code] }".

(** The properties a plain object [{}] inherits from [Object.prototype]
    in Node.js, each with the string its value converts to under [+]:
    [constructor] is the function [Object], [__proto__] is an accessor
    whose getter returns [Object.prototype] itself, the others are
    built-in methods. *)
Definition Object_prototype (key : string) : option string :=
  if bool_decide (key = "constructor") then Some (native_function "Object")
  else if bool_decide (key = "__proto__") then Some "[object Object]"
  else if bool_decide
            (key ∈ ["__defineGetter__"; "__defineSetter__";
                    "hasOwnProperty"; "__lookupGetter__";
                    "__lookupSetter__"; "isPrototypeOf";
                    "propertyIsEnumerable"; "toString"; "valueOf";
                    "toLocaleString"])
  then Some (native_function key)
  else None.

(** The [statistics] object of [saveResults]; [uniqueDomains] and
    [contentTypes] depend on the URL parser and on the extracted content
    only and are left out. *)
Record Statistics := {
  totalLinks : Z;
  averageLinksPerPage : JsNumber;
  skipReasons : gmap string StatValue
}.

(** The [crawlData] object handed to [FileManager.saveCrawlData]. *)
Record CrawlData := {
  totalPages : Z;
  failedRequests : Z;
  skippedRequests : Z;
  pages : list PageData;
  out_failedUrls : list FailRecord;
  out_skippedUrls : list SkipRecord;
  statistics : Statistics
}.

(** [this.results.reduce((sum, page) => sum + page.links.length, 0)]. *)
Definition sum_links (rs : list PageData) : Z :=
  foldl (fun sum page => sum + Z.of_nat (length (page_links page))) 0 rs.

(** [(stats[reason] || 0) + 1] on the plain object [stats], given its
    own properties: a look-up that finds no own property goes on to
    [Object.prototype]; a number is counted up, [0] and the empty string
    are falsy, and any other value is turned into a string to which
    ["1"] is appended. *)
Definition stat_next (stats : gmap string StatValue) (reason : string)
  : StatValue :=
  match stats !! reason with
  | Some (StatCount n) => StatCount ((if n =? 0 then 0 else n) + 1)
  | Some (StatText EmptyString) => StatCount 1
  | Some (StatText s) => StatText (s +:+ "1")
  | None =>
      match Object_prototype reason with
      | Some text => StatText (text +:+ "1")
      | None => StatCount 1
      end
  end.

(** [stats[reason] = value]: the setter of [__proto__] ignores a value
    that is not an object; every other key becomes an own property. *)
Definition stat_set (reason : string) (value : StatValue)
    (stats : gmap string StatValue) : gmap string StatValue :=
  if bool_decide (reason = "__proto__") then stats
  else <[reason := value]> stats.

(** [getSkipReasonStats()]. *)
Definition getSkipReasonStats (sk : list SkipRecord)
  : gmap string StatValue :=
  foldl
    (fun stats item =>
       let reason :=
         match skip_reason item with
         | Some EmptyString => "unknown"
         | Some r => r
         | None => "unknown"
         end in
       stat_set reason (stat_next stats reason) stats)
    ∅ sk.

(** [saveResults()], up to the write to disk. *)
Definition saveResults (c : Crawler) : CrawlData := {|
  totalPages := Z.of_nat (length (results c));
  failedRequests := Z.of_nat (length (failedUrls c));
  skippedRequests := Z.of_nat (length (skippedUrls c));
  pages := results c;
  out_failedUrls := failedUrls c;
  out_skippedUrls := skippedUrls c;
  statistics := {|
    totalLinks := sum_links (results c);
    averageLinksPerPage :=
      js_round_div (sum_links (results c)) (Z.of_nat (length (results c)));
    skipReasons := getSkipReasonStats (skippedUrls c)
  |}
|}.

Section Model.

Context (o : Options) (w : World).

(** ** Fetch and retry policy *)

(** The [validateStatus] callback handed to [axios.get]. *)
Definition validateStatus (status : Z) : bool :=
  if ignoreRestrictions o then (200 <=? status) && (status <? 600)
  else if (200 <=? status) && (status <? 300) then true
  else if negb (skipUnauthorized o) then status <? 500
  else if includes [401; 403; 407; 429; 451] status then false
  else if includes [404; 410; 500; 502; 503; 504] status then false
  else status <? 400.

(** How axios settles an exchange: a reply whose status [validateStatus]
    refuses is rejected with an error carrying that status; a transport
    failure is rejected with an error without response. *)
Definition axios_settle (r : NetOutcome) : AxiosError + Response :=
  match r with
  | HttpReply status links =>
      if validateStatus status
      then inr {| resp_status := status; resp_data := Extracted links |}
      else inl {| err_status := Some status;
                  err_message := reject_message w status |}
  | HttpUnreadable status message =>
      if validateStatus status
      then inr {| resp_status := status;
                  resp_data := ExtractionError message |}
      else inl {| err_status := Some status;
                  err_message := reject_message w status |}
  | TransportError message =>
      inl {| err_status := None; err_message := message |}
  end.

(** [await axios.get(url, { ..., validateStatus })]. *)
Definition axios_get (url : string) (c : Crawler)
  : (AxiosError + Response) * Crawler :=
  (axios_settle (net w (requests c) url), tick (log (EvGet url) c)).

Definition noRetryStatuses : list Z :=
  if skipUnauthorized o
  then [401; 403; 404; 407; 410; 429; 451; 500; 502; 503; 504]
  else [404; 410].

(** [makeRequest(url, retryCount)].  The recursion of the source is on
    [retryCount + 1] under the guard [retryCount < retries]; [fuel] bounds
    it structurally and [makeRequest] below supplies enough of it. *)
Fixpoint makeRequest_rec (fuel : nat) (url : string) (retryCount : Z)
    (c : Crawler) : (AxiosError + Response) * Crawler :=
  match axios_get url c with
  | (inr response, c1) => (inr response, c1)
  | (inl error, c1) =>
      if ignoreRestrictions o then
        if retryCount <? retries o then
          match fuel with
          | S fuel' =>
              makeRequest_rec fuel' url (retryCount + 1)
                (sleep (baseDelay * (retryCount + 1)) c1)
          | O => (inl error, c1)
          end
        else (inl error, c1)
      else if status_in (err_status error) noRetryStatuses then
        (inl error, c1)
      else if retryCount <? retries o then
        match fuel with
        | S fuel' =>
            makeRequest_rec fuel' url (retryCount + 1)
              (sleep (baseDelay * (retryCount + 1)) c1)
        | O => (inl error, c1)
        end
      else (inl error, c1)
  end.

Definition makeRequest (url : string) (retryCount : Z) (c : Crawler)
  : (AxiosError + Response) * Crawler :=
  makeRequest_rec (Z.to_nat (retries o - retryCount)) url retryCount c.

(** ** Skip classification *)

Definition authRelatedCodes : list Z := [401; 403; 407; 429; 451].
Definition skipCodes : list Z := [404; 410; 500; 502; 503; 504].

(** The two [reasons] objects; [reasons[statusCode]] is a map look-up. *)
Definition auth_reasons : gmap Z string :=
  list_to_map
    [(401, "Unauthorized - Authentication required");
     (403, "Forbidden - Access denied");
     (407, "Proxy authentication required");
     (429, "Too many requests - Rate limited");
     (451, "Unavailable for legal reasons")].

Definition skip_reasons : gmap Z string :=
  list_to_map
    [(404, "Not found");
     (410, "Gone");
     (500, "Internal server error");
     (502, "Bad gateway");
     (503, "Service unavailable");
     (504, "Gateway timeout")].

Definition authKeywords : list string :=
  ["unauthorized"; "forbidden"; "access denied"; "authentication";
   "permission"].

(** [this.skippedUrls.push(r)]. *)
Definition push_skipped (r : SkipRecord) (c : Crawler) : Crawler :=
  set_skippedUrls (skippedUrls c ++ [r]) c.

(** [this.failedUrls.push(r)]. *)
Definition push_failed (r : FailRecord) (c : Crawler) : Crawler :=
  set_failedUrls (failedUrls c ++ [r]) c.

(** [statusCode || null]. *)
Definition status_or_null (statusCode : option Z) : option Z :=
  match statusCode with
  | Some s => if s =? 0 then None else Some s
  | None => None
  end.

(** [handleCrawlError(error, url, parent)]: the returned boolean says
    whether a skip record was written. *)
Definition handleCrawlError (error : AxiosError) (url : string)
    (parent : option string) (c : Crawler) : bool * Crawler :=
  if ignoreRestrictions o then (false, c)
  else if negb (skipUnauthorized o) then (false, c)
  else
    let statusCode := err_status error in
    if status_in statusCode authRelatedCodes then
      (true,
       push_skipped
         {| skip_url := url;
            skip_reason := statusCode ≫= (auth_reasons !!.);
            skip_parent := parent;
            skip_statusCode := statusCode |} c)
    else if status_in statusCode skipCodes then
      (true,
       push_skipped
         {| skip_url := url;
            skip_reason := statusCode ≫= (skip_reasons !!.);
            skip_parent := parent;
            skip_statusCode := statusCode |} c)
    else
      let errorMessage := toLowerCase (err_message error) in
      if existsb (fun keyword => js_includes errorMessage keyword)
           authKeywords
      then
        (true,
         push_skipped
           {| skip_url := url;
              skip_reason :=
                Some ("Authorization issue: " +:+ err_message error);
              skip_parent := parent;
              skip_statusCode := status_or_null statusCode |} c)
      else (false, c).

(** ** Frontier *)

(** [isInQueue(url)]. *)
Definition isInQueue (url : string) (c : Crawler) : bool :=
  existsb (fun item => bool_decide (item_url item = url)) (queue c).

(** [isSkipped(url)]. *)
Definition isSkipped (url : string) (c : Crawler) : bool :=
  existsb (fun item => bool_decide (skip_url item = url)) (skippedUrls c).

(** [this.queue.push(it)]. *)
Definition push_queue (it : QueueItem) (c : Crawler) : Crawler :=
  log (EvEnqueue it) (set_queue (queue c ++ [it]) c).

(** [addLinksToQueue(links, depth, parent)]: the [for ... of] loop. *)
Fixpoint addLinksToQueue (links : list Link) (depth : Z) (parent : string)
    (c : Crawler) : Crawler :=
  match links with
  | [] => c
  | link :: rest =>
      let c' :=
        if negb (bool_decide (link_url link ∈ visited c))
           && negb (isInQueue (link_url link) c)
           && negb (isSkipped (link_url link) c)
        then push_queue {| item_url := link_url link;
                           item_depth := depth;
                           item_parent := Some parent |} c
        else c in
      addLinksToQueue rest depth parent c'
  end.

(** ** Orchestrator *)

(** [crawlPage(url, depth, parent)].  The response object axios resolves
    with is never falsy, so the [return null] branch is not taken.  An
    error thrown by [cheerio.load] or by [DataExtractor] after the
    request leaves [crawlPage] like an error of the request, without
    [response]; the request is not repeated. *)
Definition crawlPage (url : string) (depth : Z) (parent : option string)
    (c : Crawler) : (AxiosError + PageData) * Crawler :=
  let c0 := log (EvVisited url) (set_visited ({[url]} ∪ visited c) c) in
  match makeRequest url 0 c0 with
  | (inl error, c1) => (inl error, c1)
  | (inr response, c1) =>
      match resp_data response with
      | Extracted links =>
          (inr {| page_url := url;
                  page_depth := depth;
                  page_parent := parent;
                  page_links := links |}, c1)
      | ExtractionError message =>
          (inl {| err_status := None; err_message := message |}, c1)
      end
  end.

(** The sleep that ends an iteration of the loop of [processQueue]. *)
Definition request_delay (c : Crawler) : Crawler :=
  if 0 <? delay o then sleep (delay o) c else c.

(** The robots test of [processQueue]; the look-up is logged when the
    conjunction reaches [this.robots.isAllowed]. *)
Definition robots_blocked (url : string) (c : Crawler) : bool * Crawler :=
  if ignoreRestrictions o then (false, c)
  else
    match robots c with
    | None => (false, c)
    | Some isAllowed => (negb (isAllowed url), log (EvRobotsCheck url) c)
    end.

(** One iteration of the [while] loop of [processQueue], after
    [this.queue.shift()] returned [it]. *)
Definition processItem (it : QueueItem) (c : Crawler) : Crawler :=
  let url := item_url it in
  let depth := item_depth it in
  let parent := item_parent it in
  if bool_decide (url ∈ visited c) then c
  else if maxDepth o <? depth then c
  else
    let (blocked, c0) := robots_blocked url c in
    if blocked then
      push_skipped
        {| skip_url := url;
           skip_reason := Some "robots.txt blocked";
           skip_parent := parent;
           skip_statusCode := None |} c0
    else
      match crawlPage url depth parent c0 with
      | (inr pageData, c1) =>
          let c2 := set_results (results c1 ++ [pageData]) c1 in
          request_delay
            (addLinksToQueue (page_links pageData) (depth + 1) url c2)
      | (inl error, c1) =>
          let (shouldSkip, c2) :=
            if ignoreRestrictions o then (false, c1)
            else handleCrawlError error url parent c1 in
          let c3 :=
            if shouldSkip then c2
            else push_failed
                   {| fail_url := url;
                      fail_error := err_message error;
                      fail_parent := parent |} c2 in
          request_delay c3
      end.

(** The loop condition of [processQueue]. *)
Definition loop_guard (c : Crawler) : bool :=
  (0 <? Z.of_nat (length (queue c)))
  && (Z.of_nat (length (results c)) <? maxPages o).

(** One full iteration: shift, then the body.  The [[]] case is not
    reached under [loop_guard]. *)
Definition iteration (c : Crawler) : Crawler :=
  match queue c with
  | it :: rest => processItem it (log (EvDequeue it) (set_queue rest c))
  | [] => c
  end.

(** [processQueue()]: [None] when [fuel] runs out before the loop ends. *)
Fixpoint processQueue (fuel : nat) (c : Crawler) : option Crawler :=
  if loop_guard c then
    match fuel with
    | S fuel' => processQueue fuel' (iteration c)
    | O => None
    end
  else Some c.

(** [loadRobotsTxt()]: on failure [this.robots] stays [null]. *)
Definition loadRobotsTxt (c : Crawler) : Crawler :=
  log EvLoadRobots
    (match robots_txt w with
     | Some isAllowed => set_robots (Some isAllowed) c
     | None => c
     end).

(** The part of [crawl(startUrl)] that precedes [processQueue]. *)
Definition crawl_init (startUrl : string) (c : Crawler) : Crawler :=
  let c1 := set_baseUrl (Some startUrl) c in
  let c2 :=
    if respectRobots o && negb (ignoreRestrictions o)
    then loadRobotsTxt c1 else c1 in
  push_queue {| item_url := startUrl; item_depth := 0;
                item_parent := None |} c2.

(** [crawl(startUrl)]: the data written and the final state of the
    crawler. *)
Definition crawl (fuel : nat) (startUrl : string) (c : Crawler)
  : option (CrawlData * Crawler) :=
  match processQueue fuel (crawl_init startUrl c) with
  | Some c' => Some (saveResults c', c')
  | None => None
  end.

End Model.

(** * UrlUtils, DataExtractor and FileManager *)

(** ** [UrlUtils.shouldSkipUrl] *)

(** [s.endsWith(suffix)]: the substring that ends where [s] ends and is
    as long as [suffix] is compared with [suffix]. *)
Definition js_endsWith (s suffix : string) : bool :=
  (String.length suffix <=? String.length s)%nat
  && bool_decide
       (substring (String.length s - String.length suffix)
          (String.length suffix) s = suffix).

Definition skipExtensions : list string :=
  [".pdf"; ".jpg"; ".jpeg"; ".png"; ".gif"; ".svg"; ".css"; ".js"; ".xml";
   ".txt"].

Definition skipPatterns : list string :=
  ["/wp-admin/"; "/admin/"; ".json"; ".rss"; ".atom"].

(** [UrlUtils.shouldSkipUrl(url)]; the URLs it is given are the [href]
    of a parsed URL. *)
Definition shouldSkipUrl (url : string) : bool :=
  let lowerUrl := toLowerCase url in
  existsb (fun ext => js_endsWith lowerUrl ext) skipExtensions
  || existsb (fun pattern => js_includes lowerUrl pattern) skipPatterns.

(** ** [DataExtractor.extractLinks] *)

(** An element matched by [$('a[href]')]: its [href] attribute; the text
    and the title play no role in the selection of the links. *)
Record Anchor := { href : string }.

Section Extractor.

(** The functions of [UrlUtils] that rest on the URL parser of the
    platform: [resolveUrl] and [getDomain] return [null] ([None]) when
    the parser throws, [normalizeUrl] returns its argument. *)
Context (resolveUrl : string → string → option string)
        (normalizeUrl : string → string)
        (getDomain : string → option string).

(** [UrlUtils.isSameDomain(url1, url2)]. *)
Definition isSameDomain (url1 url2 : string) : bool :=
  bool_decide (getDomain url1 = getDomain url2).

(** The template literal [`https://${baseDomain}`]. *)
Definition https_of (baseDomain : option string) : string :=
  "https://" +:+ match baseDomain with Some d => d | None => "null" end.

(** The callback of [.each] in [extractLinks], on the pair of [links]
    and [seenUrls]. *)
Definition extractLinks_each (baseUrl : string) (baseDomain : option string)
    (st : list Link * gset string) (a : Anchor) : list Link * gset string :=
  let (links, seenUrls) := st in
  match href a with
  | EmptyString => st
  | _ =>
      match resolveUrl baseUrl (href a) with
      | None => st
      | Some EmptyString => st
      | Some absoluteUrl =>
          if shouldSkipUrl absoluteUrl then st
          else
            let normalizedUrl := normalizeUrl absoluteUrl in
            if bool_decide (normalizedUrl ∈ seenUrls) then st
            else
              (links ++ [{| link_url := normalizedUrl;
                            isInternal :=
                              isSameDomain absoluteUrl
                                (https_of baseDomain) |}],
               {[normalizedUrl]} ∪ seenUrls)
      end
  end.

(** [DataExtractor.extractLinks($, baseUrl, baseDomain)], on the anchors
    of the document in document order. *)
Definition extractLinks (anchors : list Anchor) (baseUrl : string)
    (baseDomain : option string) : list Link :=
  fst (foldl (extractLinks_each baseUrl baseDomain) ([], ∅) anchors).

End Extractor.

(** ** [FileManager] *)

(** The class [[a-z0-9]] under the flag [i]. *)
Definition is_alnum (a : ascii) : bool :=
  let n := nat_of_ascii a in
  ((48 <=? n) && (n <=? 57) || (65 <=? n) && (n <=? 90)
   || (97 <=? n) && (n <=? 122))%nat.

(** [domain.replace(/[^a-z0-9]/gi, '_')]; a domain is the host name of
    a parsed URL. *)
Fixpoint safeString (domain : string) : string :=
  match domain with
  | EmptyString => EmptyString
  | String a rest =>
      String (if is_alnum a then a else "_"%char) (safeString rest)
  end.

(** [s.replace(/[:.]/g, '-')]. *)
Fixpoint dash_colons_dots (s : string) : string :=
  match s with
  | EmptyString => EmptyString
  | String a rest =>
      String (if bool_decide (a = ":"%char ∨ a = "."%char)
              then "-"%char else a)
        (dash_colons_dots rest)
  end.

(** [s.split('T')[0]]. *)
Fixpoint before_T (s : string) : string :=
  match s with
  | EmptyString => EmptyString
  | String a rest =>
      if bool_decide (a = "T"%char) then EmptyString
      else String a (before_T rest)
  end.

(** The [timestamp] of [saveCrawlData], from [new Date().toISOString()]. *)
Definition file_timestamp (iso : string) : string :=
  before_T (dash_colons_dots iso).

(** What [saveCrawlData] does with its [domain] argument. *)
Inductive SaveOutcome :=
  | SaveTypeError
  | SaveFiles (fileName summaryFileName : string).

(** [FileManager.saveCrawlData(crawlData, domain)], as far as the names
    of the two files go: [domain.replace] throws a [TypeError] on [null],
    before any file is written. *)
Definition saveCrawlData (domain : option string) (iso : string)
  : SaveOutcome :=
  match domain with
  | None => SaveTypeError
  | Some d =>
      let timestamp := file_timestamp iso in
      let safe := safeString d in
      SaveFiles (safe +:+ "_" +:+ timestamp +:+ ".json")
        (safe +:+ "_" +:+ timestamp +:+ "_summary.json")
  end.

(** An entry of [topPages] in the summary; the title is left out, as in
    [PageData]. *)
Record TopPage := {
  top_url : string;
  top_wordCount : Z;
  top_linksCount : Z
}.

Section Summary.

(** The word count the extractor stored in a page, and
    [Array.prototype.sort] with the comparator
    [(a, b) => b.wordCount - a.wordCount]. *)
Context (wordCount : PageData → Z)
        (sortPages : list PageData → list PageData).

(** The [topPages] of [saveSummary]: sort, [slice(0, 10)], [map]. *)
Definition topPages (pages : list PageData) : list TopPage :=
  map (fun page => {| top_url := page_url page;
                      top_wordCount := wordCount page;
                      top_linksCount :=
                        Z.of_nat (length (page_links page)) |})
    (take 10 (sortPages pages)).

(** The [pages] of the object [crawl] resolves with.  [saveSummary]
    sorts [crawlData.pages] in place, and that array is [this.results]
    itself, the array [crawl] hands back after [saveResults]; the main
    file was written before the sort.  [None]: [crawl] rejects, because
    [saveCrawlData] threw. *)
Definition crawl_returned_pages (saved : SaveOutcome) (c : Crawler)
  : option (list PageData) :=
  match saved with
  | SaveTypeError => None
  | SaveFiles _ _ => Some (sortPages (results c))
  end.

End Summary.

(** * Specification vocabulary *)

(** An error the policy sends to the retry branch. *)
Definition retried (o : Options) (error : AxiosError) : Prop :=
  ignoreRestrictions o = true
  ∨ status_in (err_status error) (noRetryStatuses o) = false.

(** The events of a request retried [n] times, the first retry being
    number [first]. *)
Definition retry_events (url : string) (first n : Z) : list Event :=
  flat_map (fun k => [EvSleep (baseDelay * k); EvGet url]) (seqZ first n).

(** The fields a request leaves alone. *)
Definition same_store (c c' : Crawler) : Prop :=
  visited c' = visited c ∧ queue c' = queue c ∧ results c' = results c
  ∧ failedUrls c' = failedUrls c ∧ skippedUrls c' = skippedUrls c
  ∧ robots c' = robots c ∧ baseUrl c' = baseUrl c.

(** The state right after [this.queue.shift()]. *)
Definition shifted (it : QueueItem) (rest : list QueueItem) (c : Crawler)
  : Crawler :=
  log (EvDequeue it) (set_queue rest c).

(** The events of the robots test. *)
Definition robots_events (o : Options) (c : Crawler) (url : string)
  : list Event :=
  if ignoreRestrictions o then []
  else match robots c with
       | Some _ => [EvRobotsCheck url]
       | None => []
       end.

(** The robots test lets [url] through. *)
Definition robots_pass (o : Options) (c : Crawler) (url : string) : Prop :=
  ignoreRestrictions o = true
  ∨ match robots c with
    | Some isAllowed => isAllowed url = true
    | None => True
    end.

(** The event of the sleep that ends an iteration. *)
Definition delay_events (o : Options) : list Event :=
  if 0 <? delay o then [EvSleep (delay o)] else [].

(** The URLs that carry a record, list by list. *)
Definition recorded (c : Crawler) : list string :=
  map page_url (results c) ++ map skip_url (skippedUrls c)
  ++ map fail_url (failedUrls c).

Definition queue_urls (c : Crawler) : list string :=
  map item_url (queue c).

(** Every attempt for [url], from request number [from] on, raises an
    error that the policy retries. *)
Definition always_retried (o : Options) (w : World) (url : string)
    (from : nat) : Prop :=
  ∀ n, (from ≤ n)%nat →
       ∃ error, axios_settle o w (net w n url) = inl error
                ∧ retried o error.

(** The URLs [addLinksToQueue] pushes, in order, given the visited set,
    the URLs queued and the URLs of the skip list. *)
Fixpoint pushed_urls (links : list Link) (vis : gset string)
    (queued skipped : list string) : list string :=
  match links with
  | [] => []
  | link :: rest =>
      let u := link_url link in
      if bool_decide ((u ∉ vis) ∧ (u ∉ queued) ∧ (u ∉ skipped))
      then u :: pushed_urls rest vis (queued ++ [u]) skipped
      else pushed_urls rest vis queued skipped
  end.

Definition mkItem (depth : Z) (parent : string) (url : string) : QueueItem :=
  {| item_url := url; item_depth := depth; item_parent := Some parent |}.

Definition is_enqueue (e : Event) : option QueueItem :=
  match e with EvEnqueue it => Some it | _ => None end.

Definition is_dequeue (e : Event) : option QueueItem :=
  match e with EvDequeue it => Some it | _ => None end.

(** The work items pushed, and the work items shifted, in order. *)
Definition enqueued (tr : list Event) : list QueueItem := omap is_enqueue tr.
Definition dequeued (tr : list Event) : list QueueItem := omap is_dequeue tr.

(** The events that may follow the first request of [crawlPage url]. *)
Definition tail_event (url : string) (e : Event) : Prop :=
  match e with
  | EvGet u => u = url
  | EvSleep _ => True
  | EvEnqueue _ => True
  | _ => False
  end.

(** How an iteration that reached [crawlPage] ends. *)
Inductive Terminal (o : Options) (c : Crawler) (it : QueueItem)
    (rest : list QueueItem) (c' : Crawler) (added : list QueueItem) : Prop :=
  | term_page (links : list Link) :
      results c' = results c ++ [{| page_url := item_url it;
                                    page_depth := item_depth it;
                                    page_parent := item_parent it;
                                    page_links := links |}] →
      skippedUrls c' = skippedUrls c →
      failedUrls c' = failedUrls c →
      added = map (mkItem (item_depth it + 1) (item_url it))
                (pushed_urls links ({[item_url it]} ∪ visited c)
                   (map item_url rest) (map skip_url (skippedUrls c))) →
      Terminal o c it rest c' added
  | term_skip (r : SkipRecord) :
      ignoreRestrictions o = false →
      skipUnauthorized o = true →
      skip_url r = item_url it →
      results c' = results c →
      skippedUrls c' = skippedUrls c ++ [r] →
      failedUrls c' = failedUrls c →
      added = [] →
      Terminal o c it rest c' added
  | term_fail (message : string) :
      results c' = results c →
      skippedUrls c' = skippedUrls c →
      failedUrls c' = failedUrls c ++ [{| fail_url := item_url it;
                                          fail_error := message;
                                          fail_parent := item_parent it |}] →
      added = [] →
      Terminal o c it rest c' added.

(** What one iteration does to the crawler, case by case. *)
Inductive Outcome (o : Options) (c : Crawler) (it : QueueItem)
    (rest : list QueueItem) (c' : Crawler) : Prop :=
  | out_dropped :
      item_url it ∈ visited c ∨ maxDepth o < item_depth it →
      c' = shifted it rest c →
      Outcome o c it rest c'
  | out_robots (isAllowed : string → bool) :
      ignoreRestrictions o = false →
      robots c = Some isAllowed →
      isAllowed (item_url it) = false →
      item_url it ∉ visited c →
      item_depth it ≤ maxDepth o →
      c' = push_skipped {| skip_url := item_url it;
                           skip_reason := Some "robots.txt blocked";
                           skip_parent := item_parent it;
                           skip_statusCode := None |}
             (log (EvRobotsCheck (item_url it)) (shifted it rest c)) →
      Outcome o c it rest c'
  | out_crawled (added : list QueueItem) (tail : list Event) :
      item_url it ∉ visited c →
      item_depth it ≤ maxDepth o →
      robots_pass o c (item_url it) →
      visited c' = {[item_url it]} ∪ visited c →
      queue c' = rest ++ added →
      robots c' = robots c →
      trace c' = trace c ++ [EvDequeue it]
                 ++ robots_events o c (item_url it)
                 ++ [EvVisited (item_url it); EvGet (item_url it)] ++ tail →
      Forall (tail_event (item_url it)) tail →
      enqueued tail = added →
      Terminal o c it rest c' added →
      Outcome o c it rest c'.

(** One turn of the [while] loop of [processQueue]. *)
Definition loop_step (o : Options) (w : World) (c c' : Crawler) : Prop :=
  loop_guard o c = true ∧ c' = iteration o w c.

(** The states a session started at [startUrl] goes through, taken at
    the head of the loop. *)
Definition reachable (o : Options) (w : World) (startUrl : string)
    (c : Crawler) : Prop :=
  rtc (loop_step o w) (crawl_init o w startUrl new_WebCrawler) c.

(** The frontier invariant. *)
Record Inv (c : Crawler) : Prop := {
  inv_queue : NoDup (queue_urls c);
  inv_recorded : NoDup (recorded c);
  inv_fresh :
    ∀ u, u ∈ queue_urls c →
         (u ∉ visited c) ∧ (u ∉ map skip_url (skippedUrls c));
  inv_visited :
    ∀ u, u ∈ map page_url (results c) ++ map fail_url (failedUrls c) →
         u ∈ visited c
}.

(** Every request for a URL comes after the URL was put in the visited
    set. *)
Definition visits_precede_gets (tr : list Event) : Prop :=
  ∀ pre post u, tr = pre ++ EvGet u :: post → EvVisited u ∈ pre.

(** No use of robots.txt. *)
Definition no_robots_event (e : Event) : Prop :=
  match e with
  | EvLoadRobots => False
  | EvRobotsCheck _ => False
  | _ => True
  end.

(** Every request for [url] is accepted, the extractor reads the body,
    and the page carries exactly the links [links], in that order. *)
Definition serves (o : Options) (w : World) (url : string)
    (links : list string) : Prop :=
  ∀ n, ∃ status page_links,
    axios_settle o w (net w n url)
    = inr {| resp_status := status; resp_data := Extracted page_links |}
    ∧ map link_url page_links = links.

(** Robots.txt, if it is used at all, allows [url]. *)
Definition robots_allow (o : Options) (w : World) (url : string) : Prop :=
  ignoreRestrictions o = true
  ∨ respectRobots o = false
  ∨ match robots_txt w with
    | Some isAllowed => isAllowed url = true
    | None => True
    end.

(** The robots object a session works with. *)
Definition session_robots (o : Options) (w : World)
  : option (string → bool) :=
  if respectRobots o && negb (ignoreRestrictions o) then robots_txt w
  else None.

(** A summary of the frontier: visited set, queue, crawled URLs, with an
    empty skip list. *)
Definition frontier_is (o : Options) (w : World) (c : Crawler)
    (vis : gset string) (q : list QueueItem) (crawled : list string)
  : Prop :=
  visited c = vis ∧ queue c = q ∧ map page_url (results c) = crawled
  ∧ skippedUrls c = [] ∧ robots c = session_robots o w.

(** ** Vocabulary of the further properties *)

Definition is_get (e : Event) : option string :=
  match e with EvGet u => Some u | _ => None end.

Definition is_visited (e : Event) : option string :=
  match e with EvVisited u => Some u | _ => None end.

(** The URLs requested, and the URLs handed to [crawlPage], in order. *)
Definition gets (tr : list Event) : list string := omap is_get tr.
Definition marks (tr : list Event) : list string := omap is_visited tr.

(** The number of requests issued for [url]. *)
Definition requests_for (url : string) (tr : list Event) : nat :=
  length (filter (fun u => u = url) (gets tr)).

(** The place of a page in the crawl tree: the seed at depth 0, or a
    child, one level down, of a page recorded earlier. *)
Definition page_placed (startUrl : string) (earlier : list PageData)
    (p : PageData) : Prop :=
  (page_url p = startUrl ∧ page_depth p = 0 ∧ page_parent p = None)
  ∨ ∃ q, q ∈ earlier
         ∧ page_parent p = Some (page_url q)
         ∧ page_depth p = page_depth q + 1.

(** The same for a work item that waits in the queue. *)
Definition item_placed (startUrl : string) (crawled : list PageData)
    (it : QueueItem) : Prop :=
  (item_url it = startUrl ∧ item_depth it = 0 ∧ item_parent it = None)
  ∨ ∃ q, q ∈ crawled
         ∧ item_parent it = Some (page_url q)
         ∧ item_depth it = page_depth q + 1.

(** The crawl tree invariant. *)
Definition tree_shaped (o : Options) (startUrl : string) (c : Crawler)
  : Prop :=
  (∀ pre p post,
     results c = pre ++ p :: post →
     0 ≤ page_depth p ≤ maxDepth o ∧ page_placed startUrl pre p)
  ∧ (∀ it, it ∈ queue c →
           0 ≤ item_depth it ∧ item_placed startUrl (results c) it).

(** [item.reason || 'unknown'], the key of a skip record in the
    histogram of reasons. *)
Definition reason_key (item : SkipRecord) : string :=
  match skip_reason item with
  | Some EmptyString => "unknown"
  | Some r => r
  | None => "unknown"
  end.

(** The number of skip records filed under [reason]. *)
Definition skipped_for (reason : string) (sk : list SkipRecord) : nat :=
  length (filter (fun item => reason_key item = reason) sk).

(** [n] times the digit 1. *)
Fixpoint ones (n : nat) : string :=
  match n with
  | O => EmptyString
  | S k => String "1" (ones k)
  end.

(** What the result of [getSkipReasonStats] holds under a key that [n]
    skip records are filed under. *)
Definition stat_of (reason : string) (n : nat) : option StatValue :=
  match n with
  | O => None
  | S _ =>
      if bool_decide (reason = "__proto__") then None
      else match Object_prototype reason with
           | Some text => Some (StatText (text +:+ ones n))
           | None => Some (StatCount (Z.of_nat n))
           end
  end.

(** The reasons the crawler itself writes in a skip record. *)
Definition crawler_reason (reason : string) : Prop :=
  reason = "robots.txt blocked"
  ∨ (∃ status, auth_reasons !! status = Some reason)
  ∨ (∃ status, skip_reasons !! status = Some reason)
  ∨ ∃ message, reason = "Authorization issue: " +:+ message.

(** An anchor that [extractLinks] keeps, up to duplicates: its [href]
    is not empty, resolves against the base to [absoluteUrl], and
    [absoluteUrl] passes [shouldSkipUrl]. *)
Definition usable_anchor (resolveUrl : string → string → option string)
    (baseUrl : string) (a : Anchor) (absoluteUrl : string) : Prop :=
  href a ≠ EmptyString
  ∧ resolveUrl baseUrl (href a) = Some absoluteUrl
  ∧ absoluteUrl ≠ EmptyString
  ∧ shouldSkipUrl absoluteUrl = false.

(** The contract of [Array.prototype.sort] for the comparator
    [(a, b) => b.wordCount - a.wordCount]: the result is a rearrangement
    of the array in which the word counts do not increase. *)
Definition sorts_by_wordCount (wordCount : PageData → Z)
    (sortPages : list PageData → list PageData) : Prop :=
  ∀ pages,
    sortPages pages ≡ₚ pages
    ∧ StronglySorted (fun a b => wordCount b ≤ wordCount a)
        (sortPages pages).

(** * Example sessions *)

(** Options as [new WebCrawler({ ... })] resolves them; [timeout] and
    [userAgent] take their defaults. *)
Definition example_options (pages depth : Z) (robotsOn skipOn ignoreOn : bool)
  : Options :=
  mkOptions {| raw_maxPages := Some pages;
               raw_delay := Some 1000;
               raw_maxDepth := Some depth;
               raw_respectRobots := Some robotsOn;
               raw_timeout := None;
               raw_retries := Some 3;
               raw_userAgent := None;
               raw_skipUnauthorized := Some skipOn;
               raw_ignoreRestrictions := Some ignoreOn |}.

Definition home : string := "https://ex.test/".
Definition page_a : string := "https://ex.test/a".
Definition page_b : string := "https://ex.test/b".
Definition page_c : string := "https://ex.test/c".

Definition link_to (url : string) : Link :=
  {| link_url := url; isInternal := true |}.

(** A site that answers the same way at every request. *)
Definition static_site (answer : string → NetOutcome)
    (robotsFile : option (string → bool)) : World :=
  {| net := fun _ url => answer url;
     reject_message := fun _ => "Request failed";
     robots_txt := robotsFile |}.

(** [home] links to [page_a] and [page_b], [page_a] links to [page_c]. *)
Definition tree_answer (url : string) : NetOutcome :=
  if bool_decide (url = home)
  then HttpReply 200 [link_to page_a; link_to page_b]
  else if bool_decide (url = page_a) then HttpReply 200 [link_to page_c]
  else HttpReply 200 [].

(** Every page is answered with the same status and a body without
    links. *)
Definition status_answer (status : Z) (url : string) : NetOutcome :=
  HttpReply status [].

(** The dash of the reason strings as the specification prints them
    (U+2013, three bytes in UTF-8); the source has the ASCII hyphen. *)
Definition en_dash : string :=
  String (ascii_of_nat 226)
    (String (ascii_of_nat 128) (String (ascii_of_nat 147) EmptyString)).

(** The sessions the examples run: all three mode flags off, one flag
    on, and two with tight limits. *)
Definition opts_default : Options := example_options 10 5 false false false.
Definition opts_skip : Options := example_options 10 5 false true false.
Definition opts_ignore : Options := example_options 10 5 false false true.
Definition opts_robots : Options := example_options 10 5 true false false.
Definition opts_one_page : Options := example_options 1 0 false false false.
Definition opts_shallow : Options := example_options 10 1 false false true.

Definition site_tree : World := static_site tree_answer None.
Definition site_status (status : Z) : World :=
  static_site (status_answer status) None.
Definition site_disallowed : World :=
  static_site tree_answer (Some (fun _ => false)).

Definition seed : QueueItem :=
  {| item_url := home; item_depth := 0; item_parent := None |}.

(** The state in which [processQueue] starts. *)
Definition start (o : Options) (w : World) : Crawler :=
  crawl_init o w home new_WebCrawler.


(** [home] as a user types it, without the final slash; the URL parser
    normalizes it to [home]. *)
Definition home_bare : string := "https://ex.test".

(** A site whose pages all link to the home page: the anchor
    [<a href="/">], which [extractLinks] resolves and normalizes to
    [home]. *)
Definition site_home_link : World :=
  static_site (fun _ => HttpReply 200 [link_to home]) None.

(** A site whose replies all carry the same status and a body on which
    [cheerio.load] throws an error with the given message. *)
Definition site_unreadable (status : Z) (message : string) : World :=
  static_site (fun _ => HttpUnreadable status message) None.

(** A site whose connections all fail with the same message. *)
Definition site_down (message : string) : World :=
  static_site (fun _ => TransportError message) None.

(** A robots.txt that disallows [page_a] only. *)
Definition site_partly_disallowed : World :=
  static_site tree_answer
    (Some (fun url => negb (bool_decide (url = page_a)))).

(** A stand-in for the URL parser: ":" does not resolve, the fragment
    "#top" of [page_a] is dropped by the normalization, every URL has
    the host "ex.test". *)
Definition example_resolveUrl (baseUrl relativeUrl : string)
  : option string :=
  if bool_decide (relativeUrl = ":") then None else Some relativeUrl.

Definition example_normalizeUrl (url : string) : string :=
  if bool_decide (url = page_a +:+ "#top") then page_a else url.

Definition example_getDomain (url : string) : option string :=
  Some "ex.test".

Definition example_anchors : list Anchor :=
  [ {| href := page_a |}; {| href := ":" |};
    {| href := page_a +:+ "#top" |}; {| href := "https://ex.test/Doc.PDF" |};
    {| href := EmptyString |}; {| href := page_b |} ].

(** A skip list with two records under "Not found" and one whose
    reason is the name of a property of [Object.prototype]. *)
Definition example_skip (url reason : string) : SkipRecord :=
  {| skip_url := url; skip_reason := Some reason; skip_parent := None;
     skip_statusCode := None |}.

Definition example_skipped : list SkipRecord :=
  [example_skip page_a "Not found"; example_skip page_b "constructor";
   example_skip page_c "Not found"].

(** A word count for the examples, and a sort that meets the contract. *)
Definition example_wordCount (page : PageData) : Z :=
  Z.of_nat (String.length (page_url page)).

Definition example_sortPages (pages : list PageData) : list PageData :=
  @merge_sort _ (fun a b => example_wordCount b ≤ example_wordCount a)
    (fun a b => Z.le_dec (example_wordCount b) (example_wordCount a)) pages.

(** * Properties *)

(** ** The retry loop *)

Section Retry.

Context (o : Options) (w : World).

(** The recursive equation of the source's [makeRequest]. *)
Lemma makeRequest_eq url retryCount c :
  makeRequest o w url retryCount c =
  match axios_get o w url c with
  | (inr response, c1) => (inr response, c1)
  | (inl error, c1) =>
      if ignoreRestrictions o then
        if retryCount <? retries o
        then makeRequest o w url (retryCount + 1)
               (sleep (baseDelay * (retryCount + 1)) c1)
        else (inl error, c1)
      else if status_in (err_status error) (noRetryStatuses o) then
        (inl error, c1)
      else if retryCount <? retries o
      then makeRequest o w url (retryCount + 1)
             (sleep (baseDelay * (retryCount + 1)) c1)
      else (inl error, c1)
  end.
Proof.
  unfold makeRequest.
  destruct (Z.ltb_spec retryCount (retries o)) as [Hlt | Hge].
  - replace (Z.to_nat (retries o - retryCount))
      with (S (Z.to_nat (retries o - (retryCount + 1)))) by lia.
    cbn [makeRequest_rec].
    destruct (axios_get o w url c) as [[error | response] c1]; [|done].
    assert ((retryCount <? retries o) = true) as -> by (apply Z.ltb_lt; lia).
    done.
  - replace (Z.to_nat (retries o - retryCount)) with O by lia.
    cbn [makeRequest_rec].
    destruct (axios_get o w url c) as [[error | response] c1]; [|done].
    assert ((retryCount <? retries o) = false) as -> by (apply Z.ltb_ge; lia).
    done.
Qed.

Lemma same_store_refl c : same_store c c.
Proof. by repeat split. Qed.

Lemma same_store_trans c1 c2 c3 :
  same_store c1 c2 → same_store c2 c3 → same_store c1 c3.
Proof.
  unfold same_store. intros (?&?&?&?&?&?&?) (?&?&?&?&?&?&?).
  repeat split; congruence.
Qed.

(** A request whose first attempt is accepted: one exchange, no retry. *)
Lemma makeRequest_accept url retryCount c response :
  axios_settle o w (net w (requests c) url) = inr response →
  makeRequest o w url retryCount c
  = (inr response, tick (log (EvGet url) c)).
Proof.
  intros H. rewrite makeRequest_eq. unfold axios_get. by rewrite H.
Qed.

(** A request whose first attempt raises an error the policy does not
    retry: one exchange, the error is thrown on. *)
Lemma makeRequest_no_retry url retryCount c error :
  axios_settle o w (net w (requests c) url) = inl error →
  ignoreRestrictions o = false →
  status_in (err_status error) (noRetryStatuses o) = true →
  makeRequest o w url retryCount c
  = (inl error, tick (log (EvGet url) c)).
Proof.
  intros H Hi Hs. rewrite makeRequest_eq. unfold axios_get.
  by rewrite H, Hi, Hs.
Qed.

(** A request all of whose attempts raise retried errors: the budget is
    used up, with the delays [baseDelay * k], and the last error is
    thrown. *)
Lemma makeRequest_exhaust url (k : nat) :
  ∀ retryCount c,
    Z.to_nat (retries o - retryCount) = k →
    (∀ n, (requests c ≤ n)%nat →
          ∃ error, axios_settle o w (net w n url) = inl error
                   ∧ retried o error) →
    ∃ error c',
      makeRequest o w url retryCount c = (inl error, c')
      ∧ axios_settle o w (net w (requests c + k)%nat url) = inl error
      ∧ same_store c c'
      ∧ requests c' = (requests c + S k)%nat
      ∧ trace c' = trace c ++ (EvGet url
                     :: retry_events url (retryCount + 1) (Z.of_nat k)).
Proof.
  induction k as [| k IH]; intros retryCount c Hk Hall.
  - destruct (Hall (requests c)) as (error & Hs & Hr); [lia|].
    exists error, (tick (log (EvGet url) c)).
    rewrite makeRequest_eq. unfold axios_get. rewrite Hs.
    assert ((retryCount <? retries o) = false) as -> by (apply Z.ltb_ge; lia).
    replace (requests c + 0)%nat with (requests c) by lia.
    split_and!; try done.
    + destruct Hr as [-> | ->]; [done|].
      by destruct (ignoreRestrictions o).
    + cbn. lia.
  - destruct (Hall (requests c)) as (error & Hs & Hr); [lia|].
    set (c1 := sleep (baseDelay * (retryCount + 1))
                 (tick (log (EvGet url) c))).
    destruct (IH (retryCount + 1) c1) as (e' & c' & Hm & He & Hst & Hrq & Htr).
    { lia. }
    { intros n Hn. apply Hall. subst c1. cbn in Hn. lia. }
    exists e', c'.
    rewrite makeRequest_eq. unfold axios_get. rewrite Hs.
    assert ((retryCount <? retries o) = true) as -> by (apply Z.ltb_lt; lia).
    fold c1.
    split_and!.
    + destruct Hr as [-> | ->]; [done|].
      by destruct (ignoreRestrictions o).
    + subst c1. cbn in He.
      by replace (requests c + S k)%nat with (S (requests c + k)) by lia.
    + eapply same_store_trans; [|exact Hst]. by repeat split.
    + rewrite Hrq. subst c1. cbn. lia.
    + rewrite Htr. subst c1. cbn [sleep log tick trace].
      unfold retry_events.
      replace (Z.of_nat (S k)) with (Z.succ (Z.of_nat k)) by lia.
      rewrite (seqZ_cons (retryCount + 1)) by lia.
      replace (Z.succ (retryCount + 1)) with (retryCount + 1 + 1) by lia.
      replace (Z.pred (Z.succ (Z.of_nat k))) with (Z.of_nat k) by lia.
      cbn [flat_map]. rewrite <- !app_assoc. done.
Qed.

(** Whatever the network does, a request only issues exchanges and
    sleeps. *)
Lemma makeRequest_rec_frame url (k : nat) :
  ∀ retryCount c res c',
    makeRequest_rec o w k url retryCount c = (res, c') →
    same_store c c'
    ∧ ∃ evs, trace c' = trace c ++ (EvGet url :: evs)
             ∧ Forall (fun e => e = EvGet url ∨ ∃ ms, e = EvSleep ms) evs.
Proof.
  induction k as [| k IH]; intros retryCount c res c' H; cbn in H;
    repeat (case_match; simplify_eq);
    try (split; [by repeat split | by exists []]).
  all: apply IH in H as [Hst (evs & Htr & Hall)].
  all: split; [eapply same_store_trans; [|exact Hst]; by repeat split|].
  all: exists (EvSleep (baseDelay * (retryCount + 1)) :: EvGet url :: evs).
  all: split; [rewrite Htr; cbn; by rewrite <- !app_assoc|].
  all: constructor; [right; eauto|]; constructor; [by left|done].
Qed.

Lemma makeRequest_frame url retryCount c res c' :
  makeRequest o w url retryCount c = (res, c') →
  same_store c c'
  ∧ ∃ evs, trace c' = trace c ++ (EvGet url :: evs)
           ∧ Forall (fun e => e = EvGet url ∨ ∃ ms, e = EvSleep ms) evs.
Proof. apply makeRequest_rec_frame. Qed.

End Retry.

(** ** One iteration of the loop *)

Section Step.

Context (o : Options) (w : World).

Lemma request_delay_trace c :
  trace (request_delay o c) = trace c ++ delay_events o.
Proof.
  unfold request_delay, delay_events.
  destruct (0 <? delay o); cbn; [done | by rewrite app_nil_r].
Qed.

Lemma request_delay_store c : same_store c (request_delay o c).
Proof. unfold request_delay. destruct (0 <? delay o); by repeat split. Qed.

Lemma request_delay_requests c :
  requests (request_delay o c) = requests c.
Proof. unfold request_delay. by destruct (0 <? delay o). Qed.

Lemma robots_blocked_pass c url :
  robots_pass o c url →
  robots_blocked o url c
  = (false,
     if ignoreRestrictions o then c
     else match robots c with
          | Some _ => log (EvRobotsCheck url) c
          | None => c
          end).
Proof.
  unfold robots_pass, robots_blocked. intros [-> | H]; [done|].
  destruct (ignoreRestrictions o); [done|].
  destruct (robots c); [by rewrite H | done].
Qed.

Lemma robots_blocked_frame c url b c' :
  robots_blocked o url c = (b, c') →
  same_store c c' ∧ requests c' = requests c
  ∧ trace c' = trace c ++ robots_events o c url.
Proof.
  unfold robots_blocked, robots_events. intros H.
  destruct (ignoreRestrictions o); [|destruct (robots c)]; simplify_eq;
    cbn; rewrite ?app_nil_r; by repeat split.
Qed.

(** The iteration reaches [crawlPage] when the three tests are passed. *)
Lemma iteration_crawl c it rest :
  queue c = it :: rest →
  item_url it ∉ visited c →
  item_depth it ≤ maxDepth o →
  robots_pass o c (item_url it) →
  ∃ c0,
    robots_blocked o (item_url it) (shifted it rest c) = (false, c0)
    ∧ iteration o w c =
      match crawlPage o w (item_url it) (item_depth it) (item_parent it) c0
      with
      | (inr pageData, c1) =>
          request_delay o
            (addLinksToQueue (page_links pageData) (item_depth it + 1)
               (item_url it) (set_results (results c1 ++ [pageData]) c1))
      | (inl error, c1) =>
          let (shouldSkip, c2) :=
            if ignoreRestrictions o then (false, c1)
            else handleCrawlError o error (item_url it) (item_parent it) c1
          in
          request_delay o
            (if shouldSkip then c2
             else push_failed
                    {| fail_url := item_url it;
                       fail_error := err_message error;
                       fail_parent := item_parent it |} c2)
      end.
Proof.
  intros Hq Hv Hd Hr. unfold iteration. rewrite Hq.
  eexists. split.
  { apply robots_blocked_pass. exact Hr. }
  unfold processItem. fold (shifted it rest c).
  rewrite bool_decide_eq_false_2 by done.
  assert ((maxDepth o <? item_depth it) = false) as -> by lia.
  rewrite robots_blocked_pass by exact Hr.
  destruct (crawlPage _ _ _ _ _ _) as [[error | pageData] c1]; [|done].
  destruct (ignoreRestrictions o); [done|].
  by destruct (handleCrawlError _ _ _ _ _).
Qed.

End Step.

Section Outcomes.

Context (o : Options) (w : World).

Lemma retry_events_to_nat url first n :
  retry_events url first (Z.of_nat (Z.to_nat n)) = retry_events url first n.
Proof.
  unfold retry_events, seqZ. by rewrite Nat2Z.id.
Qed.

(** An iteration whose attempts all raise retried errors, in a mode that
    writes no skip record: the budget is used up and the URL is recorded
    as failed. *)
Lemma iteration_exhaust c it rest :
  queue c = it :: rest →
  item_url it ∉ visited c →
  item_depth it ≤ maxDepth o →
  robots_pass o c (item_url it) →
  always_retried o w (item_url it) (requests c) →
  ignoreRestrictions o = true ∨ skipUnauthorized o = false →
  ∃ error,
    axios_settle o w
      (net w (requests c + Z.to_nat (retries o))%nat (item_url it))
    = inl error
    ∧ failedUrls (iteration o w c)
      = failedUrls c ++ [{| fail_url := item_url it;
                            fail_error := err_message error;
                            fail_parent := item_parent it |}]
    ∧ results (iteration o w c) = results c
    ∧ skippedUrls (iteration o w c) = skippedUrls c
    ∧ queue (iteration o w c) = rest
    ∧ visited (iteration o w c) = {[item_url it]} ∪ visited c
    ∧ trace (iteration o w c)
      = trace c ++ [EvDequeue it] ++ robots_events o c (item_url it)
        ++ [EvVisited (item_url it); EvGet (item_url it)]
        ++ retry_events (item_url it) 1 (retries o) ++ delay_events o.
Proof.
  intros Hq Hv Hd Hr Hall Hmode.
  destruct (iteration_crawl o w c it rest Hq Hv Hd Hr) as (c0 & Hc0 & ->).
  apply robots_blocked_frame in Hc0 as (Hst0 & Hrq0 & Htr0).
  unfold same_store, shifted in Hst0, Hrq0, Htr0. cbn in Hst0, Hrq0, Htr0.
  unfold crawlPage.
  set (cv := log (EvVisited (item_url it))
               (set_visited ({[item_url it]} ∪ visited c0) c0)).
  destruct (makeRequest_exhaust o w (item_url it) (Z.to_nat (retries o)) 0 cv)
    as (error & c1 & -> & He & Hst1 & Hrq1 & Htr1).
  { f_equal. lia. }
  { intros n Hn. apply Hall. subst cv. cbn in Hn. lia. }
  exists error.
  replace (requests cv) with (requests c) in He
    by (subst cv; cbn; by rewrite Hrq0).
  split; [exact He|].
  assert (handle :
    (if ignoreRestrictions o then (false, c1)
     else handleCrawlError o error (item_url it) (item_parent it) c1)
    = (false, c1)).
  { unfold handleCrawlError.
    destruct Hmode as [-> | Hs]; [done|].
    rewrite Hs. by destruct (ignoreRestrictions o). }
  rewrite handle.
  destruct Hst0 as (Hv0 & Hq0 & Hr0 & Hf0 & Hs0 & _).
  destruct Hst1 as (Hv1 & Hq1 & Hr1 & Hf1 & Hs1 & _).
  destruct (request_delay_store o
              (push_failed {| fail_url := item_url it;
                              fail_error := err_message error;
                              fail_parent := item_parent it |} c1))
    as (Hv2 & Hq2 & Hr2 & Hf2 & Hs2 & _).
  rewrite Hf2, Hr2, Hs2, Hq2, Hv2, request_delay_trace. cbn.
  rewrite Hf1, Hr1, Hs1, Hq1, Hv1, Htr1. subst cv. cbn.
  rewrite Hf0, Hr0, Hs0, Hq0, Hv0, Htr0. cbn.
  rewrite retry_events_to_nat.
  split_and!; try done.
  by rewrite <- !app_assoc.
Qed.

End Outcomes.

(** ** Admission to the frontier *)

Section Admission.

Lemma isInQueue_spec url c :
  isInQueue url c = bool_decide (url ∈ queue_urls c).
Proof.
  unfold isInQueue, queue_urls.
  induction (queue c) as [| it q IH]; cbn; [done|].
  rewrite IH. repeat case_bool_decide; set_solver.
Qed.

Lemma isSkipped_spec url c :
  isSkipped url c = bool_decide (url ∈ map skip_url (skippedUrls c)).
Proof.
  unfold isSkipped.
  induction (skippedUrls c) as [| it q IH]; cbn; [done|].
  rewrite IH. repeat case_bool_decide; set_solver.
Qed.

Lemma admission_test link c :
  negb (bool_decide (link_url link ∈ visited c))
  && negb (isInQueue (link_url link) c)
  && negb (isSkipped (link_url link) c)
  = bool_decide ((link_url link ∉ visited c)
                 ∧ (link_url link ∉ queue_urls c)
                 ∧ (link_url link ∉ map skip_url (skippedUrls c))).
Proof.
  rewrite isInQueue_spec, isSkipped_spec.
  repeat case_bool_decide; cbn; try done; tauto.
Qed.

(** [addLinksToQueue] appends the admitted items and touches nothing
    else. *)
Lemma addLinksToQueue_spec links depth parent :
  ∀ c,
    let added :=
      map (mkItem depth parent)
        (pushed_urls links (visited c) (queue_urls c)
           (map skip_url (skippedUrls c))) in
    queue (addLinksToQueue links depth parent c) = queue c ++ added
    ∧ trace (addLinksToQueue links depth parent c)
      = trace c ++ map EvEnqueue added
    ∧ visited (addLinksToQueue links depth parent c) = visited c
    ∧ results (addLinksToQueue links depth parent c) = results c
    ∧ failedUrls (addLinksToQueue links depth parent c) = failedUrls c
    ∧ skippedUrls (addLinksToQueue links depth parent c) = skippedUrls c
    ∧ robots (addLinksToQueue links depth parent c) = robots c
    ∧ requests (addLinksToQueue links depth parent c) = requests c.
Proof.
  induction links as [| link links IH]; intros c; cbn zeta.
  - cbn. by rewrite !app_nil_r.
  - cbn [addLinksToQueue pushed_urls]. rewrite admission_test.
    case_bool_decide as Hadm.
    + fold (mkItem depth parent (link_url link)).
      specialize (IH (push_queue (mkItem depth parent (link_url link)) c)).
      cbn zeta in IH. unfold queue_urls in IH. cbn in IH.
      rewrite map_app in IH. cbn in IH.
      destruct IH as (-> & -> & -> & -> & -> & -> & -> & ->).
      unfold queue_urls. cbn. by rewrite <- !app_assoc.
    + apply IH.
Qed.

(** What [pushed_urls] lets in: a link of the list that is not visited, not
    queued and not in the skip list, once. *)
Lemma pushed_urls_sound links :
  ∀ vis queued skipped u,
    u ∈ pushed_urls links vis queued skipped →
    u ∈ map link_url links ∧ (u ∉ vis) ∧ (u ∉ queued) ∧ (u ∉ skipped).
Proof.
  induction links as [| link links IH]; intros vis queued skipped u; cbn.
  - by intros ?%elem_of_nil.
  - case_bool_decide as Hadm.
    + intros [-> | Hin]%elem_of_cons.
      * split; [left | done].
      * apply IH in Hin as (? & ? & Hq & ?).
        split_and!; [by right | done | set_solver | done].
    + intros Hin. apply IH in Hin as (? & ? & ? & ?).
      split_and!; [by right | done..].
Qed.

Lemma pushed_urls_complete links :
  ∀ vis queued skipped u,
    u ∈ map link_url links → u ∉ vis → u ∉ queued → u ∉ skipped →
    u ∈ pushed_urls links vis queued skipped.
Proof.
  induction links as [| link links IH]; intros vis queued skipped u; cbn.
  - by intros ?%elem_of_nil.
  - intros [-> | Hin]%elem_of_cons Hv Hq Hs.
    + rewrite bool_decide_eq_true_2 by done. left.
    + case_bool_decide as Hadm.
      * destruct (decide (u = link_url link)) as [-> | Hne]; [left|].
        right. apply IH; set_solver.
      * by apply IH.
Qed.

Lemma pushed_urls_NoDup links :
  ∀ vis queued skipped, NoDup (pushed_urls links vis queued skipped).
Proof.
  induction links as [| link links IH]; intros vis queued skipped; cbn.
  - constructor.
  - case_bool_decide as Hadm; [|apply IH].
    constructor; [|apply IH].
    intros Hin%pushed_urls_sound. set_solver.
Qed.

End Admission.

Section AcceptAndSkip.

Context (o : Options) (w : World).

(** An iteration whose first attempt is accepted and whose body the
    extractor reads: a page record, the admitted links, and no retry. *)
Lemma iteration_accept c it rest status links :
  queue c = it :: rest →
  item_url it ∉ visited c →
  item_depth it ≤ maxDepth o →
  robots_pass o c (item_url it) →
  axios_settle o w (net w (requests c) (item_url it))
  = inr {| resp_status := status; resp_data := Extracted links |} →
  let added :=
    map (mkItem (item_depth it + 1) (item_url it))
      (pushed_urls links ({[item_url it]} ∪ visited c)
         (map item_url rest) (map skip_url (skippedUrls c))) in
  results (iteration o w c)
  = results c ++ [{| page_url := item_url it;
                     page_depth := item_depth it;
                     page_parent := item_parent it;
                     page_links := links |}]
  ∧ queue (iteration o w c) = rest ++ added
  ∧ visited (iteration o w c) = {[item_url it]} ∪ visited c
  ∧ failedUrls (iteration o w c) = failedUrls c
  ∧ skippedUrls (iteration o w c) = skippedUrls c
  ∧ robots (iteration o w c) = robots c
  ∧ requests (iteration o w c) = S (requests c)
  ∧ trace (iteration o w c)
    = trace c ++ [EvDequeue it] ++ robots_events o c (item_url it)
      ++ [EvVisited (item_url it); EvGet (item_url it)]
      ++ map EvEnqueue added ++ delay_events o.
Proof.
  intros Hq Hv Hd Hr Hacc added.
  destruct (iteration_crawl o w c it rest Hq Hv Hd Hr) as (c0 & Hc0 & ->).
  apply robots_blocked_frame in Hc0 as (Hst0 & Hrq0 & Htr0).
  unfold same_store, shifted in Hst0, Hrq0, Htr0. cbn in Hst0, Hrq0, Htr0.
  destruct Hst0 as (Hv0 & Hq0 & Hr0 & Hf0 & Hs0 & Hb0 & _).
  unfold crawlPage.
  erewrite makeRequest_accept; last first.
  { cbn. rewrite Hrq0. exact Hacc. }
  cbn [resp_data page_links].
  match goal with
  | |- context [request_delay o ?c] =>
      destruct (request_delay_store o c)
        as (Hv2 & Hq2 & Hr2 & Hf2 & Hs2 & Hb2 & _)
  end.
  rewrite Hv2, Hq2, Hr2, Hf2, Hs2, Hb2, request_delay_trace,
    request_delay_requests.
  match goal with
  | |- context [addLinksToQueue ?l ?d ?p ?c] =>
      destruct (addLinksToQueue_spec l d p c)
        as (-> & -> & -> & -> & -> & -> & -> & ->)
  end.
  unfold queue_urls. cbn.
  rewrite Hv0, Hq0, Hr0, Hf0, Hs0, Hb0, Hrq0, Htr0.
  subst added. split_and!; try done.
  by rewrite <- !app_assoc.
Qed.

(** An iteration whose first attempt is accepted and whose body makes
    [cheerio.load] or the extractor throw: no page and no retry.  The
    error has no status; in the modes that write skip records for errors
    its message decides between a skip and a failure record. *)
Lemma iteration_unreadable c it rest status message :
  queue c = it :: rest →
  item_url it ∉ visited c →
  item_depth it ≤ maxDepth o →
  robots_pass o c (item_url it) →
  axios_settle o w (net w (requests c) (item_url it))
  = inr {| resp_status := status;
           resp_data := ExtractionError message |} →
  results (iteration o w c) = results c
  ∧ queue (iteration o w c) = rest
  ∧ visited (iteration o w c) = {[item_url it]} ∪ visited c
  ∧ requests (iteration o w c) = S (requests c)
  ∧ trace (iteration o w c)
    = trace c ++ [EvDequeue it] ++ robots_events o c (item_url it)
      ++ [EvVisited (item_url it); EvGet (item_url it)]
      ++ delay_events o
  ∧ (if negb (ignoreRestrictions o) && skipUnauthorized o
        && existsb (fun keyword => js_includes (toLowerCase message) keyword)
             authKeywords
     then
       skippedUrls (iteration o w c)
       = skippedUrls c
         ++ [{| skip_url := item_url it;
                skip_reason := Some ("Authorization issue: " +:+ message);
                skip_parent := item_parent it;
                skip_statusCode := None |}]
       ∧ failedUrls (iteration o w c) = failedUrls c
     else
       failedUrls (iteration o w c)
       = failedUrls c ++ [{| fail_url := item_url it;
                             fail_error := message;
                             fail_parent := item_parent it |}]
       ∧ skippedUrls (iteration o w c) = skippedUrls c).
Proof.
  intros Hq Hv Hd Hr Hacc.
  destruct (iteration_crawl o w c it rest Hq Hv Hd Hr) as (c0 & Hc0 & ->).
  apply robots_blocked_frame in Hc0 as (Hst0 & Hrq0 & Htr0).
  unfold same_store, shifted in Hst0, Hrq0, Htr0. cbn in Hst0, Hrq0, Htr0.
  destruct Hst0 as (Hv0 & Hq0 & Hr0 & Hf0 & Hs0 & Hb0 & _).
  unfold crawlPage.
  erewrite makeRequest_accept; last first.
  { cbn. rewrite Hrq0. exact Hacc. }
  cbn [resp_data]. unfold handleCrawlError.
  cbn [err_status err_message status_in status_or_null].
  destruct (ignoreRestrictions o) eqn:Hi;
    [|destruct (skipUnauthorized o) eqn:Hs;
      [destruct (existsb _ authKeywords) eqn:Hkw|]];
    cbn [negb andb];
    match goal with
    | |- context [request_delay o ?c] =>
        destruct (request_delay_store o c)
          as (Hv2 & Hq2 & Hr2 & Hf2 & Hs2 & _)
    end;
    rewrite Hv2, Hq2, Hr2, Hf2, Hs2, request_delay_trace,
      request_delay_requests; cbn;
    rewrite Hv0, Hq0, Hr0, Hf0, Hs0, Hrq0, Htr0;
    split_and!; try done; by rewrite <- !app_assoc.
Qed.

Lemma validateStatus_refuses_classified status :
  ignoreRestrictions o = false →
  skipUnauthorized o = true →
  status ∈ authRelatedCodes ++ skipCodes →
  validateStatus o status = false.
Proof.
  intros Hi Hs Hin. unfold validateStatus. rewrite Hi, Hs.
  unfold authRelatedCodes, skipCodes in Hin. cbn in Hin.
  repeat (apply elem_of_cons in Hin as [-> | Hin]); try done.
  by apply elem_of_nil in Hin.
Qed.

(** An iteration whose first attempt is answered with an
    authorization-class status, under [skipUnauthorized]: the skip record
    is written after that single exchange. *)
Lemma iteration_skip_auth c it rest status :
  ignoreRestrictions o = false →
  skipUnauthorized o = true →
  status ∈ authRelatedCodes →
  queue c = it :: rest →
  item_url it ∉ visited c →
  item_depth it ≤ maxDepth o →
  robots_pass o c (item_url it) →
  reply_status (net w (requests c) (item_url it)) = Some status →
  skippedUrls (iteration o w c)
  = skippedUrls c ++ [{| skip_url := item_url it;
                         skip_reason := auth_reasons !! status;
                         skip_parent := item_parent it;
                         skip_statusCode := Some status |}]
  ∧ results (iteration o w c) = results c
  ∧ failedUrls (iteration o w c) = failedUrls c
  ∧ queue (iteration o w c) = rest
  ∧ visited (iteration o w c) = {[item_url it]} ∪ visited c
  ∧ requests (iteration o w c) = S (requests c)
  ∧ trace (iteration o w c)
    = trace c ++ [EvDequeue it] ++ robots_events o c (item_url it)
      ++ [EvVisited (item_url it); EvGet (item_url it)]
      ++ delay_events o.
Proof.
  intros Hi Hs Hin Hq Hv Hd Hr Hnet.
  destruct (iteration_crawl o w c it rest Hq Hv Hd Hr) as (c0 & Hc0 & ->).
  apply robots_blocked_frame in Hc0 as (Hst0 & Hrq0 & Htr0).
  unfold same_store, shifted in Hst0, Hrq0, Htr0. cbn in Hst0, Hrq0, Htr0.
  destruct Hst0 as (Hv0 & Hq0 & Hr0 & Hf0 & Hs0 & Hb0 & _).
  assert (Hset : axios_settle o w (net w (requests c) (item_url it))
                 = inl {| err_status := Some status;
                          err_message := reject_message w status |}).
  { destruct (net w (requests c) (item_url it)) as [s l | s m | m];
      cbn in Hnet; simplify_eq; cbn.
    all: rewrite validateStatus_refuses_classified; [done..|].
    all: apply elem_of_app; by left. }
  assert (Hno : status_in (Some status) (noRetryStatuses o) = true).
  { unfold noRetryStatuses. rewrite Hs.
    unfold authRelatedCodes in Hin.
    repeat (apply elem_of_cons in Hin as [-> | Hin]); try done.
    by apply elem_of_nil in Hin. }
  assert (Hau : status_in (Some status) authRelatedCodes = true).
  { unfold authRelatedCodes in *.
    repeat (apply elem_of_cons in Hin as [-> | Hin]); try done.
    by apply elem_of_nil in Hin. }
  unfold crawlPage.
  erewrite makeRequest_no_retry; [| cbn; rewrite Hrq0; exact Hset | done..].
  rewrite Hi. unfold handleCrawlError. rewrite Hi, Hs. cbn [negb err_status].
  rewrite Hau. cbn [mbind option_bind].
  match goal with
  | |- context [request_delay o ?c] =>
      destruct (request_delay_store o c)
        as (Hv2 & Hq2 & Hr2 & Hf2 & Hs2 & Hb2 & _)
  end.
  rewrite Hv2, Hq2, Hr2, Hf2, Hs2, request_delay_trace,
    request_delay_requests.
  cbn. rewrite Hv0, Hq0, Hr0, Hf0, Hs0, Hrq0, Htr0.
  split_and!; try done.
  by rewrite <- !app_assoc.
Qed.

End AcceptAndSkip.

(** ** The outcomes of an iteration *)

Section Cases.

Context (o : Options) (w : World).

Lemma handleCrawlError_cases error url parent c b c' :
  handleCrawlError o error url parent c = (b, c') →
  (b = false ∧ c' = c)
  ∨ (b = true ∧ ignoreRestrictions o = false ∧ skipUnauthorized o = true
     ∧ ∃ r, skip_url r = url ∧ c' = push_skipped r c).
Proof.
  unfold handleCrawlError. intros H.
  destruct (ignoreRestrictions o) eqn:Hi; [left; by simplify_eq|].
  destruct (skipUnauthorized o) eqn:Hs; cbn [negb] in H;
    [|left; by simplify_eq].
  destruct (status_in (err_status error) authRelatedCodes).
  { injection H as <- <-. right. split_and!; try done.
    eexists. split; [|reflexivity]. reflexivity. }
  destruct (status_in (err_status error) skipCodes).
  { injection H as <- <-. right. split_and!; try done.
    eexists. split; [|reflexivity]. reflexivity. }
  destruct (existsb _ authKeywords).
  { injection H as <- <-. right. split_and!; try done.
    eexists. split; [|reflexivity]. reflexivity. }
  injection H as <- <-. by left.
Qed.

Lemma enqueued_app tr1 tr2 :
  enqueued (tr1 ++ tr2) = enqueued tr1 ++ enqueued tr2.
Proof. apply omap_app. Qed.

Lemma dequeued_app tr1 tr2 :
  dequeued (tr1 ++ tr2) = dequeued tr1 ++ dequeued tr2.
Proof. apply omap_app. Qed.

Lemma enqueued_map_EvEnqueue its : enqueued (map EvEnqueue its) = its.
Proof. induction its as [| it its IH]; cbn; [done | by f_equal]. Qed.

Lemma enqueued_io url evs :
  Forall (fun e => e = EvGet url ∨ ∃ ms, e = EvSleep ms) evs →
  enqueued evs = [] ∧ Forall (tail_event url) evs.
Proof.
  induction 1 as [| e evs He _ [IH1 IH2]]; [done|].
  destruct He as [-> | [ms ->]]; cbn; split; try done; by constructor.
Qed.

Lemma delay_events_tail url :
  enqueued (delay_events o) = [] ∧ Forall (tail_event url) (delay_events o).
Proof.
  unfold delay_events. destruct (0 <? delay o); cbn; split; try done.
  by repeat constructor.
Qed.

(** Whatever the network and the extractor do, [crawlPage] marks the
    URL, issues its requests and touches nothing else; a page it returns
    is the page of that URL. *)
Lemma crawlPage_frame url depth parent c res c1 :
  crawlPage o w url depth parent c = (res, c1) →
  (visited c1 = {[url]} ∪ visited c ∧ queue c1 = queue c
   ∧ results c1 = results c ∧ failedUrls c1 = failedUrls c
   ∧ skippedUrls c1 = skippedUrls c ∧ robots c1 = robots c)
  ∧ (∃ evs,
       trace c1 = (trace c ++ [EvVisited url]) ++ EvGet url :: evs
       ∧ Forall (fun e => e = EvGet url ∨ ∃ ms, e = EvSleep ms) evs)
  ∧ match res with
    | inr pageData =>
        page_url pageData = url ∧ page_depth pageData = depth
        ∧ page_parent pageData = parent
    | inl _ => True
    end.
Proof.
  unfold crawlPage. intros H.
  destruct (makeRequest _ _ _ _ _) as [[error | response] c'] eqn:Hm;
    apply makeRequest_frame in Hm
      as ((Hv1 & Hq1 & Hr1 & Hf1 & Hs1 & Hb1 & _) & evs & Htr1 & Hio);
    cbn in Hv1, Hq1, Hr1, Hf1, Hs1, Hb1, Htr1.
  - simplify_eq. split_and!; try done. by exists evs.
  - destruct (resp_data response); simplify_eq;
      (split_and!; try done; by exists evs).
Qed.

Lemma iteration_crawled c it rest :
  queue c = it :: rest →
  item_url it ∉ visited c →
  item_depth it ≤ maxDepth o →
  robots_pass o c (item_url it) →
  Outcome o c it rest (iteration o w c).
Proof.
  intros Hq Hv Hd Hr.
  destruct (iteration_crawl o w c it rest Hq Hv Hd Hr) as (c0 & Hc0 & ->).
  apply robots_blocked_frame in Hc0 as (Hst0 & Hrq0 & Htr0).
  unfold same_store, shifted in Hst0, Hrq0, Htr0. cbn in Hst0, Hrq0, Htr0.
  destruct Hst0 as (Hv0 & Hq0 & Hr0 & Hf0 & Hs0 & Hb0 & _).
  destruct (crawlPage _ _ _ _ _ _) as [[error | pageData] c1] eqn:Hcp;
    apply crawlPage_frame in Hcp
      as ((Hv1 & Hq1 & Hr1 & Hf1 & Hs1 & Hb1) & (evs & Htr1 & Hio) & Hpage);
    destruct (enqueued_io _ _ Hio) as [Hen Htl];
    destruct (delay_events_tail (item_url it)) as [Hden Hdtl].
  - (* the request or the extractor threw *)
    assert (Hcases :
      ∃ b c2,
        (if ignoreRestrictions o then (false, c1)
         else handleCrawlError o error (item_url it) (item_parent it) c1)
        = (b, c2)
        ∧ ((b = false ∧ c2 = c1)
           ∨ (b = true ∧ ignoreRestrictions o = false
              ∧ skipUnauthorized o = true
              ∧ ∃ r, skip_url r = item_url it ∧ c2 = push_skipped r c1))).
    { destruct (ignoreRestrictions o) eqn:Hi.
      - exists false, c1. split; [done|]. by left.
      - destruct (handleCrawlError _ _ _ _ _) as [b c2] eqn:Hh.
        exists b, c2. split; [done|].
        apply handleCrawlError_cases in Hh. by rewrite Hi in Hh. }
    destruct Hcases as (b & c2 & -> & Hcase).
    match goal with
    | |- context [request_delay o ?c] =>
        destruct (request_delay_store o c)
          as (Hv2 & Hq2 & Hr2 & Hf2 & Hs2 & Hb2 & _);
        pose proof (request_delay_trace o c) as Htr2
    end.
    destruct Hcase as [[-> ->] | (-> & Hi & Hs & r & Hurl & ->)].
    + apply (out_crawled _ _ _ _ _ [] (evs ++ delay_events o));
        try done.
      * rewrite Hv2. cbn. by rewrite Hv1, Hv0.
      * rewrite Hq2. cbn. by rewrite Hq1, Hq0, app_nil_r.
      * rewrite Hb2. cbn. by rewrite Hb1, Hb0.
      * rewrite Htr2. cbn. rewrite Htr1, Htr0. by rewrite <- !app_assoc.
      * by apply Forall_app.
      * by rewrite enqueued_app, Hen, Hden.
      * apply (term_fail _ _ _ _ _ _ (err_message error)); try done.
        -- rewrite Hr2. cbn. by rewrite Hr1, Hr0.
        -- rewrite Hs2. cbn. by rewrite Hs1, Hs0.
        -- rewrite Hf2. cbn. by rewrite Hf1, Hf0.
    + apply (out_crawled _ _ _ _ _ [] (evs ++ delay_events o));
        try done.
      * rewrite Hv2. cbn. by rewrite Hv1, Hv0.
      * rewrite Hq2. cbn. by rewrite Hq1, Hq0, app_nil_r.
      * rewrite Hb2. cbn. by rewrite Hb1, Hb0.
      * rewrite Htr2. cbn. rewrite Htr1, Htr0. by rewrite <- !app_assoc.
      * by apply Forall_app.
      * by rewrite enqueued_app, Hen, Hden.
      * apply (term_skip _ _ _ _ _ _ r); try done.
        -- rewrite Hr2. cbn. by rewrite Hr1, Hr0.
        -- rewrite Hs2. cbn. by rewrite Hs1, Hs0.
        -- rewrite Hf2. cbn. by rewrite Hf1, Hf0.
  - (* the page was extracted *)
    destruct pageData as [purl pdepth pparent links].
    cbn in Hpage. destruct Hpage as (-> & -> & ->). cbn [page_links].
    match goal with
    | |- context [request_delay o ?c] =>
        destruct (request_delay_store o c)
          as (Hv2 & Hq2 & Hr2 & Hf2 & Hs2 & Hb2 & _);
        pose proof (request_delay_trace o c) as Htr2
    end.
    match type of Htr2 with
    | context [addLinksToQueue ?l ?d ?p ?c] =>
        destruct (addLinksToQueue_spec l d p c)
          as (Hq3 & Htr3 & Hv3 & Hr3 & Hf3 & Hs3 & Hb3 & _)
    end.
    unfold queue_urls in Hq3, Htr3.
    cbn in Hq3, Htr3, Hv3, Hr3, Hf3, Hs3, Hb3.
    rewrite Hv1, Hq1, Hs1, Hv0, Hq0, Hs0 in Hq3.
    rewrite Hv1, Hq1, Hs1, Hv0, Hq0, Hs0, Htr1, Htr0 in Htr3.
    set (added := map (mkItem (item_depth it + 1) (item_url it))
                    (pushed_urls links
                       ({[item_url it]} ∪ visited c) (map item_url rest)
                       (map skip_url (skippedUrls c)))) in *.
    apply (out_crawled _ _ _ _ _ added
             (evs ++ map EvEnqueue added ++ delay_events o)); try done.
    + by rewrite Hv2, Hv3, Hv1, Hv0.
    + rewrite Hq2. exact Hq3.
    + by rewrite Hb2, Hb3, Hb1, Hb0.
    + rewrite Htr2, Htr3. by rewrite <- !app_assoc.
    + apply Forall_app. split; [done|]. apply Forall_app. split; [|done].
      apply Forall_forall. intros e [it' [-> _]]%list_elem_of_fmap. done.
    + rewrite !enqueued_app, Hen, Hden, enqueued_map_EvEnqueue.
      by rewrite app_nil_r.
    + apply (term_page _ _ _ _ _ _ links); try done.
      * by rewrite Hr2, Hr3, Hr1, Hr0.
      * by rewrite Hs2, Hs3, Hs1, Hs0.
      * by rewrite Hf2, Hf3, Hf1, Hf0.
Qed.

Lemma iteration_outcome c it rest :
  queue c = it :: rest →
  Outcome o c it rest (iteration o w c).
Proof.
  intros Hq.
  destruct (decide (item_url it ∈ visited c)) as [Hv | Hv].
  { apply out_dropped; [by left|].
    unfold iteration, processItem. rewrite Hq. cbn.
    by rewrite bool_decide_eq_true_2. }
  destruct (Z.ltb_spec (maxDepth o) (item_depth it)) as [Hd | Hd].
  { apply out_dropped; [by right|].
    unfold iteration, processItem. rewrite Hq. cbn.
    rewrite bool_decide_eq_false_2 by done.
    by assert ((maxDepth o <? item_depth it) = true) as -> by lia. }
  destruct (ignoreRestrictions o) eqn:Hi.
  { apply iteration_crawled; try done. by left. }
  destruct (robots c) as [isAllowed |] eqn:Hrob; last first.
  { apply iteration_crawled; try done. right. by rewrite Hrob. }
  destruct (isAllowed (item_url it)) eqn:Hall.
  { apply iteration_crawled; try done. right. by rewrite Hrob. }
  eapply out_robots; try done.
  unfold iteration, processItem. rewrite Hq. cbn.
  rewrite bool_decide_eq_false_2 by done.
  assert ((maxDepth o <? item_depth it) = false) as -> by lia.
  unfold robots_blocked. rewrite Hi. cbn. by rewrite Hrob, Hall.
Qed.

End Cases.

(** ** Sessions and their invariants *)

Section Sessions.

Context (o : Options) (w : World).

Lemma loop_guard_cons c :
  loop_guard o c = true →
  ∃ it rest, queue c = it :: rest
             ∧ Z.of_nat (length (results c)) < maxPages o.
Proof.
  unfold loop_guard. intros [Hq Hr]%andb_true_iff.
  destruct (queue c) as [| it rest]; [done|].
  exists it, rest. split; [done | lia].
Qed.

Lemma loop_step_outcome c c' :
  loop_step o w c c' →
  ∃ it rest, queue c = it :: rest
             ∧ Z.of_nat (length (results c)) < maxPages o
             ∧ Outcome o c it rest c'.
Proof.
  intros [(it & rest & Hq & Hlt)%loop_guard_cons ->].
  exists it, rest. split_and!; [done..|]. by apply iteration_outcome.
Qed.

(** The executable loop follows [loop_step] and stops when the guard
    fails. *)
Lemma processQueue_rtc fuel :
  ∀ c c', processQueue o w fuel c = Some c' →
          rtc (loop_step o w) c c' ∧ loop_guard o c' = false.
Proof.
  induction fuel as [| fuel IH]; intros c c'; cbn;
    destruct (loop_guard o c) eqn:Hg; intros H; simplify_eq.
  - by split.
  - apply IH in H as [Hrtc Hend]. split; [|done].
    eapply rtc_l; [|exact Hrtc]. by split.
  - by split.
Qed.

Lemma crawl_reachable fuel startUrl out c :
  crawl o w fuel startUrl new_WebCrawler = Some (out, c) →
  reachable o w startUrl c ∧ out = saveResults c
  ∧ loop_guard o c = false.
Proof.
  unfold crawl. intros H.
  destruct (processQueue _ _ _ _) as [c' |] eqn:Hp; simplify_eq.
  apply processQueue_rtc in Hp as [? ?]. by split_and!.
Qed.

Lemma processQueue_more_fuel fuel :
  ∀ c c' extra, processQueue o w fuel c = Some c' →
                processQueue o w (fuel + extra) c = Some c'.
Proof.
  induction fuel as [| fuel IH]; intros c c' extra; cbn;
    destruct (loop_guard o c) eqn:Hg; intros H; simplify_eq.
  - destruct extra; cbn; by rewrite Hg.
  - by apply IH.
  - done.
Qed.

(** An iteration either adds a page or shortens the queue. *)
Lemma Outcome_progress c it rest c' :
  queue c = it :: rest →
  Outcome o c it rest c' →
  length (results c') = S (length (results c))
  ∨ (results c' = results c ∧ queue c' = rest).
Proof.
  intros Hq [Hdrop -> | isAllowed _ _ _ _ _ -> |
             added tail _ _ _ _ Hq' _ _ _ _ Hterm].
  - right. by split.
  - right. by split.
  - destruct Hterm as [links Hr _ _ _ | r _ _ _ Hr _ _ -> | m Hr _ _ ->].
    + left. rewrite Hr, length_app. cbn. lia.
    + right. by rewrite Hq', app_nil_r.
    + right. by rewrite Hq', app_nil_r.
Qed.

(** [processQueue] terminates: the pages still allowed, then the length
    of the queue, decrease. *)
Lemma processQueue_terminates c :
  ∃ fuel c', processQueue o w fuel c = Some c'.
Proof.
  remember (Z.to_nat (maxPages o - Z.of_nat (length (results c)))) as n
    eqn:Hn.
  revert c Hn. induction n as [n IHn] using lt_wf_ind. intros c Hn.
  remember (length (queue c)) as q eqn:Hlen.
  revert c Hn Hlen. induction q as [q IHq] using lt_wf_ind. intros c Hn Hlen.
  destruct (loop_guard o c) eqn:Hg; last first.
  { exists O, c. cbn. by rewrite Hg. }
  destruct (loop_guard_cons c Hg) as (it & rest & Hq & Hlt).
  pose proof (iteration_outcome o w c it rest Hq) as Hout.
  destruct (Outcome_progress _ _ _ _ Hq Hout) as [Hpage | [Hsame Hrest]].
  - destruct (IHn (Z.to_nat (maxPages o
                     - Z.of_nat (length (results (iteration o w c))))))
      with (c := iteration o w c) as (fuel & c' & Hrun); [lia | done |].
    exists (S fuel), c'. cbn. by rewrite Hg.
  - destruct (IHq (length (queue (iteration o w c))))
      with (c := iteration o w c) as (fuel & c' & Hrun).
    + rewrite Hrest, Hlen, Hq. cbn. lia.
    + by rewrite Hsame.
    + done.
    + exists (S fuel), c'. cbn. by rewrite Hg.
Qed.

(** Every session ends and produces its report. *)
Lemma crawl_terminates startUrl :
  ∃ fuel out c, crawl o w fuel startUrl new_WebCrawler = Some (out, c).
Proof.
  destruct (processQueue_terminates
              (crawl_init o w startUrl new_WebCrawler)) as (fuel & c & H).
  exists fuel, (saveResults c), c. unfold crawl. by rewrite H.
Qed.

(** Induction over the states of a session. *)
Lemma reachable_ind' (P : Crawler → Prop) startUrl :
  P (crawl_init o w startUrl new_WebCrawler) →
  (∀ c it rest c',
     reachable o w startUrl c → P c →
     queue c = it :: rest →
     Z.of_nat (length (results c)) < maxPages o →
     Outcome o c it rest c' → P c') →
  ∀ c, reachable o w startUrl c → P c.
Proof.
  intros Hinit Hstep. unfold reachable.
  apply (rtc_ind_r (fun c => P c)); [done|].
  intros c c' Hrtc Hs IH.
  apply loop_step_outcome in Hs as (it & rest & Hq & Hlt & Hout).
  by eapply Hstep.
Qed.

End Sessions.

Section Invariant.

Context (o : Options) (w : World).

Lemma crawl_init_fields startUrl :
  let c := crawl_init o w startUrl new_WebCrawler in
  let seed := {| item_url := startUrl; item_depth := 0;
                 item_parent := None |} in
  let load := respectRobots o && negb (ignoreRestrictions o) in
  queue c = [seed] ∧ visited c = ∅ ∧ results c = []
  ∧ failedUrls c = [] ∧ skippedUrls c = [] ∧ requests c = O
  ∧ robots c = (if load then robots_txt w else None)
  ∧ trace c = (if load then [EvLoadRobots] else []) ++ [EvEnqueue seed].
Proof.
  unfold crawl_init, loadRobotsTxt. cbn zeta.
  destruct (respectRobots o && negb (ignoreRestrictions o));
    [destruct (robots_txt w)|]; cbn; by split_and!.
Qed.

Lemma Inv_init startUrl : Inv (crawl_init o w startUrl new_WebCrawler).
Proof.
  destruct (crawl_init_fields startUrl)
    as (Hq & Hv & Hr & Hf & Hs & _ & _ & _).
  split; unfold queue_urls, recorded; rewrite ?Hq, ?Hv, ?Hr, ?Hf, ?Hs; cbn.
  - apply NoDup_singleton.
  - constructor.
  - intros u _. split; [set_solver | by intros ?%elem_of_nil].
  - by intros u ?%elem_of_nil.
Qed.

Lemma Inv_not_recorded c u :
  Inv c → u ∈ queue_urls c → u ∉ recorded c.
Proof.
  intros [_ _ Hfresh Hvis] Hin. destruct (Hfresh u Hin) as [Hnv Hns].
  unfold recorded. intros [Hp | [Hs | Hf]%elem_of_app]%elem_of_app.
  - apply Hnv, Hvis, elem_of_app. by left.
  - done.
  - apply Hnv, Hvis, elem_of_app. by right.
Qed.

Lemma map_item_url_mkItem depth parent l :
  map item_url (map (mkItem depth parent) l) = l.
Proof. induction l as [| u l IH]; cbn; [done | by f_equal]. Qed.

Lemma perm_push_first {A} (u : A) a b c :
  (a ++ [u]) ++ b ++ c ≡ₚ u :: a ++ b ++ c.
Proof. rewrite <- app_assoc. cbn. symmetry. apply Permutation_middle. Qed.

Lemma perm_push_second {A} (u : A) a b c :
  a ++ (b ++ [u]) ++ c ≡ₚ u :: a ++ b ++ c.
Proof.
  rewrite <- (app_assoc b). cbn. rewrite !app_assoc. symmetry.
  apply Permutation_middle.
Qed.

Lemma perm_push_third {A} (u : A) a b c :
  a ++ b ++ (c ++ [u]) ≡ₚ u :: a ++ b ++ c.
Proof.
  rewrite !app_assoc. symmetry. apply Permutation_cons_append.
Qed.

Lemma Inv_step c it rest c' :
  Inv c → queue c = it :: rest → Outcome o c it rest c' → Inv c'.
Proof.
  intros HI Hq Hout.
  assert (Hhead : item_url it ∈ queue_urls c).
  { unfold queue_urls. rewrite Hq. left. }
  pose proof (Inv_not_recorded c _ HI Hhead) as Hnrec.
  destruct HI as [Hnd Hrec Hfresh Hvis].
  unfold queue_urls in Hnd, Hfresh. rewrite Hq in Hnd, Hfresh.
  cbn in Hnd, Hfresh. apply NoDup_cons in Hnd as [Hnotin Hnd].
  assert (Hfresh' : ∀ u, u ∈ map item_url rest →
            u ≠ item_url it ∧ (u ∉ visited c)
            ∧ u ∉ map skip_url (skippedUrls c)).
  { intros u Hu. destruct (Hfresh u) as [? ?]; [by right|].
    split_and!; [|done..]. by intros ->. }
  unfold recorded in Hnrec, Hrec.
  destruct Hout as [Hdrop -> | isAllowed _ _ _ _ _ -> |
                    added tail _ _ _ Hv' Hq' _ _ _ _ Hterm].
  - split; unfold queue_urls, recorded; cbn; try done.
    intros u Hu. destruct (Hfresh' u Hu) as (? & ? & ?). by split.
  - split; unfold queue_urls, recorded; cbn; try done.
    + rewrite map_app. cbn. rewrite perm_push_second. by constructor.
    + intros u Hu. destruct (Hfresh' u Hu) as (? & ? & ?).
      split; [done|]. rewrite map_app. set_solver.
  - assert (Hperm : recorded c' ≡ₚ item_url it :: recorded c).
    { unfold recorded.
      destruct Hterm as [links Hr Hs Hf _ | r _ _ Hu Hr Hs Hf _
                         | m Hr Hs Hf _]; rewrite Hr, Hs, Hf, ?map_app; cbn.
      - apply perm_push_first.
      - rewrite Hu. apply perm_push_second.
      - apply perm_push_third. }
    assert (Hskip : ∀ u, u ∈ map skip_url (skippedUrls c') →
                         u = item_url it
                         ∨ u ∈ map skip_url (skippedUrls c)).
    { destruct Hterm as [links Hr Hs Hf _ | r _ _ Hu Hr Hs Hf _
                         | m Hr Hs Hf _]; rewrite Hs; [by right | | by right].
      rewrite map_app. cbn. rewrite Hu. set_solver. }
    assert (Hpf : ∀ u, u ∈ map page_url (results c')
                         ++ map fail_url (failedUrls c') →
                       u = item_url it
                       ∨ u ∈ map page_url (results c)
                             ++ map fail_url (failedUrls c)).
    { destruct Hterm as [links Hr Hs Hf _ | r _ _ Hu Hr Hs Hf _
                         | m Hr Hs Hf _]; rewrite Hr, Hf, ?map_app; cbn;
        set_solver. }
    assert (Hadd : ∀ u, u ∈ map item_url added →
                        (u ∉ {[item_url it]} ∪ visited c)
                        ∧ (u ∉ map item_url rest)
                        ∧ u ∉ map skip_url (skippedUrls c)).
    { destruct Hterm as [links _ _ _ -> | r _ _ _ _ _ _ ->
                         | m _ _ _ ->];
        [| by intros u ?%elem_of_nil..].
      intros u. rewrite map_item_url_mkItem. intros Hin%pushed_urls_sound.
      tauto. }
    assert (Hndadd : NoDup (map item_url added)).
    { destruct Hterm as [links _ _ _ -> | r _ _ _ _ _ _ ->
                         | m _ _ _ ->]; [| constructor..].
      rewrite map_item_url_mkItem. apply pushed_urls_NoDup. }
    split.
    + unfold queue_urls. rewrite Hq', map_app. apply NoDup_app.
      split_and!; [done | | done].
      intros u Hu Hu'. apply Hadd in Hu'. tauto.
    + rewrite Hperm. constructor; [|done].
      unfold recorded. done.
    + unfold queue_urls. rewrite Hq', map_app, Hv'.
      intros u [Hu | Hu]%elem_of_app.
      * destruct (Hfresh' u Hu) as (? & ? & ?). split; [set_solver|].
        intros [-> | ?]%Hskip; done.
      * destruct (Hadd u Hu) as (? & ? & ?). split; [done|].
        intros [-> | ?]%Hskip; [set_solver | done].
    + rewrite Hv'. intros u [-> | Hu]%Hpf; [set_solver|].
      apply Hvis in Hu. set_solver.
Qed.

Lemma reachable_Inv startUrl c : reachable o w startUrl c → Inv c.
Proof.
  apply reachable_ind'; [apply Inv_init|].
  intros c0 it rest c' _ HI Hq _ Hout. by eapply Inv_step.
Qed.

End Invariant.

(** ** Invariants of the trace *)

Section TraceInvariants.

Context (o : Options) (w : World).

Lemma vpg_snoc tr e :
  visits_precede_gets tr →
  (∀ u, e = EvGet u → EvVisited u ∈ tr) →
  visits_precede_gets (tr ++ [e]).
Proof.
  intros Htr He pre post u Heq.
  destruct post as [| e' post _] using rev_ind.
  - apply app_inj_tail in Heq as [-> ->]. by apply He.
  - rewrite app_comm_cons, app_assoc in Heq.
    apply app_inj_tail in Heq as [-> ->]. by eapply Htr.
Qed.

Lemma vpg_app_tail url tail :
  ∀ tr, visits_precede_gets tr → EvVisited url ∈ tr →
        Forall (tail_event url) tail →
        visits_precede_gets (tr ++ tail).
Proof.
  induction tail as [| e tail IH]; intros tr Htr Hin Hall.
  - by rewrite app_nil_r.
  - apply Forall_cons in Hall as [He Hall].
    rewrite (cons_middle e), app_assoc. apply IH; [| set_solver | done].
    apply vpg_snoc; [done|]. intros u ->. cbn in He. by subst.
Qed.

Lemma vpg_app_quiet evs :
  ∀ tr, visits_precede_gets tr →
        Forall (fun e => ∀ u, e ≠ EvGet u) evs →
        visits_precede_gets (tr ++ evs).
Proof.
  induction evs as [| e evs IH]; intros tr Htr Hall.
  - by rewrite app_nil_r.
  - apply Forall_cons in Hall as [He Hall].
    rewrite (cons_middle e), app_assoc. apply IH; [|done].
    apply vpg_snoc; [done|]. intros u ->. by destruct (He u).
Qed.

Lemma robots_events_quiet c url :
  Forall (fun e => ∀ u, e ≠ EvGet u) (robots_events o c url)
  ∧ enqueued (robots_events o c url) = []
  ∧ dequeued (robots_events o c url) = []
  ∧ ∀ u, EvVisited u ∉ robots_events o c url.
Proof.
  unfold robots_events.
  destruct (ignoreRestrictions o); [|destruct (robots c)]; cbn;
    split_and!; try done; try (by repeat constructor);
    intros u; set_solver.
Qed.

Lemma tail_event_quiet url tail :
  Forall (tail_event url) tail →
  dequeued tail = [] ∧ (∀ u, EvVisited u ∉ tail)
  ∧ Forall no_robots_event tail.
Proof.
  induction 1 as [| e tail He _ (IH1 & IH2 & IH3)].
  - split_and!; [done | intros u; set_solver | constructor].
  - destruct e; cbn in He; try done; cbn; split_and!; try done;
      try (by constructor); intros u' [? | ?]%elem_of_cons; try done;
      by apply (IH2 u').
Qed.

(** Requests follow the visited mark, and the visited set is the set of
    the marks logged. *)
Lemma reachable_visits startUrl c :
  reachable o w startUrl c →
  visits_precede_gets (trace c)
  ∧ ∀ u, u ∈ visited c ↔ EvVisited u ∈ trace c.
Proof.
  intros Hreach. pattern c. revert c Hreach. apply reachable_ind'.
  - destruct (crawl_init_fields o w startUrl)
      as (_ & Hv & _ & _ & _ & _ & _ & Htr).
    rewrite Hv, Htr. split.
    + apply (vpg_app_quiet _ []).
      * intros pre post u Heq. by destruct pre.
      * destruct (respectRobots o && negb (ignoreRestrictions o)); cbn;
          by repeat constructor.
    + intros u. destruct (respectRobots o && negb (ignoreRestrictions o));
        cbn; set_solver.
  - intros c0 it rest c' _ [Hvpg Hset] Hq _ Hout.
    destruct Hout as [Hdrop -> | isAllowed _ _ _ _ _ -> |
                      added tail _ _ _ Hv' _ _ Htr' Htail _ _].
    + cbn. split.
      * apply vpg_snoc; [done|]. by intros u.
      * intros u. rewrite Hset. set_solver.
    + cbn. split.
      * apply vpg_snoc; [|by intros u]. apply vpg_snoc; [done|].
        by intros u.
      * intros u. rewrite Hset. set_solver.
    + destruct (robots_events_quiet c0 (item_url it))
        as (Hrq & _ & _ & Hrv).
      destruct (tail_event_quiet _ _ Htail) as (_ & Htv & _).
      rewrite Htr', Hv'. split.
      * replace (trace c0 ++ [EvDequeue it]
                 ++ robots_events o c0 (item_url it)
                 ++ [EvVisited (item_url it); EvGet (item_url it)] ++ tail)
          with (((((trace c0 ++ [EvDequeue it])
                     ++ robots_events o c0 (item_url it))
                    ++ [EvVisited (item_url it)])
                   ++ [EvGet (item_url it)]) ++ tail)
          by (by rewrite <- !app_assoc).
        apply vpg_app_tail with (url := item_url it); [| set_solver | done].
        apply vpg_snoc; [| intros u [= ->]; set_solver].
        apply vpg_snoc; [| by intros u].
        apply vpg_app_quiet; [|done].
        apply vpg_snoc; [done | by intros u].
      * intros u. specialize (Hrv u). specialize (Htv u).
        rewrite elem_of_union, Hset, !elem_of_app, !elem_of_cons.
        rewrite elem_of_singleton. split.
        -- intros [-> | ?]; [|by left]. right. right. right. left. by left.
        -- intros [? | [[? | ?%elem_of_nil] | [? | [[? | [? | ?%elem_of_nil]]
                   | ?]]]]; simplify_eq; try done; try (by left);
             by right.
Qed.

(** The frontier is a queue: what was pushed is what was shifted,
    followed by what is still waiting, in the same order. *)
Lemma reachable_fifo startUrl c :
  reachable o w startUrl c →
  enqueued (trace c) = dequeued (trace c) ++ queue c.
Proof.
  intros Hreach. pattern c. revert c Hreach. apply reachable_ind'.
  - destruct (crawl_init_fields o w startUrl)
      as (Hq & _ & _ & _ & _ & _ & _ & Htr).
    rewrite Hq, Htr.
    by destruct (respectRobots o && negb (ignoreRestrictions o)).
  - intros c0 it rest c' _ IH Hq _ Hout.
    destruct Hout as [Hdrop -> | isAllowed _ _ _ _ _ -> |
                      added tail _ _ _ _ Hq' _ Htr' Htail Hen _].
    + cbn. rewrite enqueued_app, dequeued_app, IH, Hq. cbn.
      by rewrite app_nil_r, <- app_assoc.
    + cbn. rewrite !enqueued_app, !dequeued_app, IH, Hq. cbn.
      by rewrite !app_nil_r, <- app_assoc.
    + destruct (robots_events_quiet c0 (item_url it))
        as (_ & Hre & Hrd & _).
      destruct (tail_event_quiet _ _ Htail) as (Htd & _ & _).
      rewrite Htr', Hq', !enqueued_app, !dequeued_app, IH, Hq, Hre, Hrd.
      cbn. fold (enqueued tail) (dequeued tail). rewrite Htd, Hen.
      by rewrite ?app_nil_r, <- ?app_assoc.
Qed.

(** With [ignoreRestrictions] the skip list stays empty and robots.txt
    is neither loaded nor consulted. *)
Lemma reachable_unrestricted startUrl c :
  ignoreRestrictions o = true →
  reachable o w startUrl c →
  skippedUrls c = [] ∧ robots c = None
  ∧ Forall no_robots_event (trace c).
Proof.
  intros Hi Hreach. pattern c. revert c Hreach. apply reachable_ind'.
  - destruct (crawl_init_fields o w startUrl)
      as (_ & _ & _ & _ & Hs & _ & Hr & Htr).
    rewrite Hs, Hr, Htr, Hi, andb_false_r. by repeat constructor.
  - intros c0 it rest c' _ (Hs & Hr & Htr) Hq _ Hout.
    destruct Hout as [Hdrop -> | isAllowed Hi' _ _ _ _ -> |
                      added tail _ _ _ _ _ Hr' Htr' Htail _ Hterm].
    + cbn. split_and!; [done..|]. apply Forall_app. by repeat constructor.
    + congruence.
    + destruct (tail_event_quiet _ _ Htail) as (_ & _ & Hnr).
      split_and!.
      * destruct Hterm as [links _ Hs' _ _ | r Hi' _ _ _ _ _ _
                           | m _ Hs' _ _]; congruence.
      * congruence.
      * rewrite Htr'. unfold robots_events. rewrite Hi.
        repeat (apply Forall_app; split); try done;
          by repeat constructor.
Qed.

End TraceInvariants.

(** ** Strings *)

Section Strings.

Lemma string_app_cons x (a b : string) :
  String x a +:+ b = String x (a +:+ b).
Proof. reflexivity. Qed.

Lemma string_app_nil_l (a : string) : EmptyString +:+ a = a.
Proof. reflexivity. Qed.

Lemma string_app_assoc (a b c : string) : (a +:+ b) +:+ c = a +:+ b +:+ c.
Proof.
  induction a as [| x a IH]; [done|]. rewrite !string_app_cons. by f_equal.
Qed.

Lemma string_length_app (a b : string) :
  String.length (a +:+ b) = (String.length a + String.length b)%nat.
Proof.
  induction a as [| x a IH]; [done|]. rewrite string_app_cons. cbn.
  by rewrite IH.
Qed.

Lemma toLowerCase_app (a b : string) :
  toLowerCase (a +:+ b) = toLowerCase a +:+ toLowerCase b.
Proof.
  induction a as [| x a IH]; [done|]. rewrite string_app_cons. cbn.
  rewrite string_app_cons. by f_equal.
Qed.

Lemma prefix_spec (k : string) :
  ∀ s, String.prefix k s = true ↔ ∃ post, s = k +:+ post.
Proof.
  induction k as [| x k IH]; intros s.
  - split; [intros _; by exists s | intros _; by destruct s].
  - destruct s as [| y s]; cbn [String.prefix].
    + split; [done | by intros [post ?]].
    + destruct (ascii_dec x y) as [-> | Hne].
      * rewrite IH. split; intros [post H]; exists post.
        -- by rewrite string_app_cons, H.
        -- rewrite string_app_cons in H. by simplify_eq.
      * split; [done|]. intros [post H].
        rewrite string_app_cons in H. by simplify_eq.
Qed.

Lemma js_includes_cons s k y :
  js_includes (String y s) k = String.prefix k (String y s) || js_includes s k.
Proof.
  unfold js_includes. cbn [index].
  destruct (String.prefix k (String y s)); [done|].
  by destruct (index 0 k s).
Qed.

(** [s.includes(k)] holds exactly when [k] occurs in [s]. *)
Lemma js_includes_spec (k : string) :
  ∀ s, js_includes s k = true ↔ ∃ pre post, s = pre +:+ k +:+ post.
Proof.
  induction s as [| y s IH].
  - unfold js_includes. cbn [index]. destruct k as [| x k].
    + split; [intros _; by exists EmptyString, EmptyString | done].
    + split; [done|]. intros (pre & post & H). by destruct pre.
  - rewrite js_includes_cons, orb_true_iff, prefix_spec, IH. split.
    + intros [[post H] | (pre & post & H)].
      * by exists EmptyString, post.
      * exists (String y pre), post. by rewrite string_app_cons, H.
    + intros (pre & post & H). destruct pre as [| z pre].
      * left. by exists post.
      * right. rewrite string_app_cons in H. simplify_eq. by exists pre, post.
Qed.

Lemma substring_all (s : string) : substring 0 (String.length s) s = s.
Proof. induction s as [| y s IH]; cbn; [done | by rewrite IH]. Qed.

Lemma substring_after_prefix (pre suffix : string) :
  substring (String.length pre) (String.length suffix) (pre +:+ suffix)
  = suffix.
Proof.
  induction pre as [| x pre IH]; [apply substring_all|].
  by rewrite string_app_cons.
Qed.

Lemma substring_split (s : string) :
  ∀ n, (n ≤ String.length s)%nat →
       ∃ pre, s = pre +:+ substring n (String.length s - n) s.
Proof.
  induction s as [| x s IH]; intros n Hn.
  - exists EmptyString. by destruct n.
  - destruct n as [| n].
    + exists EmptyString. rewrite string_app_nil_l, Nat.sub_0_r.
      by rewrite substring_all.
    + destruct (IH n) as [pre Hpre]; [cbn in Hn; lia|].
      exists (String x pre). rewrite string_app_cons. cbn. by rewrite <- Hpre.
Qed.

(** [s.endsWith(suffix)] holds exactly when [s] ends with [suffix]. *)
Lemma js_endsWith_spec (s suffix : string) :
  js_endsWith s suffix = true ↔ ∃ pre, s = pre +:+ suffix.
Proof.
  unfold js_endsWith. rewrite andb_true_iff, bool_decide_eq_true. split.
  - intros [Hlen Hsub]. apply Nat.leb_le in Hlen.
    destruct (substring_split s (String.length s - String.length suffix))
      as [pre Hpre]; [lia|].
    exists pre.
    replace (String.length s - (String.length s - String.length suffix))%nat
      with (String.length suffix) in Hpre by lia.
    by rewrite Hsub in Hpre.
  - intros [pre ->]. rewrite string_length_app. split.
    + apply Nat.leb_le. lia.
    + replace (String.length pre + String.length suffix
               - String.length suffix)%nat
        with (String.length pre) by lia.
      apply substring_after_prefix.
Qed.

End Strings.

(** * The claims *)

Section PolicyClaims.

Context (o : Options) (w : World).

(** C6.  With [skipUnauthorized] and [ignoreRestrictions] off and a
    retry budget of 3, a URL all of whose attempts raise an error
    carrying status 500 is recorded as failed after exactly three
    retries; the sleep before the n-th retry lasts [baseDelay * n], that
    is [baseDelay], [2 * baseDelay], [3 * baseDelay].  No page and no
    skip record is written. *)
Theorem C6_status_500_fails_after_three_retries c it rest :
  ignoreRestrictions o = false →
  skipUnauthorized o = false →
  retries o = 3 →
  queue c = it :: rest →
  item_url it ∉ visited c →
  item_depth it ≤ maxDepth o →
  robots_pass o c (item_url it) →
  (∀ n, ∃ message,
      axios_settle o w (net w n (item_url it))
      = inl {| err_status := Some 500; err_message := message |}) →
  ∃ message,
    failedUrls (iteration o w c)
    = failedUrls c ++ [{| fail_url := item_url it;
                          fail_error := message;
                          fail_parent := item_parent it |}]
    ∧ results (iteration o w c) = results c
    ∧ skippedUrls (iteration o w c) = skippedUrls c
    ∧ trace (iteration o w c)
      = trace c ++ [EvDequeue it] ++ robots_events o c (item_url it)
        ++ [EvVisited (item_url it);
            EvGet (item_url it);
            EvSleep baseDelay; EvGet (item_url it);
            EvSleep (2 * baseDelay); EvGet (item_url it);
            EvSleep (3 * baseDelay); EvGet (item_url it)]
        ++ delay_events o.
Proof.
  intros Hi Hs Hret Hq Hv Hd Hr Hall.
  destruct (iteration_exhaust o w c it rest Hq Hv Hd Hr)
    as (error & He & Hf & Hres & Hsk & _ & _ & Htr).
  - intros n _. destruct (Hall n) as [message Hm].
    eexists. split; [exact Hm|]. right.
    unfold noRetryStatuses. by rewrite Hs.
  - by right.
  - exists (err_message error). rewrite Hf, Hres, Hsk, Htr, Hret.
    split_and!; try done.
Qed.

(** C5, as amended.  With [skipUnauthorized] on and
    [ignoreRestrictions] off, a URL whose fetch is answered with status
    403 is recorded as skipped, with status code 403 and the reason the
    source spells with an ASCII hyphen, after that single request: no
    retry, no page, no failure record. *)
Theorem C5_status_403_is_skipped_without_retry c it rest :
  ignoreRestrictions o = false →
  skipUnauthorized o = true →
  queue c = it :: rest →
  item_url it ∉ visited c →
  item_depth it ≤ maxDepth o →
  robots_pass o c (item_url it) →
  reply_status (net w (requests c) (item_url it)) = Some 403 →
  skippedUrls (iteration o w c)
  = skippedUrls c ++ [{| skip_url := item_url it;
                         skip_reason := Some "Forbidden - Access denied";
                         skip_parent := item_parent it;
                         skip_statusCode := Some 403 |}]
  ∧ results (iteration o w c) = results c
  ∧ failedUrls (iteration o w c) = failedUrls c
  ∧ trace (iteration o w c)
    = trace c ++ [EvDequeue it] ++ robots_events o c (item_url it)
      ++ [EvVisited (item_url it); EvGet (item_url it)]
      ++ delay_events o.
Proof.
  intros Hi Hs Hq Hv Hd Hr Hnet.
  destruct (iteration_skip_auth o w c it rest 403 Hi Hs) as
    (Hsk & Hres & Hf & _ & _ & _ & Htr); try done.
  { unfold authRelatedCodes. set_solver. }
Qed.

(** C2, as amended.  With [ignoreRestrictions] and [skipUnauthorized]
    off, a reply with status 500, 502, 503 or 504 is refused by
    [validateStatus] and handled as a generic error: it is retried until
    the budget is used up and the URL is then recorded as failed, not as
    a page and not as skipped.  A reply with status 401, 403, 407, 429,
    451, 404 or 410 passes [validateStatus] (it is below 500) and is not
    retried: after that single request the URL is recorded as a page
    when the extractor reads the body, and as failed, with the message
    of the error, when [cheerio.load] or the extractor throws on it. *)
Theorem C2_statuses_without_skipUnauthorized c it rest status :
  ignoreRestrictions o = false →
  skipUnauthorized o = false →
  queue c = it :: rest →
  item_url it ∉ visited c →
  item_depth it ≤ maxDepth o →
  robots_pass o c (item_url it) →
  (status ∈ [500; 502; 503; 504] →
   (∀ n, reply_status (net w n (item_url it)) = Some status) →
   failedUrls (iteration o w c)
   = failedUrls c ++ [{| fail_url := item_url it;
                         fail_error := reject_message w status;
                         fail_parent := item_parent it |}]
   ∧ results (iteration o w c) = results c
   ∧ skippedUrls (iteration o w c) = skippedUrls c
   ∧ trace (iteration o w c)
     = trace c ++ [EvDequeue it] ++ robots_events o c (item_url it)
       ++ [EvVisited (item_url it); EvGet (item_url it)]
       ++ retry_events (item_url it) 1 (retries o) ++ delay_events o)
  ∧ (status ∈ [401; 403; 407; 429; 451; 404; 410] →
     ∀ links,
       net w (requests c) (item_url it) = HttpReply status links →
       results (iteration o w c)
       = results c ++ [{| page_url := item_url it;
                          page_depth := item_depth it;
                          page_parent := item_parent it;
                          page_links := links |}]
       ∧ failedUrls (iteration o w c) = failedUrls c
       ∧ skippedUrls (iteration o w c) = skippedUrls c
       ∧ ∃ added,
           trace (iteration o w c)
           = trace c ++ [EvDequeue it] ++ robots_events o c (item_url it)
             ++ [EvVisited (item_url it); EvGet (item_url it)]
             ++ map EvEnqueue added ++ delay_events o)
  ∧ (status ∈ [401; 403; 407; 429; 451; 404; 410] →
     ∀ message,
       net w (requests c) (item_url it) = HttpUnreadable status message →
       failedUrls (iteration o w c)
       = failedUrls c ++ [{| fail_url := item_url it;
                             fail_error := message;
                             fail_parent := item_parent it |}]
       ∧ results (iteration o w c) = results c
       ∧ skippedUrls (iteration o w c) = skippedUrls c
       ∧ trace (iteration o w c)
         = trace c ++ [EvDequeue it] ++ robots_events o c (item_url it)
           ++ [EvVisited (item_url it); EvGet (item_url it)]
           ++ delay_events o).
Proof.
  intros Hi Hs Hq Hv Hd Hr.
  assert (Hacc : status ∈ [401; 403; 407; 429; 451; 404; 410] →
                 validateStatus o status = true).
  { intros Hin. unfold validateStatus. rewrite Hi, Hs.
    repeat (apply elem_of_cons in Hin as [-> | Hin]); try done.
    by apply elem_of_nil in Hin. }
  split_and!.
  - intros Hin Hall.
    assert (Hrej : validateStatus o status = false).
    { unfold validateStatus. rewrite Hi, Hs.
      repeat (apply elem_of_cons in Hin as [-> | Hin]); try done.
      by apply elem_of_nil in Hin. }
    assert (Hset : ∀ n, axios_settle o w (net w n (item_url it))
                        = inl {| err_status := Some status;
                                 err_message := reject_message w status |}).
    { intros n. specialize (Hall n).
      destruct (net w n (item_url it)); cbn in Hall; simplify_eq;
        cbn; by rewrite Hrej. }
    destruct (iteration_exhaust o w c it rest Hq Hv Hd Hr)
      as (error & He & Hf & Hres & Hsk & _ & _ & Htr).
    + intros n _. eexists. split; [apply Hset|]. right.
      unfold noRetryStatuses. rewrite Hs. cbn.
      repeat (apply elem_of_cons in Hin as [-> | Hin]); try done.
      by apply elem_of_nil in Hin.
    + by right.
    + rewrite Hset in He. simplify_eq. by rewrite Hf, Hres, Hsk, Htr.
  - intros Hin links Hnet.
    destruct (iteration_accept o w c it rest status links Hq Hv Hd Hr)
      as (Hres & _ & _ & Hf & Hsk & _ & _ & Htr).
    { rewrite Hnet. cbn. by rewrite Hacc. }
    rewrite Hres, Hf, Hsk. split_and!; try done. eexists. exact Htr.
  - intros Hin message Hnet.
    destruct (iteration_unreadable o w c it rest status message Hq Hv Hd Hr)
      as (Hres & _ & _ & _ & Htr & Hrec).
    { rewrite Hnet. cbn. by rewrite Hacc. }
    rewrite Hi, Hs in Hrec. cbn in Hrec. destruct Hrec as [Hf Hsk].
    by rewrite Hres, Hf, Hsk, Htr.
Qed.

(** C4, as amended.  With [ignoreRestrictions] on, a reply with a status
    in [200, 600) is accepted by [validateStatus] and is not retried:
    after that single request the URL is recorded as a page when the
    extractor reads the body, and as failed, with the message of the
    error, when [cheerio.load] or the extractor throws on it.  Transport
    exceptions, and replies with a status outside [200, 600), are retried
    until the budget is used up, the sleep before the n-th retry lasting
    [baseDelay * n]; the URL is then recorded as failed.  In no case is
    it recorded as skipped. *)
Theorem C4_unrestricted_mode_accepts_or_retries c it rest :
  ignoreRestrictions o = true →
  queue c = it :: rest →
  item_url it ∉ visited c →
  item_depth it ≤ maxDepth o →
  (∀ status links,
     200 ≤ status < 600 →
     net w (requests c) (item_url it) = HttpReply status links →
     results (iteration o w c)
     = results c ++ [{| page_url := item_url it;
                        page_depth := item_depth it;
                        page_parent := item_parent it;
                        page_links := links |}]
     ∧ failedUrls (iteration o w c) = failedUrls c
     ∧ skippedUrls (iteration o w c) = skippedUrls c
     ∧ ∃ added,
         trace (iteration o w c)
         = trace c ++ [EvDequeue it; EvVisited (item_url it);
                       EvGet (item_url it)]
           ++ map EvEnqueue added ++ delay_events o)
  ∧ (∀ status message,
       200 ≤ status < 600 →
       net w (requests c) (item_url it) = HttpUnreadable status message →
       failedUrls (iteration o w c)
       = failedUrls c ++ [{| fail_url := item_url it;
                             fail_error := message;
                             fail_parent := item_parent it |}]
       ∧ results (iteration o w c) = results c
       ∧ skippedUrls (iteration o w c) = skippedUrls c
       ∧ trace (iteration o w c)
         = trace c ++ [EvDequeue it; EvVisited (item_url it);
                       EvGet (item_url it)]
           ++ delay_events o)
  ∧ ((∀ n, match net w n (item_url it) with
           | HttpReply status _ => ¬ (200 ≤ status < 600)
           | HttpUnreadable status _ => ¬ (200 ≤ status < 600)
           | TransportError _ => True
           end) →
     ∃ error,
       axios_settle o w
         (net w (requests c + Z.to_nat (retries o))%nat (item_url it))
       = inl error
       ∧ failedUrls (iteration o w c)
         = failedUrls c ++ [{| fail_url := item_url it;
                               fail_error := err_message error;
                               fail_parent := item_parent it |}]
       ∧ results (iteration o w c) = results c
       ∧ skippedUrls (iteration o w c) = skippedUrls c
       ∧ trace (iteration o w c)
         = trace c ++ [EvDequeue it; EvVisited (item_url it);
                       EvGet (item_url it)]
           ++ retry_events (item_url it) 1 (retries o) ++ delay_events o).
Proof.
  intros Hi Hq Hv Hd.
  assert (Hr : robots_pass o c (item_url it)) by by left.
  assert (Hev : robots_events o c (item_url it) = []).
  { unfold robots_events. by rewrite Hi. }
  assert (Hacc : ∀ status, 200 ≤ status < 600 →
                           validateStatus o status = true).
  { intros status Hrange. unfold validateStatus. rewrite Hi.
    apply andb_true_iff. lia. }
  assert (Hrej : ∀ status, ¬ (200 ≤ status < 600) →
                           validateStatus o status = false).
  { intros status Hrange. unfold validateStatus. rewrite Hi.
    apply andb_false_iff. lia. }
  split_and!.
  - intros status links Hrange Hnet.
    destruct (iteration_accept o w c it rest status links Hq Hv Hd Hr)
      as (Hres & _ & _ & Hf & Hsk & _ & _ & Htr).
    { rewrite Hnet. cbn. by rewrite Hacc. }
    rewrite Hres, Hf, Hsk. split_and!; try done.
    eexists. rewrite Htr, Hev. done.
  - intros status message Hrange Hnet.
    destruct (iteration_unreadable o w c it rest status message Hq Hv Hd Hr)
      as (Hres & _ & _ & _ & Htr & Hrec).
    { rewrite Hnet. cbn. by rewrite Hacc. }
    rewrite Hi in Hrec. cbn in Hrec. destruct Hrec as [Hf Hsk].
    by rewrite Hres, Hf, Hsk, Htr, Hev.
  - intros Hall.
    destruct (iteration_exhaust o w c it rest Hq Hv Hd Hr)
      as (error & He & Hf & Hres & Hsk & _ & _ & Htr).
    + intros n _. specialize (Hall n).
      destruct (net w n (item_url it)) as [status links | status m | m];
        cbn; rewrite ?Hrej by done; eexists; (split; [done | by left]).
    + by left.
    + exists error. rewrite Hf, Hres, Hsk, Htr, Hev. by split_and!.
Qed.

End PolicyClaims.

Section SessionClaims.

Context (o : Options) (w : World).

Lemma Outcome_recorded_mono c it rest c' u :
  Outcome o c it rest c' → u ∈ recorded c → u ∈ recorded c'.
Proof.
  unfold recorded.
  intros [_ -> | isAllowed _ _ _ _ _ -> | added tail _ _ _ _ _ _ _ _ _ Hterm].
  - done.
  - cbn. rewrite map_app. set_solver.
  - destruct Hterm as [links Hr Hs Hf _ | r _ _ _ Hr Hs Hf _ | m Hr Hs Hf _];
      rewrite Hr, Hs, Hf, ?map_app; set_solver.
Qed.

Lemma steps_recorded_mono c c' u :
  rtc (loop_step o w) c c' → u ∈ recorded c → u ∈ recorded c'.
Proof.
  induction 1 as [| c1 c2 c3 Hs _ IH]; [done|].
  intros Hu. apply IH.
  apply loop_step_outcome in Hs as (it & rest & _ & _ & Hout).
  by eapply Outcome_recorded_mono.
Qed.

(** C3, as amended.  With [ignoreRestrictions] on, in every state of a
    session the skip list is empty, no robots.txt was loaded and none
    was consulted; and every dequeued work item whose depth does not
    exceed [maxDepth] ends the iteration with a page record or with a
    failure record for its URL.  In particular the report has an empty
    skip list. *)
Theorem C3_unrestricted_mode_never_skips startUrl :
  ignoreRestrictions o = true →
  (∀ c,
     reachable o w startUrl c →
     skippedUrls c = [] ∧ robots c = None
     ∧ Forall no_robots_event (trace c)
     ∧ ∀ it rest,
         queue c = it :: rest →
         item_depth it ≤ maxDepth o →
         ((∃ links,
             results (iteration o w c)
             = results c ++ [{| page_url := item_url it;
                                page_depth := item_depth it;
                                page_parent := item_parent it;
                                page_links := links |}]
             ∧ failedUrls (iteration o w c) = failedUrls c)
          ∨ (∃ message,
               failedUrls (iteration o w c)
               = failedUrls c ++ [{| fail_url := item_url it;
                                     fail_error := message;
                                     fail_parent := item_parent it |}]
               ∧ results (iteration o w c) = results c)))
  ∧ (∀ fuel out c,
       crawl o w fuel startUrl new_WebCrawler = Some (out, c) →
       out_skippedUrls out = [] ∧ skippedRequests out = 0
       ∧ Forall no_robots_event (trace c)).
Proof.
  intros Hi. split.
  - intros c Hreach.
    destruct (reachable_unrestricted o w startUrl c Hi Hreach)
      as (Hs & Hr & Htr).
    split_and!; [done..|].
    intros it rest Hq Hd.
    pose proof (reachable_Inv o w startUrl c Hreach) as HI.
    destruct (inv_fresh c HI (item_url it)) as [Hv _].
    { unfold queue_urls. rewrite Hq. left. }
    destruct (iteration_outcome o w c it rest Hq)
      as [[? | ?] _ | isAllowed Hi' _ _ _ _ _
          | added tail _ _ _ _ _ _ _ _ _ Hterm];
      [done | lia | congruence |].
    destruct Hterm as [links Hres _ Hf _ | r Hi' _ _ _ _ _ _
                       | m Hres _ Hf _]; [| congruence |].
    + left. by exists links.
    + right. by exists m.
  - intros fuel out c (Hreach & -> & _)%crawl_reachable.
    destruct (reachable_unrestricted o w startUrl c Hi Hreach)
      as (Hs & Hr & Htr).
    cbn. by rewrite Hs.
Qed.

End SessionClaims.

Section FrontierClaims.

Context (o : Options) (w : World).

Lemma processQueue_step fuel c :
  loop_guard o c = true →
  processQueue o w (S fuel) c = processQueue o w fuel (iteration o w c).
Proof. intros H. cbn. by rewrite H. Qed.

Lemma processQueue_done fuel c :
  loop_guard o c = false → processQueue o w fuel c = Some c.
Proof. intros H. destruct fuel; cbn; by rewrite H. Qed.

Lemma pushed_urls_ext links1 :
  ∀ links2 vis queued skipped,
    map link_url links1 = map link_url links2 →
    pushed_urls links1 vis queued skipped = pushed_urls links2 vis queued skipped.
Proof.
  induction links1 as [| l1 links1 IH]; intros [| l2 links2] vis queued
    skipped Heq; cbn in *; simplify_eq; [done|].
  match goal with H : link_url _ = link_url _ |- _ => rewrite H end.
  case_bool_decide; [f_equal|]; by apply IH.
Qed.

Lemma map_link_url_link_to urls : map link_url (map link_to urls) = urls.
Proof. induction urls as [| u urls IH]; cbn; [done | by f_equal]. Qed.

Lemma robots_allow_pass c url :
  robots c = session_robots o w →
  robots_allow o w url →
  robots_pass o c url.
Proof.
  unfold session_robots, robots_allow, robots_pass. intros ->.
  intros [Hi | [Hr | Hok]]; [by left | |].
  - right. by rewrite Hr.
  - right. by destruct (respectRobots o && negb (ignoreRestrictions o)).
Qed.

(** One iteration on a site that serves the page at the head of the
    queue. *)
Lemma frontier_step c it rest vis crawled links :
  frontier_is o w c vis (it :: rest) crawled →
  item_url it ∉ vis →
  item_depth it ≤ maxDepth o →
  robots_allow o w (item_url it) →
  serves o w (item_url it) links →
  frontier_is o w (iteration o w c) ({[item_url it]} ∪ vis)
    (rest ++ map (mkItem (item_depth it + 1) (item_url it))
               (pushed_urls (map link_to links) ({[item_url it]} ∪ vis)
                  (map item_url rest) []))
    (crawled ++ [item_url it]).
Proof.
  intros (Hv & Hq & Hr & Hs & Hb) Hnv Hd Hallow Hserves.
  destruct (Hserves (requests c)) as (status & served & Hacc & Hlinks).
  destruct (iteration_accept o w c it rest status served Hq)
    as (Hres & Hq' & Hv' & _ & Hs' & Hb' & _ & _).
  { by rewrite Hv. }
  { done. }
  { by apply robots_allow_pass. }
  { done. }
  unfold frontier_is.
  rewrite Hres, Hq', Hv', Hs', Hb', Hv, Hs, map_app, Hr. cbn.
  split_and!; try done.
  do 2 f_equal. apply pushed_urls_ext. by rewrite map_link_url_link_to.
Qed.

Lemma frontier_guard c vis it rest crawled :
  frontier_is o w c vis (it :: rest) crawled →
  Z.of_nat (length crawled) < maxPages o →
  loop_guard o c = true.
Proof.
  intros (_ & Hq & Hr & _) Hlt. unfold loop_guard. rewrite Hq.
  rewrite <- Hr, length_map in Hlt. cbn.
  apply Z.ltb_lt. lia.
Qed.

Lemma frontier_init startUrl :
  frontier_is o w (crawl_init o w startUrl new_WebCrawler) ∅
    [{| item_url := startUrl; item_depth := 0; item_parent := None |}] [].
Proof.
  destruct (crawl_init_fields o w startUrl)
    as (Hq & Hv & Hr & _ & Hs & _ & Hb & _).
  unfold frontier_is. by rewrite Hq, Hv, Hr, Hs, Hb.
Qed.

(** C9.  The frontier is a first-in first-out queue: in every state of a
    session the work items pushed so far are the work items shifted so
    far followed by the queue, in the same order.  For a seed whose page
    links to A and B, with the page of A linking to C and the pages of B
    and C linking to nothing, all four fetches being accepted, the
    session ends and its pages are, in order, the seed, A, B and C. *)
Theorem C9_fifo_breadth_first startUrl :
  (∀ c,
     reachable o w startUrl c →
     enqueued (trace c) = dequeued (trace c) ++ queue c)
  ∧ (∀ A B C,
       NoDup [startUrl; A; B; C] →
       4 ≤ maxPages o →
       2 ≤ maxDepth o →
       (∀ u, u ∈ [startUrl; A; B; C] → robots_allow o w u) →
       serves o w startUrl [A; B] →
       serves o w A [C] →
       serves o w B [] →
       serves o w C [] →
       ∃ fuel out c,
         crawl o w fuel startUrl new_WebCrawler = Some (out, c)
         ∧ map page_url (pages out) = [startUrl; A; B; C]).
Proof.
  split; [apply reachable_fifo|].
  intros A B C Hnd Hpages Hdepth Hrob HsS HsA HsB HsC.
  assert (Hne : startUrl ≠ A ∧ startUrl ≠ B ∧ startUrl ≠ C
                ∧ A ≠ B ∧ A ≠ C ∧ B ≠ C).
  { repeat (apply NoDup_cons in Hnd as [? Hnd]). set_solver. }
  destruct Hne as (? & ? & ? & ? & ? & ?).
  set (c0 := crawl_init o w startUrl new_WebCrawler).
  pose proof (frontier_init startUrl) as F0. fold c0 in F0.
  pose proof (frontier_step c0 _ _ _ _ [A; B] F0) as F1.
  cbn in F1.
  rewrite bool_decide_eq_true_2 in F1 by (split_and!; set_solver).
  rewrite bool_decide_eq_true_2 in F1 by (split_and!; set_solver).
  cbn in F1.
  specialize (F1 ltac:(set_solver) ltac:(lia)
                 ltac:(apply Hrob; set_solver) HsS).
  pose proof (frontier_step (iteration o w c0) _ _ _ _ [C] F1) as F2.
  cbn in F2.
  rewrite bool_decide_eq_true_2 in F2 by (split_and!; set_solver).
  cbn in F2.
  specialize (F2 ltac:(set_solver) ltac:(lia)
                 ltac:(apply Hrob; set_solver) HsA).
  pose proof (frontier_step (iteration o w (iteration o w c0))
                _ _ _ _ [] F2) as F3.
  cbn in F3.
  specialize (F3 ltac:(set_solver) ltac:(lia)
                 ltac:(apply Hrob; set_solver) HsB).
  pose proof (frontier_step
                (iteration o w (iteration o w (iteration o w c0)))
                _ _ _ _ [] F3) as F4.
  cbn in F4.
  specialize (F4 ltac:(set_solver) ltac:(lia)
                 ltac:(apply Hrob; set_solver) HsC).
  set (c4 := iteration o w
               (iteration o w (iteration o w (iteration o w c0)))) in *.
  exists 4%nat, (saveResults c4), c4.
  unfold crawl. fold c0.
  rewrite processQueue_step
    by (eapply frontier_guard; [exact F0 | cbn; lia]).
  rewrite processQueue_step
    by (eapply frontier_guard; [exact F1 | cbn; lia]).
  rewrite processQueue_step
    by (eapply frontier_guard; [exact F2 | cbn; lia]).
  rewrite processQueue_step
    by (eapply frontier_guard; [exact F3 | cbn; lia]).
  fold c4.
  rewrite processQueue_done.
  - split; [done|]. cbn. by destruct F4 as (_ & _ & -> & _).
  - unfold loop_guard. by destruct F4 as (_ & -> & _).
Qed.

End FrontierClaims.

Section LoopClaims.

Context (o : Options) (w : World).

(** C7, as amended.  [addLinksToQueue] appends a work item for a
    discovered link if and only if the URL of the link is not in the
    visited set, is not already queued and is not in the skip list, and
    it appends it once; neither the depth nor the number of pages is
    tested at admission.  A work item deeper than [maxDepth] is dropped
    when it is dequeued, and the loop of [processQueue] stops as soon as
    the number of pages reaches [maxPages]. *)
Theorem C7_admission_tests c :
  (∀ links depth parent,
     ∃ added,
       queue (addLinksToQueue links depth parent c) = queue c ++ added
       ∧ NoDup (map item_url added)
       ∧ ∀ it,
           it ∈ added ↔
           it = mkItem depth parent (item_url it)
           ∧ item_url it ∈ map link_url links
           ∧ (item_url it ∉ visited c)
           ∧ (item_url it ∉ queue_urls c)
           ∧ item_url it ∉ map skip_url (skippedUrls c))
  ∧ (∀ it rest,
       queue c = it :: rest →
       maxDepth o < item_depth it →
       iteration o w c = shifted it rest c)
  ∧ (∀ fuel,
       maxPages o ≤ Z.of_nat (length (results c)) →
       processQueue o w fuel c = Some c).
Proof.
  split_and!.
  - intros links depth parent.
    destruct (addLinksToQueue_spec links depth parent c) as (Hq & _).
    eexists. split; [exact Hq|]. split.
    + rewrite map_item_url_mkItem. apply pushed_urls_NoDup.
    + intros it. rewrite list_elem_of_fmap. split.
      * intros (u & -> & Hin). cbn.
        apply pushed_urls_sound in Hin as (? & ? & ? & ?). by split_and!.
      * intros (Hit & Hl & Hv & Hqu & Hs). exists (item_url it).
        split; [done|]. by apply pushed_urls_complete.
  - intros it rest Hq Hd.
    destruct (iteration_outcome o w c it rest Hq)
      as [_ -> | isAllowed _ _ _ _ ? _ | added tail _ ? _ _ _ _ _ _ _ _];
      [done | lia | lia].
  - intros fuel Hcap. apply processQueue_done. unfold loop_guard.
    apply andb_false_iff. right. apply Z.ltb_ge. lia.
Qed.

(** C8, as amended.  The URL of a dequeued work item is put in the
    visited set at the start of [crawlPage], that is after the visited,
    depth and robots tests of the loop and before the first request for
    it: in every state of a session each request logged for a URL comes
    after the mark of that URL, and the visited set holds exactly the
    marked URLs.  A work item that passes the depth and robots tests is
    marked by its iteration; one that is dropped for its depth or blocked
    by robots.txt is not. *)
Theorem C8_visited_is_marked_before_the_fetch startUrl c :
  reachable o w startUrl c →
  visits_precede_gets (trace c)
  ∧ (∀ u, u ∈ visited c ↔ EvVisited u ∈ trace c)
  ∧ ∀ it rest,
      queue c = it :: rest →
      (item_depth it ≤ maxDepth o ∧ robots_pass o c (item_url it) →
       visited (iteration o w c) = {[item_url it]} ∪ visited c)
      ∧ (maxDepth o < item_depth it ∨ ¬ robots_pass o c (item_url it) →
         visited (iteration o w c) = visited c
         ∧ EvVisited (item_url it) ∉ trace (iteration o w c)).
Proof.
  intros Hreach.
  destruct (reachable_visits o w startUrl c Hreach) as [Hvpg Hset].
  split_and!; [done..|].
  intros it rest Hq.
  pose proof (reachable_Inv o w startUrl c Hreach) as HI.
  destruct (inv_fresh c HI (item_url it)) as [Hnv _].
  { unfold queue_urls. rewrite Hq. left. }
  assert (Hnt : EvVisited (item_url it) ∉ trace c) by by rewrite <- Hset.
  split.
  - intros [Hd Hpass].
    destruct (iteration_outcome o w c it rest Hq)
      as [[? | ?] _ | isAllowed Hi Hrob Hall _ _ _
          | added tail _ _ _ Hv' _ _ _ _ _ _]; [done | lia | | done].
    destruct Hpass as [Hi' | Hok]; [congruence|].
    rewrite Hrob in Hok. congruence.
  - intros Hout.
    destruct (iteration_outcome o w c it rest Hq)
      as [_ -> | isAllowed _ _ _ _ _ ->
          | added tail _ Hd Hpass _ _ _ _ _ _ _].
    + cbn. split; [done|]. set_solver.
    + cbn. split; [done|]. set_solver.
    + destruct Hout as [? | Hnp]; [lia | done].
Qed.

(** C10.  Every session ends and produces its report; when the report
    has no page, [averageLinksPerPage] is [Math.round(0 / 0)], that is
    [NaN] and not [0], and [JSON.stringify] writes it as [null]. *)
Theorem C10_average_is_NaN_without_pages startUrl :
  (∃ fuel out c, crawl o w fuel startUrl new_WebCrawler = Some (out, c))
  ∧ ∀ fuel out c,
      crawl o w fuel startUrl new_WebCrawler = Some (out, c) →
      pages out = [] →
      averageLinksPerPage (statistics out) = js_round_div 0 0
      ∧ averageLinksPerPage (statistics out) = JsNaN
      ∧ averageLinksPerPage (statistics out) ≠ JsInt 0
      ∧ JSON_stringify_number (averageLinksPerPage (statistics out))
        = JNull.
Proof.
  split; [apply crawl_terminates|].
  intros fuel out c (_ & -> & _)%crawl_reachable Hp. cbn in *.
  rewrite Hp. by cbn.
Qed.

End LoopClaims.

(** * The claims on the example sessions *)

Lemma C6_witness :
  map fail_url
    (failedUrls (iteration opts_default (site_status 500)
                   (start opts_default (site_status 500))))
  = [home]
  ∧ trace (iteration opts_default (site_status 500)
             (start opts_default (site_status 500)))
    = [EvEnqueue seed; EvDequeue seed; EvVisited home;
       EvGet home; EvSleep 1000; EvGet home; EvSleep 2000; EvGet home;
       EvSleep 3000; EvGet home; EvSleep 1000].
Proof.
  destruct (C6_status_500_fails_after_three_retries
              opts_default (site_status 500)
              (start opts_default (site_status 500)) seed [])
    as (message & Hf & _ & _ & Htr).
  - reflexivity.
  - reflexivity.
  - reflexivity.
  - reflexivity.
  - cbn. apply not_elem_of_empty.
  - cbn. lia.
  - right. exact I.
  - intros n. eexists. reflexivity.
  - rewrite Hf, Htr. split; reflexivity.
Defined.

Lemma C5_witness :
  skippedUrls (iteration opts_skip (site_status 403)
                 (start opts_skip (site_status 403)))
  = [{| skip_url := home;
        skip_reason := Some "Forbidden - Access denied";
        skip_parent := None;
        skip_statusCode := Some 403 |}]
  ∧ trace (iteration opts_skip (site_status 403)
             (start opts_skip (site_status 403)))
    = [EvEnqueue seed; EvDequeue seed; EvVisited home; EvGet home;
       EvSleep 1000].
Proof.
  destruct (C5_status_403_is_skipped_without_retry
              opts_skip (site_status 403)
              (start opts_skip (site_status 403)) seed [])
    as (Hs & _ & _ & Htr).
  - reflexivity.
  - reflexivity.
  - reflexivity.
  - cbn. apply not_elem_of_empty.
  - cbn. lia.
  - right. exact I.
  - reflexivity.
  - rewrite Hs, Htr. split; reflexivity.
Defined.

(** The reason written for status 403 is not the string of the claim:
    the dash differs. *)
Lemma C5_counterexample :
  ignoreRestrictions opts_skip = false
  ∧ skipUnauthorized opts_skip = true
  ∧ (∀ n, reply_status (net (site_status 403) n home) = Some 403)
  ∧ ∃ out c,
      crawl opts_skip (site_status 403) 5 home new_WebCrawler
      = Some (out, c)
      ∧ map skip_statusCode (out_skippedUrls out) = [Some 403]
      ∧ map skip_reason (out_skippedUrls out)
        = [Some "Forbidden - Access denied"]
      ∧ map skip_reason (out_skippedUrls out)
        ≠ [Some ("Forbidden " +:+ en_dash +:+ " Access denied")].
Proof.
  split_and!; [reflexivity | reflexivity | intros n; reflexivity |].
  eexists _, _. split; [vm_compute; reflexivity|].
  split_and!; [reflexivity | reflexivity |].
  vm_compute. discriminate.
Qed.

Lemma C2_witness :
  map fail_url
    (failedUrls (iteration opts_default (site_status 503)
                   (start opts_default (site_status 503))))
  = [home]
  ∧ map page_url
      (results (iteration opts_default (site_status 404)
                  (start opts_default (site_status 404))))
    = [home]
  ∧ failedUrls
      (iteration opts_default
         (site_unreadable 404 "cheerio.load() expects a string")
         (start opts_default
            (site_unreadable 404 "cheerio.load() expects a string")))
    = [{| fail_url := home;
          fail_error := "cheerio.load() expects a string";
          fail_parent := None |}].
Proof.
  split_and!.
  - destruct (C2_statuses_without_skipUnauthorized
                opts_default (site_status 503)
                (start opts_default (site_status 503)) seed [] 503)
      as (Hfail & _ & _).
    + reflexivity.
    + reflexivity.
    + reflexivity.
    + cbn. apply not_elem_of_empty.
    + cbn. lia.
    + right. exact I.
    + destruct Hfail as (Hf & _).
      * set_solver.
      * intros n. reflexivity.
      * rewrite Hf. reflexivity.
  - destruct (C2_statuses_without_skipUnauthorized
                opts_default (site_status 404)
                (start opts_default (site_status 404)) seed [] 404)
      as (_ & Hpage & _).
    + reflexivity.
    + reflexivity.
    + reflexivity.
    + cbn. apply not_elem_of_empty.
    + cbn. lia.
    + right. exact I.
    + destruct (Hpage ltac:(set_solver) [] eq_refl) as (Hr & _).
      rewrite Hr. reflexivity.
  - destruct (C2_statuses_without_skipUnauthorized
                opts_default
                (site_unreadable 404 "cheerio.load() expects a string")
                (start opts_default
                   (site_unreadable 404 "cheerio.load() expects a string"))
                seed [] 404)
      as (_ & _ & Hthrow).
    + reflexivity.
    + reflexivity.
    + reflexivity.
    + cbn. apply not_elem_of_empty.
    + cbn. lia.
    + right. exact I.
    + destruct (Hthrow ltac:(set_solver) _ eq_refl) as (Hf & _).
      rewrite Hf. reflexivity.
Defined.

(** With both flags off a reply with status 403, with a body the
    extractor reads, yields a page after a single request: no retry, no
    failure record. *)
Lemma C2_counterexample :
  ignoreRestrictions opts_default = false
  ∧ skipUnauthorized opts_default = false
  ∧ 403 ∈ authRelatedCodes
  ∧ (∀ n, reply_status (net (site_status 403) n home) = Some 403)
  ∧ ∃ out c,
      crawl opts_default (site_status 403) 5 home new_WebCrawler
      = Some (out, c)
      ∧ map page_url (pages out) = [home]
      ∧ out_failedUrls out = []
      ∧ trace c = [EvEnqueue seed; EvDequeue seed; EvVisited home;
                   EvGet home; EvSleep 1000].
Proof.
  split_and!; [reflexivity | reflexivity | | intros n; reflexivity |].
  { unfold authRelatedCodes. set_solver. }
  eexists _, _. split; [vm_compute; reflexivity|].
  split_and!; reflexivity.
Qed.

Lemma C4_witness :
  map page_url
    (results (iteration opts_ignore (site_status 404)
                (start opts_ignore (site_status 404))))
  = [home]
  ∧ failedUrls
      (iteration opts_ignore
         (site_unreadable 200 "cheerio.load() expects a string")
         (start opts_ignore
            (site_unreadable 200 "cheerio.load() expects a string")))
    = [{| fail_url := home;
          fail_error := "cheerio.load() expects a string";
          fail_parent := None |}]
  ∧ ∃ message,
      trace (iteration opts_ignore
               (static_site (fun _ => TransportError message) None)
               (start opts_ignore
                  (static_site (fun _ => TransportError message) None)))
      = [EvEnqueue seed; EvDequeue seed; EvVisited home;
         EvGet home; EvSleep 1000; EvGet home; EvSleep 2000; EvGet home;
         EvSleep 3000; EvGet home; EvSleep 1000].
Proof.
  split_and!.
  - destruct (C4_unrestricted_mode_accepts_or_retries
                opts_ignore (site_status 404)
                (start opts_ignore (site_status 404)) seed [])
      as (Hpage & _ & _).
    + reflexivity.
    + reflexivity.
    + cbn. apply not_elem_of_empty.
    + cbn. lia.
    + destruct (Hpage 404 [] ltac:(lia) eq_refl) as (Hr & _).
      rewrite Hr. reflexivity.
  - destruct (C4_unrestricted_mode_accepts_or_retries
                opts_ignore
                (site_unreadable 200 "cheerio.load() expects a string")
                (start opts_ignore
                   (site_unreadable 200 "cheerio.load() expects a string"))
                seed [])
      as (_ & Hthrow & _).
    + reflexivity.
    + reflexivity.
    + cbn. apply not_elem_of_empty.
    + cbn. lia.
    + destruct (Hthrow 200 _ ltac:(lia) eq_refl) as (Hf & _).
      rewrite Hf. reflexivity.
  - exists "socket hang up".
    destruct (C4_unrestricted_mode_accepts_or_retries
                opts_ignore
                (static_site (fun _ => TransportError "socket hang up") None)
                (start opts_ignore
                   (static_site (fun _ => TransportError "socket hang up")
                      None)) seed [])
      as (_ & _ & Hfail).
    + reflexivity.
    + reflexivity.
    + cbn. apply not_elem_of_empty.
    + cbn. lia.
    + destruct Hfail as (error & _ & _ & _ & _ & Htr).
      * intros n. exact I.
      * rewrite Htr. reflexivity.
Defined.

(** With [ignoreRestrictions] on a reply with status 404, which is in
    [200, 600), is not retried: its body being one the extractor reads,
    the page is recorded after one request. *)
Lemma C4_counterexample :
  ignoreRestrictions opts_ignore = true
  ∧ (∀ n, reply_status (net (site_status 404) n home) = Some 404)
  ∧ 200 ≤ 404 < 600
  ∧ ∃ out c,
      crawl opts_ignore (site_status 404) 5 home new_WebCrawler
      = Some (out, c)
      ∧ map page_url (pages out) = [home]
      ∧ out_failedUrls out = []
      ∧ trace c = [EvEnqueue seed; EvDequeue seed; EvVisited home;
                   EvGet home; EvSleep 1000].
Proof.
  split_and!; [reflexivity | intros n; reflexivity | lia | lia |].
  eexists _, _. split; [vm_compute; reflexivity|].
  split_and!; reflexivity.
Qed.

(** C1.  The start URL is queued and marked as it was given, while the
    links of a page are normalized by [extractLinks] before they are
    compared with the visited set.  Started at [home_bare], which the
    URL parser normalizes to [home], on a site whose home page links to
    itself, the crawler fetches the page twice and the report has two
    page records, [home_bare] and [home], for one URL identity. *)
Lemma C1_start_url_is_recorded_twice :
  ∃ out c,
    crawl opts_default site_home_link 10 home_bare new_WebCrawler
    = Some (out, c)
    ∧ map page_url (pages out) = [home_bare; home]
    ∧ out_skippedUrls out = [] ∧ out_failedUrls out = []
    ∧ gets (trace c) = [home_bare; home]
    ∧ ∀ (resolveUrl : string → string → option string)
        (normalizeUrl : string → string)
        (getDomain : string → option string),
        resolveUrl home_bare "/" = Some home →
        normalizeUrl home = home →
        normalizeUrl home_bare = home →
        map link_url
          (extractLinks resolveUrl normalizeUrl getDomain
             [{| href := "/" |}] home_bare (Some "ex.test"))
        = [home]
        ∧ ¬ NoDup (map normalizeUrl (map page_url (pages out))).
Proof.
  eexists _, _. split; [vm_compute; reflexivity|].
  split_and!; try reflexivity.
  intros resolveUrl normalizeUrl getDomain Hresolve Hhome Hbare. split.
  - unfold extractLinks. cbn [foldl extractLinks_each href].
    rewrite Hresolve. unfold home at 1 2.
    assert (shouldSkipUrl home = false) as Hskip by reflexivity.
    unfold home in Hskip at 1. rewrite Hskip, Hhome.
    rewrite bool_decide_eq_false_2 by apply not_elem_of_empty.
    reflexivity.
  - change (¬ NoDup (map normalizeUrl [home_bare; home])).
    cbn [map]. rewrite Hbare, Hhome. intros Hnd.
    apply NoDup_cons in Hnd as [Hnotin _]. apply Hnotin. left.
Qed.

Lemma C3_witness :
  ∃ out c,
    crawl opts_ignore site_disallowed 10 home new_WebCrawler
    = Some (out, c)
    ∧ out_skippedUrls out = []
    ∧ Forall no_robots_event (trace c)
    ∧ robots (start opts_ignore site_disallowed) = None.
Proof.
  destruct (crawl opts_ignore site_disallowed 10 home new_WebCrawler)
    as [[out c] |] eqn:Hrun; [| vm_compute in Hrun; discriminate].
  exists out, c. split; [reflexivity|].
  destruct (C3_unrestricted_mode_never_skips
              opts_ignore site_disallowed home eq_refl)
    as [Hstates Hreport].
  destruct (Hreport 10%nat out c Hrun) as (Hs & _ & Htr).
  destruct (Hstates (start opts_ignore site_disallowed)) as (_ & Hr & _).
  { apply rtc_refl. }
  by split_and!.
Defined.

(** With [ignoreRestrictions] on and [maxDepth] 1, [page_c] is dequeued
    at depth 2 and ends with no record at all. *)
Lemma C3_counterexample :
  ignoreRestrictions opts_shallow = true
  ∧ ∃ out c,
      crawl opts_shallow site_tree 10 home new_WebCrawler = Some (out, c)
      ∧ EvDequeue (mkItem 2 page_a page_c) ∈ trace c
      ∧ queue c = []
      ∧ map page_url (pages out) = [home; page_a; page_b]
      ∧ out_failedUrls out = [] ∧ out_skippedUrls out = [].
Proof.
  split; [reflexivity|].
  eexists _, _. split; [vm_compute; reflexivity|].
  split_and!; try reflexivity.
  apply list_elem_of_In. vm_compute. tauto.
Qed.

Lemma C7_witness :
  iteration opts_one_page site_tree
    (set_queue [mkItem 1 home page_a] (start opts_one_page site_tree))
  = shifted (mkItem 1 home page_a) []
      (set_queue [mkItem 1 home page_a] (start opts_one_page site_tree))
  ∧ processQueue opts_one_page site_tree 0
      (iteration opts_one_page site_tree (start opts_one_page site_tree))
    = Some (iteration opts_one_page site_tree
              (start opts_one_page site_tree)).
Proof.
  split.
  - destruct (C7_admission_tests opts_one_page site_tree
                (set_queue [mkItem 1 home page_a]
                   (start opts_one_page site_tree)))
      as (_ & Hdrop & _).
    apply Hdrop; [reflexivity | cbn; lia].
  - destruct (C7_admission_tests opts_one_page site_tree
                (iteration opts_one_page site_tree
                   (start opts_one_page site_tree)))
      as (_ & _ & Hcap).
    apply Hcap. vm_compute. discriminate.
Defined.

(** With [maxPages] 1 and [maxDepth] 0, the links of the first page are
    handed to [addLinksToQueue] when the number of pages already equals
    [maxPages]; both are admitted, at depth 1, and the queue grows from
    empty to two items. *)
Lemma C7_counterexample :
  ∃ c2,
    iteration opts_one_page site_tree (start opts_one_page site_tree)
    = request_delay opts_one_page
        (addLinksToQueue [link_to page_a; link_to page_b] 1 home c2)
    ∧ Z.of_nat (length (results c2)) = maxPages opts_one_page
    ∧ queue c2 = []
    ∧ queue (addLinksToQueue [link_to page_a; link_to page_b] 1 home c2)
      = [mkItem 1 home page_a; mkItem 1 home page_b]
    ∧ maxDepth opts_one_page < 1.
Proof.
  eexists. split; [reflexivity|].
  split_and!; [reflexivity | reflexivity | reflexivity | cbn; lia].
Qed.

Lemma C8_witness :
  visits_precede_gets
    (trace (iteration opts_robots site_tree (start opts_robots site_tree)))
  ∧ visited (iteration opts_robots site_tree (start opts_robots site_tree))
    = {[home]} ∪ visited (start opts_robots site_tree)
  ∧ visited (iteration opts_robots site_disallowed
               (start opts_robots site_disallowed))
    = visited (start opts_robots site_disallowed).
Proof.
  split_and!.
  - destruct (C8_visited_is_marked_before_the_fetch
                opts_robots site_tree home
                (iteration opts_robots site_tree
                   (start opts_robots site_tree)))
      as (Hvpg & _).
    + apply rtc_once. split; reflexivity.
    + exact Hvpg.
  - destruct (C8_visited_is_marked_before_the_fetch
                opts_robots site_tree home (start opts_robots site_tree))
      as (_ & _ & Hitem).
    + apply rtc_refl.
    + destruct (Hitem seed [] eq_refl) as [Hmark _].
      apply Hmark. split; [cbn; lia | right; exact I].
  - destruct (C8_visited_is_marked_before_the_fetch
                opts_robots site_disallowed home
                (start opts_robots site_disallowed))
      as (_ & _ & Hitem).
    + apply rtc_refl.
    + destruct (Hitem seed [] eq_refl) as [_ Hkeep].
      apply Hkeep. right. intros [Hi | Hok]; [discriminate Hi|].
      cbn in Hok. discriminate Hok.
Defined.

(** A seed that robots.txt disallows is dequeued and checked against
    robots.txt, and is never put in the visited set. *)
Lemma C8_counterexample :
  ∃ out c,
    crawl opts_robots site_disallowed 5 home new_WebCrawler = Some (out, c)
    ∧ trace c = [EvLoadRobots; EvEnqueue seed; EvDequeue seed;
                 EvRobotsCheck home]
    ∧ (home ∉ visited c)
    ∧ map skip_url (out_skippedUrls out) = [home].
Proof.
  eexists _, _. split; [vm_compute; reflexivity|].
  split_and!; [reflexivity | | reflexivity].
  apply not_elem_of_empty.
Qed.

Lemma C9_witness :
  ∃ fuel out c,
    crawl opts_default site_tree fuel home new_WebCrawler = Some (out, c)
    ∧ map page_url (pages out) = [home; page_a; page_b; page_c].
Proof.
  destruct (C9_fifo_breadth_first opts_default site_tree home)
    as [_ Hscenario].
  apply (Hscenario page_a page_b page_c).
  - apply NoDup_ListNoDup. vm_compute.
    repeat (constructor; [intros H; cbn in H; intuition discriminate|]).
    constructor.
  - cbn. lia.
  - cbn. lia.
  - intros u _. right. left. reflexivity.
  - intros n. eexists _, _. split; reflexivity.
  - intros n. eexists _, _. split; reflexivity.
  - intros n. eexists _, _. split; reflexivity.
  - intros n. eexists _, _. split; reflexivity.
Defined.

Lemma C10_witness :
  ∃ out c,
    crawl opts_default (site_status 500) 5 home new_WebCrawler
    = Some (out, c)
    ∧ pages out = []
    ∧ averageLinksPerPage (statistics out) = JsNaN
    ∧ JSON_stringify_number (averageLinksPerPage (statistics out)) = JNull.
Proof.
  destruct (crawl opts_default (site_status 500) 5 home new_WebCrawler)
    as [[out c] |] eqn:Hrun; [| vm_compute in Hrun; discriminate].
  exists out, c. split; [reflexivity|].
  assert (Hp : pages out = []).
  { vm_compute in Hrun. by injection Hrun as <- _. }
  destruct (C10_average_is_NaN_without_pages
              opts_default (site_status 500) home) as [_ Hnan].
  destruct (Hnan 5%nat out c Hrun Hp) as (_ & Havg & _ & Hjson).
  by split_and!.
Defined.

(** * Further properties of the orchestrator *)

Section Limits.

Context (o : Options) (w : World).

(** X1.  The report never has more pages than [maxPages] allows, and none
    when [maxPages] is zero or negative. *)
Theorem pages_never_exceed_maxPages startUrl :
  (∀ c, reachable o w startUrl c →
        Z.of_nat (length (results c)) ≤ Z.max 0 (maxPages o))
  ∧ (∀ fuel out c,
       crawl o w fuel startUrl new_WebCrawler = Some (out, c) →
       totalPages out ≤ Z.max 0 (maxPages o)
       ∧ Z.of_nat (length (pages out)) ≤ Z.max 0 (maxPages o)).
Proof.
  assert (Hinv : ∀ c, reachable o w startUrl c →
                      Z.of_nat (length (results c)) ≤ Z.max 0 (maxPages o)).
  { intros c Hreach. pattern c. revert c Hreach. apply reachable_ind'.
    - destruct (crawl_init_fields o w startUrl) as (_ & _ & -> & _).
      cbn. lia.
    - intros c it rest c' _ IH Hq Hlt Hout.
      destruct (Outcome_progress o c it rest c' Hq Hout) as [-> | [-> _]];
        lia. }
  split; [exact Hinv|].
  intros fuel out c (Hreach & -> & _)%crawl_reachable. cbn.
  split; by apply Hinv.
Qed.

(** X2.  Every session ends, and it ends because the queue is empty or
    because the number of pages has reached [maxPages]. *)
Theorem session_ends_on_empty_queue_or_page_cap startUrl :
  (∃ fuel out c,
     crawl o w fuel startUrl new_WebCrawler = Some (out, c))
  ∧ (∀ fuel out c,
       crawl o w fuel startUrl new_WebCrawler = Some (out, c) →
       queue c = [] ∨ maxPages o ≤ Z.of_nat (length (results c))).
Proof.
  split.
  - destruct (processQueue_terminates o w
                (crawl_init o w startUrl new_WebCrawler))
      as (fuel & c & H).
    exists fuel, (saveResults c), c. unfold crawl. by rewrite H.
  - intros fuel out c (_ & _ & Hg)%crawl_reachable.
    unfold loop_guard in Hg. apply andb_false_iff in Hg as [Hq | Hr].
    + left. apply Z.ltb_ge in Hq.
      destruct (queue c); [done | cbn [length] in Hq; lia].
    + right. lia.
Qed.

(** X3.  When at least one page is allowed and [maxDepth] is not negative,
    the seed always gets an outcome: the report has a page record, a
    skip record or a failure record for the start URL. *)
Theorem seed_always_gets_an_outcome startUrl fuel out c :
  1 ≤ maxPages o →
  0 ≤ maxDepth o →
  crawl o w fuel startUrl new_WebCrawler = Some (out, c) →
  startUrl ∈ map page_url (pages out)
             ++ map skip_url (out_skippedUrls out)
             ++ map fail_url (out_failedUrls out).
Proof.
  intros Hp Hd Hrun. unfold crawl in Hrun.
  destruct (processQueue _ _ _ _) as [c' |] eqn:Hpq; simplify_eq.
  cbn. fold (recorded c).
  destruct (crawl_init_fields o w startUrl)
    as (Hq & Hv & Hr & _ & _ & _ & _ & _).
  set (c0 := crawl_init o w startUrl new_WebCrawler) in *.
  assert (Hg : loop_guard o c0 = true).
  { unfold loop_guard. rewrite Hq, Hr. cbn. apply Z.ltb_lt. lia. }
  destruct fuel as [| fuel]; cbn in Hpq; rewrite Hg in Hpq; [done|].
  apply processQueue_rtc in Hpq as [Hsteps _].
  apply (steps_recorded_mono o w (iteration o w c0) c _ Hsteps).
  destruct (iteration_outcome o w c0 _ _ Hq)
    as [[Hin | Hdeep] _ | isAllowed _ _ _ _ _ ->
        | added tail _ _ _ _ _ _ _ _ _ Hterm]; cbn in *.
  - rewrite Hv in Hin. set_solver.
  - lia.
  - unfold recorded. cbn. rewrite map_app. set_solver.
  - unfold recorded.
    destruct Hterm as [links -> _ _ _ | r _ _ Hu _ -> _ _ | m _ _ -> _];
      rewrite ?map_app; cbn; rewrite ?Hu; set_solver.
Qed.


(** X21.  In every state of a session the URLs that carry a page record,
    a skip record or a failure record are pairwise distinct across the
    three lists; a URL that carries a record keeps it, is not in the
    queue in any later state, and gets no second record.  In particular
    the three lists of the report share no URL.  URLs are compared as
    the strings the records hold: the start URL as it was given, a link
    as [extractLinks] normalized it. *)
Theorem recorded_urls_never_repeat startUrl :
  (∀ c c',
     reachable o w startUrl c →
     rtc (loop_step o w) c c' →
     NoDup (recorded c')
     ∧ ∀ u, u ∈ recorded c → u ∈ recorded c' ∧ u ∉ queue_urls c')
  ∧ (∀ fuel out c,
       crawl o w fuel startUrl new_WebCrawler = Some (out, c) →
       NoDup (map page_url (pages out)
              ++ map skip_url (out_skippedUrls out)
              ++ map fail_url (out_failedUrls out))).
Proof.
  split.
  - intros c c' Hreach Hsteps.
    assert (Hreach' : reachable o w startUrl c').
    { unfold reachable in *. by etrans. }
    pose proof (reachable_Inv o w startUrl c' Hreach') as HI.
    split; [apply HI|].
    intros u Hu.
    pose proof (steps_recorded_mono o w c c' u Hsteps Hu) as Hu'.
    split; [done|].
    intros Hin. by apply (Inv_not_recorded c' u HI Hin).
  - intros fuel out c (Hreach & -> & _)%crawl_reachable.
    apply (reachable_Inv o w startUrl c Hreach).
Qed.

End Limits.

Section CrawlTree.

Context (o : Options) (w : World).

Lemma snoc_eq_middle {A} (l : list A) x pre p post :
  l ++ [x] = pre ++ p :: post →
  (post = [] ∧ pre = l ∧ p = x)
  ∨ ∃ post', post = post' ++ [x] ∧ l = pre ++ p :: post'.
Proof.
  destruct post as [| y post _] using rev_ind.
  - intros [-> ->]%app_inj_tail. by left.
  - rewrite app_comm_cons, app_assoc.
    intros [-> ->]%app_inj_tail. right. by exists post.
Qed.

Lemma item_placed_mono startUrl rs p it :
  item_placed startUrl rs it → item_placed startUrl (rs ++ [p]) it.
Proof.
  intros [H | (q & Hq & H)]; [by left|].
  right. exists q. split; [set_solver | done].
Qed.

Lemma tree_shaped_step startUrl c it rest c' :
  tree_shaped o startUrl c →
  queue c = it :: rest →
  Outcome o c it rest c' →
  tree_shaped o startUrl c'.
Proof.
  intros [Hpages Hitems] Hq Hout.
  assert (Hrest : ∀ it', it' ∈ rest →
            0 ≤ item_depth it' ∧ item_placed startUrl (results c) it').
  { intros it' Hin. apply Hitems. rewrite Hq. by right. }
  destruct (Hitems it) as [Hd0 Hplaced]; [rewrite Hq; left|].
  destruct Hout as [_ -> | isAllowed _ _ _ _ _ ->
                    | added tail _ Hd _ _ Hq' _ _ _ _ Hterm].
  - by split.
  - by split.
  - destruct Hterm as [links Hr _ _ -> | r _ _ _ Hr _ _ ->
                       | m Hr _ _ ->].
    + split.
      * rewrite Hr. intros pre p post [(-> & -> & ->) | (post' & -> & Heq)]
          %snoc_eq_middle.
        -- cbn. split; [lia|].
           destruct Hplaced as [H | (q & ? & ? & ?)]; [by left|].
           right. by exists q.
        -- by eapply Hpages.
      * rewrite Hq', Hr. intros it' [Hin | Hin]%elem_of_app.
        -- destruct (Hrest it' Hin) as [? ?].
           split; [done | by apply item_placed_mono].
        -- apply list_elem_of_fmap in Hin as (u & -> & _). cbn.
           split; [lia|]. right.
           exists {| page_url := item_url it; page_depth := item_depth it;
                     page_parent := item_parent it; page_links := links |}.
           split; [set_solver | done].
    + split; rewrite Hr; [done|]. rewrite Hq', app_nil_r. exact Hrest.
    + split; rewrite Hr; [done|]. rewrite Hq', app_nil_r. exact Hrest.
Qed.

(** X5.  The pages of a session form a tree within the depth limit: every
    page has a depth between 0 and [maxDepth]; it is the seed, at depth
    0 and without parent, or its parent is a page recorded before it,
    exactly one level up.  The same holds for the work items that wait
    in the queue, except that they may be one level deeper than
    [maxDepth]. *)
Theorem pages_form_a_tree_within_maxDepth startUrl :
  (∀ c, reachable o w startUrl c → tree_shaped o startUrl c)
  ∧ (∀ fuel out c,
       crawl o w fuel startUrl new_WebCrawler = Some (out, c) →
       ∀ pre p post,
         pages out = pre ++ p :: post →
         0 ≤ page_depth p ≤ maxDepth o ∧ page_placed startUrl pre p).
Proof.
  assert (Hinv : ∀ c, reachable o w startUrl c → tree_shaped o startUrl c).
  { intros c Hreach. pattern c. revert c Hreach. apply reachable_ind'.
    - destruct (crawl_init_fields o w startUrl) as (Hq & _ & Hr & _).
      split.
      + rewrite Hr. intros pre p post Heq. by destruct pre.
      + rewrite Hq. intros it ->%list_elem_of_singleton. cbn.
        split; [lia | by left].
    - intros c it rest c' _ IH Hq _ Hout. by eapply tree_shaped_step. }
  split; [exact Hinv|].
  intros fuel out c (Hreach & -> & _)%crawl_reachable. cbn.
  apply (Hinv c Hreach).
Qed.

End CrawlTree.

Section RequestBudget.

Context (o : Options) (w : World).

Lemma retry_events_succ url first (k : nat) :
  retry_events url first (Z.of_nat (S k))
  = EvSleep (baseDelay * first) :: EvGet url
    :: retry_events url (first + 1) (Z.of_nat k).
Proof.
  unfold retry_events.
  replace (Z.of_nat (S k)) with (Z.succ (Z.of_nat k)) by lia.
  rewrite (seqZ_cons first) by lia.
  replace (Z.pred (Z.succ (Z.of_nat k))) with (Z.of_nat k) by lia.
  by replace (Z.succ first) with (first + 1) by lia.
Qed.

(** The shape of every run of [makeRequest], whatever the network
    answers. *)
Lemma makeRequest_rec_shape url (fuel : nat) :
  ∀ retryCount c res c',
    makeRequest_rec o w fuel url retryCount c = (res, c') →
    ∃ k : nat,
      (k ≤ fuel)%nat
      ∧ requests c' = (requests c + S k)%nat
      ∧ trace c' = trace c ++ (EvGet url
                     :: retry_events url (retryCount + 1) (Z.of_nat k))
      ∧ res = axios_settle o w (net w (requests c + k)%nat url)
      ∧ (∀ j, (j < k)%nat →
              ∃ error,
                axios_settle o w (net w (requests c + j)%nat url)
                = inl error
                ∧ retried o error)
      ∧ match res with
        | inl error =>
            k = fuel ∨ retries o ≤ retryCount + Z.of_nat k
            ∨ ¬ retried o error
        | inr _ => True
        end.
Proof.
  induction fuel as [| fuel IH]; intros retryCount c res c' H;
    cbn [makeRequest_rec] in H; unfold axios_get in H;
    destruct (axios_settle o w (net w (requests c) url))
      as [error | response] eqn:Hset.
  - exists O. replace (requests c + 0)%nat with (requests c) by lia.
    assert (res = inl error ∧ c' = tick (log (EvGet url) c)) as [-> ->].
    { repeat case_match; by simplify_eq. }
    split_and!;
      first [done | lia | (cbn; lia) | (intros j ?; lia) | by left].
  - exists O. replace (requests c + 0)%nat with (requests c) by lia.
    simplify_eq.
    split_and!; first [done | lia | (cbn; lia) | (intros j ?; lia)].
  - assert (Hcases :
      (res = inl error ∧ c' = tick (log (EvGet url) c)
       ∧ (retries o ≤ retryCount ∨ ¬ retried o error))
      ∨ (retried o error
         ∧ makeRequest_rec o w fuel url (retryCount + 1)
             (sleep (baseDelay * (retryCount + 1))
                (tick (log (EvGet url) c))) = (res, c'))).
    { destruct (ignoreRestrictions o) eqn:Hi.
      - destruct (Z.ltb_spec retryCount (retries o)).
        + right. split; [by left | done].
        + left. simplify_eq. split_and!; try done. by left.
      - destruct (status_in (err_status error) (noRetryStatuses o)) eqn:Hs.
        + left. simplify_eq. split_and!; try done. right.
          intros [? | ?]; congruence.
        + destruct (Z.ltb_spec retryCount (retries o)).
          * right. split; [by right | done].
          * left. simplify_eq. split_and!; try done. by left. }
    destruct Hcases as [(-> & -> & Hstop) | [Hretried Hrec]].
    + exists O. replace (requests c + 0)%nat with (requests c) by lia.
      split_and!;
        first [done | lia | (cbn; lia) | (intros j ?; lia) | idtac].
      destruct Hstop as [? | ?]; [right; left; lia | by right; right].
    + apply IH in Hrec as (k & Hk & Hrq & Htr & Hres & Hprev & Hend).
      cbn in Hrq, Htr, Hres, Hprev.
      exists (S k). split_and!.
      * lia.
      * rewrite Hrq. lia.
      * rewrite Htr, retry_events_succ. by rewrite <- !app_assoc.
      * rewrite Hres. f_equal. f_equal. lia.
      * intros [| j] Hj.
        -- replace (requests c + 0)%nat with (requests c) by lia. eauto.
        -- destruct (Hprev j) as (e & He & Hre); [lia|].
           exists e. split; [|done]. rewrite <- He. do 2 f_equal. lia.
      * destruct res as [e |]; [|done].
        destruct Hend as [-> | [? | ?]]; [by left | right; left; lia
                                         | by right; right].
  - exists O. replace (requests c + 0)%nat with (requests c) by lia.
    simplify_eq.
    split_and!; first [done | lia | (cbn; lia) | (intros j ?; lia)].
Qed.

(** X6.  [makeRequest] never issues more than [retries + 1] requests: from
    attempt number [retryCount] it issues [k + 1] requests with
    [k <= retries - retryCount], sleeping [baseDelay * n] before the
    n-th retry and not otherwise; the first [k] attempts raised errors
    that the policy retries, the result is how the last attempt
    settled, and an error is thrown on only when the budget is used up
    or the error is one that is not retried.  The crawler's lists are
    untouched. *)
Theorem makeRequest_attempts_are_bounded url retryCount c res c' :
  makeRequest o w url retryCount c = (res, c') →
  ∃ k : nat,
    Z.of_nat k ≤ Z.max 0 (retries o - retryCount)
    ∧ requests c' = (requests c + S k)%nat
    ∧ trace c' = trace c ++ (EvGet url
                   :: retry_events url (retryCount + 1) (Z.of_nat k))
    ∧ res = axios_settle o w (net w (requests c + k)%nat url)
    ∧ (∀ j, (j < k)%nat →
            ∃ error,
              axios_settle o w (net w (requests c + j)%nat url) = inl error
              ∧ retried o error)
    ∧ match res with
      | inl error =>
          retries o ≤ retryCount + Z.of_nat k ∨ ¬ retried o error
      | inr _ => True
      end
    ∧ same_store c c'.
Proof.
  intros H.
  destruct (makeRequest_frame o w url retryCount c res c' H) as [Hst _].
  apply makeRequest_rec_shape in H
    as (k & Hk & Hrq & Htr & Hres & Hprev & Hend).
  exists k. split_and!; try done; [lia|].
  destruct res as [error |]; [|done].
  destruct Hend as [-> | [? | ?]]; [left; lia | by left | by right].
Qed.

End RequestBudget.

Section SessionBudget.

Context (o : Options) (w : World).

Lemma gets_app tr1 tr2 : gets (tr1 ++ tr2) = gets tr1 ++ gets tr2.
Proof. apply omap_app. Qed.

Lemma marks_app tr1 tr2 : marks (tr1 ++ tr2) = marks tr1 ++ marks tr2.
Proof. apply omap_app. Qed.

Lemma gets_retry_events url (k : nat) :
  ∀ first, gets (retry_events url first (Z.of_nat k)) = replicate k url.
Proof.
  induction k as [| k IH]; intros first; [done|].
  rewrite retry_events_succ. cbn. f_equal. apply IH.
Qed.

Lemma marks_retry_events url (k : nat) :
  ∀ first, marks (retry_events url first (Z.of_nat k)) = [].
Proof.
  induction k as [| k IH]; intros first; [done|].
  rewrite retry_events_succ. cbn. apply IH.
Qed.

Lemma quiet_map_EvEnqueue its :
  gets (map EvEnqueue its) = [] ∧ marks (map EvEnqueue its) = [].
Proof. induction its as [| it its [IH1 IH2]]; by cbn. Qed.

Lemma quiet_delay_events :
  gets (delay_events o) = [] ∧ marks (delay_events o) = [].
Proof. unfold delay_events. by destruct (0 <? delay o). Qed.

Lemma quiet_robots_events c url :
  gets (robots_events o c url) = [] ∧ marks (robots_events o c url) = [].
Proof.
  unfold robots_events.
  destruct (ignoreRestrictions o); [done|]. by destruct (robots c).
Qed.

(** The requests and the visited marks of an iteration that reaches
    [crawlPage]. *)
Lemma iteration_crawled_gets c it rest :
  queue c = it :: rest →
  item_url it ∉ visited c →
  item_depth it ≤ maxDepth o →
  robots_pass o c (item_url it) →
  ∃ k : nat,
    Z.of_nat k ≤ Z.max 0 (retries o)
    ∧ gets (trace (iteration o w c))
      = gets (trace c) ++ replicate (S k) (item_url it)
    ∧ marks (trace (iteration o w c)) = marks (trace c) ++ [item_url it].
Proof.
  intros Hq Hv Hd Hr.
  destruct (iteration_crawl o w c it rest Hq Hv Hd Hr) as (c0 & Hc0 & ->).
  apply robots_blocked_frame in Hc0 as (_ & _ & Htr0).
  unfold shifted in Htr0. cbn in Htr0.
  destruct (quiet_robots_events c (item_url it)) as [Hrg Hrm].
  destruct quiet_delay_events as [Hdg Hdm].
  unfold crawlPage.
  destruct (makeRequest _ _ _ _ _) as [res c1] eqn:Hm.
  apply makeRequest_rec_shape in Hm as (k & Hk & _ & Htr1 & _).
  cbn in Htr1.
  assert (Hg1 : gets (trace c1)
                = gets (trace c) ++ replicate (S k) (item_url it)).
  { rewrite Htr1, Htr0, !gets_app. fold (robots_events o c (item_url it)).
    cbn. rewrite gets_retry_events.
    change (robots_events o (log (EvDequeue it) (set_queue rest c))
              (item_url it)) with (robots_events o c (item_url it)).
    by rewrite Hrg, !app_nil_r. }
  assert (Hm1 : marks (trace c1) = marks (trace c) ++ [item_url it]).
  { rewrite Htr1, Htr0, !marks_app. cbn. rewrite marks_retry_events.
    change (robots_events o (log (EvDequeue it) (set_queue rest c))
              (item_url it)) with (robots_events o c (item_url it)).
    by rewrite Hrm, !app_nil_r. }
  exists k. split; [lia|].
  destruct res as [error | [status [links | message]]]; cbn [resp_data];
    [| | remember {| err_status := None; err_message := message |}
           as error eqn:Herror; clear Herror].
  2: { cbn [page_links].
       rewrite request_delay_trace, gets_app, marks_app, Hdg, Hdm,
         !app_nil_r.
       match goal with
       | |- context [addLinksToQueue ?l ?d ?p ?c] =>
           destruct (addLinksToQueue_spec l d p c) as (_ & -> & _)
       end.
       rewrite gets_app, marks_app.
       match goal with
       | |- context [map EvEnqueue ?l] =>
           destruct (quiet_map_EvEnqueue l) as [-> ->]
       end.
       cbn [trace set_results]. by rewrite Hg1, Hm1, !app_nil_r. }
  all: assert (Hcases :
      ∃ b c2,
        (if ignoreRestrictions o then (false, c1)
         else handleCrawlError o error (item_url it) (item_parent it) c1)
        = (b, c2)
        ∧ ((b = false ∧ c2 = c1)
           ∨ (b = true ∧ ∃ r, c2 = push_skipped r c1)))
    by (destruct (ignoreRestrictions o) eqn:Hi;
        [ exists false, c1; split; [done | by left]
        | destruct (handleCrawlError _ _ _ _ _) as [b c2] eqn:Hh;
          exists b, c2; split; [done|];
          apply handleCrawlError_cases in Hh
            as [? | (? & _ & _ & r & _ & ?)]; [by left|];
          right; split; [done | by exists r] ]).
  all: destruct Hcases as (b & c2 & -> & [[-> ->] | (-> & r & ->)]);
    rewrite request_delay_trace, gets_app, marks_app, Hdg, Hdm,
      !app_nil_r;
    cbn [trace push_failed push_skipped set_failedUrls set_skippedUrls];
    by rewrite Hg1, Hm1.
Qed.

(** Induction over the states of a session that keeps the iteration in
    sight. *)
Lemma reachable_iteration_ind (P : Crawler → Prop) startUrl :
  P (crawl_init o w startUrl new_WebCrawler) →
  (∀ c it rest,
     reachable o w startUrl c → P c →
     queue c = it :: rest →
     P (iteration o w c)) →
  ∀ c, reachable o w startUrl c → P c.
Proof.
  intros Hinit Hstep. unfold reachable.
  apply (rtc_ind_r (fun c => P c)); [done|].
  intros c c' Hrtc [Hg ->] IH.
  destruct (loop_guard_cons o c Hg) as (it & rest & Hq & _).
  by eapply Hstep.
Qed.

Lemma requests_for_app url tr1 tr2 :
  requests_for url (tr1 ++ tr2)
  = (requests_for url tr1 + requests_for url tr2)%nat.
Proof.
  unfold requests_for. by rewrite gets_app, filter_app, length_app.
Qed.

Lemma filter_replicate_eq (url : string) n :
  length (filter (fun u => u = url) (replicate n url)) = n.
Proof.
  induction n as [| n IH]; [done|]. cbn [replicate].
  rewrite filter_cons_True by done. cbn [length]. by rewrite IH.
Qed.

Lemma filter_replicate_ne (url u : string) n :
  u ≠ url →
  length (filter (fun v => v = url) (replicate n u)) = O.
Proof.
  intros Hne. induction n as [| n IH]; [done|]. cbn [replicate].
  by rewrite filter_cons_False.
Qed.

Lemma reachable_request_budget startUrl c :
  reachable o w startUrl c →
  NoDup (marks (trace c))
  ∧ (∀ u, u ∈ marks (trace c) ↔ u ∈ visited c)
  ∧ (∀ u, u ∉ visited c → requests_for u (trace c) = O)
  ∧ (∀ u, Z.of_nat (requests_for u (trace c))
          ≤ 1 + Z.max 0 (retries o)).
Proof.
  intros Hreach.
  cut (NoDup (marks (trace c))
       ∧ (∀ u, u ∈ marks (trace c) ↔ u ∈ visited c)
       ∧ (∀ u, Z.of_nat (length (filter (fun v => v = u) (gets (trace c))))
               ≤ if bool_decide (u ∈ visited c)
                 then 1 + Z.max 0 (retries o) else 0)).
  { intros (Hnd & Hm & Hb). split_and!; [done..| |].
    - intros u Hu. specialize (Hb u).
      rewrite bool_decide_eq_false_2 in Hb by done.
      unfold requests_for. lia.
    - intros u. specialize (Hb u). unfold requests_for.
      case_bool_decide; lia. }
  pattern c. revert c Hreach. apply reachable_iteration_ind.
  - destruct (crawl_init_fields o w startUrl)
      as (_ & Hv & _ & _ & _ & _ & _ & Htr).
    rewrite Hv, Htr.
    assert (Hg : gets ((if respectRobots o && negb (ignoreRestrictions o)
                        then [EvLoadRobots] else [])
                       ++ [EvEnqueue {| item_url := startUrl;
                                        item_depth := 0;
                                        item_parent := None |}]) = []
                 ∧ marks ((if respectRobots o
                              && negb (ignoreRestrictions o)
                           then [EvLoadRobots] else [])
                          ++ [EvEnqueue {| item_url := startUrl;
                                           item_depth := 0;
                                           item_parent := None |}]) = []).
    { by destruct (respectRobots o && negb (ignoreRestrictions o)). }
    destruct Hg as [-> ->]. split_and!.
    + constructor.
    + intros u. set_solver.
    + intros u. rewrite bool_decide_eq_false_2 by set_solver. cbn. lia.
  - intros c it rest Hreach (Hnd & Hm & Hb) Hq.
    destruct (iteration_outcome o w c it rest Hq)
      as [_ -> | isAllowed _ _ _ _ _ ->
          | added tail Hv Hd Hr Hv' _ _ _ _ _ _].
    + cbn. rewrite gets_app, marks_app. cbn. by rewrite !app_nil_r.
    + cbn. rewrite !gets_app, !marks_app. cbn. by rewrite !app_nil_r.
    + destruct (iteration_crawled_gets c it rest Hq Hv Hd Hr)
        as (k & Hk & -> & ->).
      rewrite Hv'. split_and!.
      * apply NoDup_app. split_and!; [done | | apply NoDup_singleton].
        intros u Hu ->%list_elem_of_singleton. by apply Hv, Hm.
      * intros u. rewrite elem_of_app, list_elem_of_singleton, Hm.
        set_solver.
      * intros u. rewrite filter_app, length_app.
        specialize (Hb u).
        destruct (decide (u = item_url it)) as [-> | Hne].
        -- rewrite filter_replicate_eq.
           rewrite bool_decide_eq_false_2 in Hb by done.
           rewrite bool_decide_eq_true_2 by set_solver. lia.
        -- rewrite filter_replicate_ne by done.
           assert (bool_decide (u ∈ {[item_url it]} ∪ visited c)
                   = bool_decide (u ∈ visited c)) as ->.
           { apply bool_decide_ext. set_solver. }
           lia.
Qed.


(** X7.  Within a session no URL is handed to [crawlPage] twice, a URL that
    was not handed to it was never requested, and no URL is requested
    more than [retries + 1] times. *)
Theorem url_is_requested_at_most_budget_times startUrl c :
  reachable o w startUrl c →
  NoDup (marks (trace c))
  ∧ (∀ u, u ∈ marks (trace c) ↔ u ∈ visited c)
  ∧ (∀ u, u ∉ visited c → requests_for u (trace c) = O)
  ∧ (∀ u, Z.of_nat (requests_for u (trace c))
          ≤ 1 + Z.max 0 (retries o)).
Proof. apply reachable_request_budget. Qed.

End SessionBudget.

Section Robots.

Context (o : Options) (w : World).

Lemma reachable_robots startUrl c :
  reachable o w startUrl c → robots c = session_robots o w.
Proof.
  intros Hreach. pattern c. revert c Hreach. apply reachable_ind'.
  - by destruct (crawl_init_fields o w startUrl)
      as (_ & _ & _ & _ & _ & _ & -> & _).
  - intros c it rest c' _ IH Hq _
      [_ -> | isAllowed _ _ _ _ _ -> | added tail _ _ _ _ _ Hb _ _ _ _];
      [done | done | congruence].
Qed.

(** X8.  When robots.txt is in force ([respectRobots] on, [ignoreRestrictions]
    off, the file loaded), a URL that it disallows is never handed to
    [crawlPage] and never requested, and it gets no page and no failure
    record; when such a URL is dequeued within the depth limit, the
    iteration only writes the skip record "robots.txt blocked", with a
    null status code, and neither fetches nor sleeps. *)
Theorem disallowed_url_is_never_requested startUrl c isAllowed :
  reachable o w startUrl c →
  ignoreRestrictions o = false →
  session_robots o w = Some isAllowed →
  (∀ u, isAllowed u = false →
        (u ∉ visited c) ∧ requests_for u (trace c) = O
        ∧ (u ∉ map page_url (results c))
        ∧ (u ∉ map fail_url (failedUrls c)))
  ∧ (∀ it rest,
       queue c = it :: rest →
       isAllowed (item_url it) = false →
       item_depth it ≤ maxDepth o →
       iteration o w c
       = push_skipped {| skip_url := item_url it;
                         skip_reason := Some "robots.txt blocked";
                         skip_parent := item_parent it;
                         skip_statusCode := None |}
           (log (EvRobotsCheck (item_url it)) (shifted it rest c))).
Proof.
  intros Hreach Hi Hrob.
  assert (Hnv : ∀ u, isAllowed u = false → u ∉ visited c).
  { pattern c. revert c Hreach. apply reachable_ind'.
    - destruct (crawl_init_fields o w startUrl) as (_ & -> & _).
      intros u _. set_solver.
    - intros c it rest c' Hreach IH Hq _ Hout u Hu.
      pose proof (reachable_robots startUrl c Hreach) as Hrc.
      destruct Hout as [_ -> | isAllowed' _ _ _ _ _ ->
                        | added tail _ _ Hpass Hv' _ _ _ _ _ _].
      + by apply IH.
      + by apply IH.
      + rewrite Hv'. destruct Hpass as [? | Hok]; [congruence|].
        rewrite Hrc, Hrob in Hok.
        specialize (IH u Hu).
        assert (u ≠ item_url it) by congruence. set_solver. }
  pose proof (reachable_Inv o w startUrl c Hreach) as HI.
  destruct (reachable_request_budget o w startUrl c Hreach)
    as (_ & _ & Hzero & _).
  split.
  - intros u Hu. specialize (Hnv u Hu). split_and!; [done | by apply Hzero | |].
    + intros Hin. apply Hnv, (inv_visited c HI), elem_of_app. by left.
    + intros Hin. apply Hnv, (inv_visited c HI), elem_of_app. by right.
  - intros it rest Hq Hblocked Hd.
    pose proof (reachable_robots startUrl c Hreach) as Hrc.
    destruct (iteration_outcome o w c it rest Hq)
      as [[Hin | ?] _ | isAllowed' _ _ _ _ _ ->
          | added tail _ _ Hpass _ _ _ _ _ _ _].
    + destruct (Hnv _ Hblocked Hin).
    + lia.
    + done.
    + destruct Hpass as [? | Hok]; [congruence|].
      rewrite Hrc, Hrob in Hok. congruence.
Qed.

End Robots.

Section Classification.

Context (o : Options) (w : World).

(** An iteration whose first attempt is answered with a status of the
    second table of [handleCrawlError], under [skipUnauthorized]. *)
Lemma iteration_skip_code c it rest status :
  ignoreRestrictions o = false →
  skipUnauthorized o = true →
  status ∈ skipCodes →
  queue c = it :: rest →
  item_url it ∉ visited c →
  item_depth it ≤ maxDepth o →
  robots_pass o c (item_url it) →
  reply_status (net w (requests c) (item_url it)) = Some status →
  skippedUrls (iteration o w c)
  = skippedUrls c ++ [{| skip_url := item_url it;
                         skip_reason := skip_reasons !! status;
                         skip_parent := item_parent it;
                         skip_statusCode := Some status |}]
  ∧ results (iteration o w c) = results c
  ∧ failedUrls (iteration o w c) = failedUrls c
  ∧ trace (iteration o w c)
    = trace c ++ [EvDequeue it] ++ robots_events o c (item_url it)
      ++ [EvVisited (item_url it); EvGet (item_url it)]
      ++ delay_events o.
Proof.
  intros Hi Hs Hin Hq Hv Hd Hr Hnet.
  destruct (iteration_crawl o w c it rest Hq Hv Hd Hr) as (c0 & Hc0 & ->).
  apply robots_blocked_frame in Hc0 as (Hst0 & Hrq0 & Htr0).
  unfold same_store, shifted in Hst0, Hrq0, Htr0. cbn in Hst0, Hrq0, Htr0.
  destruct Hst0 as (Hv0 & Hq0 & Hr0 & Hf0 & Hs0 & Hb0 & _).
  assert (Hset : axios_settle o w (net w (requests c) (item_url it))
                 = inl {| err_status := Some status;
                          err_message := reject_message w status |}).
  { destruct (net w (requests c) (item_url it)) as [s l | s m | m];
      cbn in Hnet; simplify_eq; cbn.
    all: rewrite validateStatus_refuses_classified; [done..|].
    all: apply elem_of_app; by right. }
  assert (Hfacts : status_in (Some status) (noRetryStatuses o) = true
                   ∧ status_in (Some status) authRelatedCodes = false
                   ∧ status_in (Some status) skipCodes = true).
  { unfold noRetryStatuses. rewrite Hs. unfold skipCodes in Hin.
    repeat (apply elem_of_cons in Hin as [-> | Hin]); try done.
    by apply elem_of_nil in Hin. }
  destruct Hfacts as (Hno & Hau & Hsk).
  unfold crawlPage.
  erewrite makeRequest_no_retry; [| cbn; rewrite Hrq0; exact Hset | done..].
  rewrite Hi. unfold handleCrawlError. rewrite Hi, Hs. cbn [negb err_status].
  rewrite Hau, Hsk. cbn [mbind option_bind].
  match goal with
  | |- context [request_delay o ?c] =>
      destruct (request_delay_store o c)
        as (Hv2 & Hq2 & Hr2 & Hf2 & Hs2 & Hb2 & _)
  end.
  rewrite Hr2, Hf2, Hs2, request_delay_trace.
  cbn. rewrite Hr0, Hf0, Hs0, Htr0.
  split_and!; try done.
  by rewrite <- !app_assoc.
Qed.

(** X9.  Under [skipUnauthorized] (with [ignoreRestrictions] off) each of the
    eleven classified statuses is skipped at once: one request, no
    retry, and a skip record that carries the status and the reason the
    source gives for it. *)
Theorem classified_status_is_skipped_with_its_reason
    c it rest status reason :
  ignoreRestrictions o = false →
  skipUnauthorized o = true →
  (status, reason)
  ∈ [(401, "Unauthorized - Authentication required");
     (403, "Forbidden - Access denied");
     (407, "Proxy authentication required");
     (429, "Too many requests - Rate limited");
     (451, "Unavailable for legal reasons");
     (404, "Not found");
     (410, "Gone");
     (500, "Internal server error");
     (502, "Bad gateway");
     (503, "Service unavailable");
     (504, "Gateway timeout")] →
  queue c = it :: rest →
  item_url it ∉ visited c →
  item_depth it ≤ maxDepth o →
  robots_pass o c (item_url it) →
  reply_status (net w (requests c) (item_url it)) = Some status →
  skippedUrls (iteration o w c)
  = skippedUrls c ++ [{| skip_url := item_url it;
                         skip_reason := Some reason;
                         skip_parent := item_parent it;
                         skip_statusCode := Some status |}]
  ∧ results (iteration o w c) = results c
  ∧ failedUrls (iteration o w c) = failedUrls c
  ∧ gets (trace (iteration o w c)) = gets (trace c) ++ [item_url it]
  ∧ trace (iteration o w c)
    = trace c ++ [EvDequeue it] ++ robots_events o c (item_url it)
      ++ [EvVisited (item_url it); EvGet (item_url it)]
      ++ delay_events o.
Proof.
  intros Hi Hs Hin Hq Hv Hd Hr Hnet.
  assert (Hcore :
    skippedUrls (iteration o w c)
    = skippedUrls c ++ [{| skip_url := item_url it;
                           skip_reason := Some reason;
                           skip_parent := item_parent it;
                           skip_statusCode := Some status |}]
    ∧ results (iteration o w c) = results c
    ∧ failedUrls (iteration o w c) = failedUrls c
    ∧ trace (iteration o w c)
      = trace c ++ [EvDequeue it] ++ robots_events o c (item_url it)
        ++ [EvVisited (item_url it); EvGet (item_url it)]
        ++ delay_events o).
  { repeat (apply elem_of_cons in Hin as [[= -> ->] | Hin]);
      [.. | by apply elem_of_nil in Hin];
      match type of Hnet with
      | _ = Some ?s =>
          first
            [ destruct (iteration_skip_auth o w c it rest s Hi Hs
                          ltac:(unfold authRelatedCodes; set_solver)
                          Hq Hv Hd Hr Hnet)
                as (? & ? & ? & _ & _ & _ & ?); by split_and!
            | destruct (iteration_skip_code c it rest s Hi Hs
                          ltac:(unfold skipCodes; set_solver)
                          Hq Hv Hd Hr Hnet)
                as (? & ? & ? & ?); by split_and! ]
      end. }
  destruct Hcore as (Hsk & Hres & Hf & Htr).
  split_and!; try done.
  rewrite Htr, !gets_app.
  destruct (quiet_robots_events o c (item_url it)) as [-> _].
  destruct (quiet_delay_events o) as [-> _].
  cbn. by rewrite ?app_nil_r.
Qed.

End Classification.

Section Keywords.

Context (o : Options) (w : World).

(** X10.  Under [skipUnauthorized] (with [ignoreRestrictions] off) a transport
    error, which carries no status, is first retried until the budget is
    used up, with the usual delays.  Only then is its message looked at:
    if, in lower case, it contains one of the authorization keywords the
    URL is recorded as skipped, with the reason "Authorization issue: "
    followed by the message and a null status code; otherwise it is
    recorded as failed. *)
Theorem transport_error_is_retried_then_classified c it rest message :
  ignoreRestrictions o = false →
  skipUnauthorized o = true →
  queue c = it :: rest →
  item_url it ∉ visited c →
  item_depth it ≤ maxDepth o →
  robots_pass o c (item_url it) →
  (∀ n, net w n (item_url it) = TransportError message) →
  trace (iteration o w c)
  = trace c ++ [EvDequeue it] ++ robots_events o c (item_url it)
    ++ [EvVisited (item_url it); EvGet (item_url it)]
    ++ retry_events (item_url it) 1 (retries o) ++ delay_events o
  ∧ results (iteration o w c) = results c
  ∧ (existsb (fun keyword => js_includes (toLowerCase message) keyword)
       authKeywords = true →
     skippedUrls (iteration o w c)
     = skippedUrls c
       ++ [{| skip_url := item_url it;
              skip_reason := Some ("Authorization issue: " +:+ message);
              skip_parent := item_parent it;
              skip_statusCode := None |}]
     ∧ failedUrls (iteration o w c) = failedUrls c)
  ∧ (existsb (fun keyword => js_includes (toLowerCase message) keyword)
       authKeywords = false →
     failedUrls (iteration o w c)
     = failedUrls c ++ [{| fail_url := item_url it;
                           fail_error := message;
                           fail_parent := item_parent it |}]
     ∧ skippedUrls (iteration o w c) = skippedUrls c).
Proof.
  intros Hi Hs Hq Hv Hd Hr Hnet.
  destruct (iteration_crawl o w c it rest Hq Hv Hd Hr) as (c0 & Hc0 & ->).
  apply robots_blocked_frame in Hc0 as (Hst0 & Hrq0 & Htr0).
  unfold same_store, shifted in Hst0, Hrq0, Htr0. cbn in Hst0, Hrq0, Htr0.
  destruct Hst0 as (Hv0 & Hq0 & Hr0 & Hf0 & Hs0 & Hb0 & _).
  unfold crawlPage.
  set (cv := log (EvVisited (item_url it))
               (set_visited ({[item_url it]} ∪ visited c0) c0)).
  destruct (makeRequest_exhaust o w (item_url it) (Z.to_nat (retries o)) 0 cv)
    as (error & c1 & -> & He & Hst1 & _ & Htr1).
  { f_equal. lia. }
  { intros n _. rewrite Hnet. cbn. eexists. split; [done|]. by right. }
  rewrite Hnet in He. cbn in He. simplify_eq.
  destruct Hst1 as (Hv1 & Hq1 & Hr1 & Hf1 & Hs1 & _).
  rewrite retry_events_to_nat in Htr1. subst cv. cbn in Hr1, Hf1, Hs1, Htr1.
  rewrite Hi. unfold handleCrawlError. rewrite Hi, Hs.
  cbn [negb err_status err_message status_in status_or_null].
  destruct (existsb _ authKeywords) eqn:Hkw.
  - match goal with
    | |- context [request_delay o ?c] =>
        destruct (request_delay_store o c)
          as (_ & _ & Hr2 & Hf2 & Hs2 & _)
    end.
    rewrite Hr2, Hf2, Hs2, request_delay_trace. cbn.
    rewrite Hr1, Hf1, Hs1, Htr1, Hr0, Hf0, Hs0, Htr0.
    split_and!; [by rewrite <- !app_assoc | done | | done].
    intros _. by split.
  - match goal with
    | |- context [request_delay o ?c] =>
        destruct (request_delay_store o c)
          as (_ & _ & Hr2 & Hf2 & Hs2 & _)
    end.
    rewrite Hr2, Hf2, Hs2, request_delay_trace. cbn.
    rewrite Hr1, Hf1, Hs1, Htr1, Hr0, Hf0, Hs0, Htr0.
    split_and!; [by rewrite <- !app_assoc | done | done |].
    intros _. by split.
Qed.

(** X11.  In every mode a reply with a status from 200 to 299 is
    accepted and never retried.  When the extractor reads its body, the
    URL is recorded as a page, with the links of the body, after that
    single request.  When [cheerio.load] or the extractor throws on the
    body, no page is recorded: the error has no status, so under
    [skipUnauthorized] (with [ignoreRestrictions] off) a message with an
    authorization keyword gives the skip record "Authorization issue: "
    followed by the message, and in every other case the URL is recorded
    as failed with that message. *)
Theorem success_reply_is_a_page_unless_extraction_throws c it rest status :
  200 ≤ status < 300 →
  queue c = it :: rest →
  item_url it ∉ visited c →
  item_depth it ≤ maxDepth o →
  robots_pass o c (item_url it) →
  (∀ links,
     net w (requests c) (item_url it) = HttpReply status links →
     results (iteration o w c)
     = results c ++ [{| page_url := item_url it;
                        page_depth := item_depth it;
                        page_parent := item_parent it;
                        page_links := links |}]
     ∧ failedUrls (iteration o w c) = failedUrls c
     ∧ skippedUrls (iteration o w c) = skippedUrls c
     ∧ visited (iteration o w c) = {[item_url it]} ∪ visited c
     ∧ gets (trace (iteration o w c)) = gets (trace c) ++ [item_url it])
  ∧ (∀ message,
       net w (requests c) (item_url it) = HttpUnreadable status message →
       results (iteration o w c) = results c
       ∧ queue (iteration o w c) = rest
       ∧ visited (iteration o w c) = {[item_url it]} ∪ visited c
       ∧ gets (trace (iteration o w c)) = gets (trace c) ++ [item_url it]
       ∧ if negb (ignoreRestrictions o) && skipUnauthorized o
            && existsb
                 (fun keyword => js_includes (toLowerCase message) keyword)
                 authKeywords
         then
           skippedUrls (iteration o w c)
           = skippedUrls c
             ++ [{| skip_url := item_url it;
                    skip_reason :=
                      Some ("Authorization issue: " +:+ message);
                    skip_parent := item_parent it;
                    skip_statusCode := None |}]
           ∧ failedUrls (iteration o w c) = failedUrls c
         else
           failedUrls (iteration o w c)
           = failedUrls c ++ [{| fail_url := item_url it;
                                 fail_error := message;
                                 fail_parent := item_parent it |}]
           ∧ skippedUrls (iteration o w c) = skippedUrls c).
Proof.
  intros Hrange Hq Hv Hd Hr.
  assert (Hacc : validateStatus o status = true).
  { unfold validateStatus.
    assert ((200 <=? status) && (status <? 300) = true) as ->
      by (apply andb_true_iff; lia).
    assert ((200 <=? status) && (status <? 600) = true) as ->
      by (apply andb_true_iff; lia).
    by destruct (ignoreRestrictions o). }
  destruct (quiet_robots_events o c (item_url it)) as [Hrob _].
  destruct (quiet_delay_events o) as [Hdel _].
  split.
  - intros links Hnet.
    destruct (iteration_accept o w c it rest status links Hq Hv Hd Hr)
      as (Hres & _ & Hv' & Hf & Hsk & _ & _ & Htr).
    { rewrite Hnet. cbn. by rewrite Hacc. }
    split_and!; try done.
    rewrite Htr, !gets_app, Hrob, Hdel.
    match goal with
    | |- context [map EvEnqueue ?l] =>
        destruct (quiet_map_EvEnqueue l) as [-> _]
    end.
    cbn. by rewrite ?app_nil_r.
  - intros message Hnet.
    destruct (iteration_unreadable o w c it rest status message Hq Hv Hd Hr)
      as (Hres & Hq' & Hv' & _ & Htr & Hrec).
    { rewrite Hnet. cbn. by rewrite Hacc. }
    split_and!; try done.
    rewrite Htr, !gets_app, Hrob, Hdel. cbn. by rewrite ?app_nil_r.
Qed.

End Keywords.

Section Report.

Context (o : Options) (w : World).

Lemma ones_snoc n : ones n +:+ "1" = ones (S n).
Proof.
  induction n as [| n IH]; [done|].
  cbn [ones] in *. by rewrite string_app_cons, IH.
Qed.

Lemma string_app_ones_ne text n : text +:+ ones (S n) ≠ EmptyString.
Proof.
  destruct text as [| a text]; [|by rewrite string_app_cons].
  by rewrite string_app_nil_l.
Qed.

Lemma getSkipReasonStats_snoc sk item :
  getSkipReasonStats (sk ++ [item])
  = stat_set (reason_key item)
      (stat_next (getSkipReasonStats sk) (reason_key item))
      (getSkipReasonStats sk).
Proof. unfold getSkipReasonStats. by rewrite foldl_app. Qed.

Lemma skipped_for_snoc reason sk item :
  skipped_for reason (sk ++ [item])
  = (skipped_for reason sk
     + if bool_decide (reason_key item = reason) then 1 else 0)%nat.
Proof.
  unfold skipped_for. rewrite filter_app, length_app. f_equal.
  case_bool_decide.
  - by rewrite filter_cons_True.
  - by rewrite filter_cons_False.
Qed.

Lemma stat_next_of stats reason n :
  stats !! reason = stat_of reason n →
  reason ≠ "__proto__" →
  Some (stat_next stats reason) = stat_of reason (S n).
Proof.
  intros Hlook Hne. unfold stat_next. rewrite Hlook.
  unfold stat_of. rewrite (bool_decide_eq_false_2 _ Hne).
  destruct n as [| n].
  - destruct (Object_prototype reason) as [text |]; [|done].
    do 2 f_equal.
  - destruct (Object_prototype reason) as [text |].
    + pose proof (string_app_ones_ne text n) as Hnonempty.
      destruct (text +:+ ones (S n)) as [| a s] eqn:Htext; [done|].
      rewrite <- Htext, string_app_assoc, ones_snoc. done.
    + do 2 f_equal.
      assert ((Z.of_nat (S n) =? 0) = false) as ->
        by (apply Z.eqb_neq; lia).
      lia.
Qed.

Lemma getSkipReasonStats_lookup sk reason :
  getSkipReasonStats sk !! reason = stat_of reason (skipped_for reason sk).
Proof.
  induction sk as [| item sk IH] using rev_ind; [done|].
  rewrite getSkipReasonStats_snoc, skipped_for_snoc.
  unfold stat_set.
  destruct (decide (reason_key item = reason)) as [Hkey | Hkey].
  - rewrite (bool_decide_eq_true_2 (reason_key item = reason)) by done.
    rewrite Nat.add_1_r, Hkey.
    destruct (decide (reason = "__proto__")) as [Hproto | Hproto].
    + rewrite (bool_decide_eq_true_2 _ Hproto), IH. unfold stat_of.
      rewrite (bool_decide_eq_true_2 _ Hproto).
      by destruct (skipped_for _ sk).
    + rewrite (bool_decide_eq_false_2 _ Hproto), lookup_insert_eq.
      by apply stat_next_of.
  - rewrite (bool_decide_eq_false_2 (reason_key item = reason)) by done.
    rewrite Nat.add_0_r.
    case_bool_decide; [done|]. by rewrite lookup_insert_ne.
Qed.

(** No reason the crawler writes is empty or the name of a property of
    [Object.prototype]. *)
Lemma crawler_reason_own reason :
  crawler_reason reason →
  reason ≠ EmptyString ∧ Object_prototype reason = None.
Proof.
  intros [-> | [[status H] | [[status H] | [message ->]]]].
  - by split.
  - apply elem_of_list_to_map_2 in H.
    repeat (apply elem_of_cons in H as [[= -> ->] | H]; [by split|]).
    by apply elem_of_nil in H.
  - apply elem_of_list_to_map_2 in H.
    repeat (apply elem_of_cons in H as [[= -> ->] | H]; [by split|]).
    by apply elem_of_nil in H.
  - split; [done|]. unfold Object_prototype.
    rewrite !bool_decide_eq_false_2; [done | | done | done].
    intros H.
    repeat (apply elem_of_cons in H as [H | H]; [discriminate H|]).
    by apply elem_of_nil in H.
Qed.

Lemma handleCrawlError_reason error url parent c b c' :
  handleCrawlError o error url parent c = (b, c') →
  skippedUrls c' = skippedUrls c
  ∨ ∃ r reason,
      skippedUrls c' = skippedUrls c ++ [r]
      ∧ skip_reason r = Some reason ∧ crawler_reason reason.
Proof.
  unfold handleCrawlError. intros H.
  destruct (ignoreRestrictions o); [left; by simplify_eq|].
  destruct (skipUnauthorized o); cbn [negb] in H; [|left; by simplify_eq].
  destruct (status_in (err_status error) authRelatedCodes) eqn:Hauth.
  { injection H as <- <-. right.
    destruct (err_status error) as [status |]; [|done]. cbn in Hauth.
    apply andb_true_iff in Hauth as [_ Hin].
    apply bool_decide_eq_true in Hin. unfold authRelatedCodes in Hin.
    assert (∃ reason, auth_reasons !! status = Some reason)
      as [reason Hreason].
    { repeat (apply elem_of_cons in Hin as [-> | Hin]; [by eexists|]).
      by apply elem_of_nil in Hin. }
    eexists _, reason. split_and!; [reflexivity | exact Hreason |].
    right. left. by exists status. }
  destruct (status_in (err_status error) skipCodes) eqn:Hskip.
  { injection H as <- <-. right.
    destruct (err_status error) as [status |]; [|done]. cbn in Hskip.
    apply andb_true_iff in Hskip as [_ Hin].
    apply bool_decide_eq_true in Hin. unfold skipCodes in Hin.
    assert (∃ reason, skip_reasons !! status = Some reason)
      as [reason Hreason].
    { repeat (apply elem_of_cons in Hin as [-> | Hin]; [by eexists|]).
      by apply elem_of_nil in Hin. }
    eexists _, reason. split_and!; [reflexivity | exact Hreason |].
    right. right. left. by exists status. }
  destruct (existsb _ authKeywords).
  { injection H as <- <-. right.
    eexists _, _. split_and!; [reflexivity | reflexivity |].
    right. right. right. by eexists. }
  injection H as <- <-. by left.
Qed.

(** An iteration adds at most one skip record, with a reason of the
    crawler's own. *)
Lemma iteration_skipped c it rest :
  queue c = it :: rest →
  skippedUrls (iteration o w c) = skippedUrls c
  ∨ ∃ r reason,
      skippedUrls (iteration o w c) = skippedUrls c ++ [r]
      ∧ skip_reason r = Some reason ∧ crawler_reason reason.
Proof.
  intros Hq. unfold iteration. rewrite Hq. unfold processItem.
  case_bool_decide; [by left|].
  destruct (maxDepth o <? item_depth it); [by left|].
  destruct (robots_blocked _ _ _) as [blocked c0] eqn:Hrob.
  apply robots_blocked_frame in Hrob as ((_ & _ & _ & _ & Hs0 & _) & _).
  cbn in Hs0.
  destruct blocked.
  { right. eexists _, _. cbn. rewrite Hs0.
    split_and!; [reflexivity | reflexivity | by left]. }
  destruct (crawlPage _ _ _ _ _ _) as [[error | pageData] c1] eqn:Hcp;
    apply crawlPage_frame in Hcp as ((_ & _ & _ & _ & Hs1 & _) & _).
  - assert (Hcases :
      ∃ b c2,
        (if ignoreRestrictions o then (false, c1)
         else handleCrawlError o error (item_url it) (item_parent it) c1)
        = (b, c2)
        ∧ (skippedUrls c2 = skippedUrls c1
           ∨ ∃ r reason,
               skippedUrls c2 = skippedUrls c1 ++ [r]
               ∧ skip_reason r = Some reason ∧ crawler_reason reason)).
    { destruct (ignoreRestrictions o).
      - exists false, c1. split; [done | by left].
      - destruct (handleCrawlError _ _ _ _ _) as [b c2] eqn:Hh.
        exists b, c2. split; [done|].
        by apply handleCrawlError_reason in Hh. }
    destruct Hcases as (b & c2 & -> & Hcase).
    match goal with
    | |- context [request_delay o ?c] =>
        destruct (request_delay_store o c) as (_ & _ & _ & _ & -> & _)
    end.
    assert (skippedUrls (if b then c2
                         else push_failed
                                {| fail_url := item_url it;
                                   fail_error := err_message error;
                                   fail_parent := item_parent it |} c2)
            = skippedUrls c2) as -> by by destruct b.
    rewrite <- Hs0, <- Hs1. exact Hcase.
  - left.
    match goal with
    | |- context [request_delay o ?c] =>
        destruct (request_delay_store o c) as (_ & _ & _ & _ & -> & _)
    end.
    match goal with
    | |- context [addLinksToQueue ?l ?d ?p ?c] =>
        destruct (addLinksToQueue_spec l d p c)
          as (_ & _ & _ & _ & _ & -> & _)
    end.
    cbn. by rewrite Hs1, Hs0.
Qed.

Lemma reachable_skip_reasons startUrl c :
  reachable o w startUrl c →
  Forall (fun r => ∃ reason, skip_reason r = Some reason
                             ∧ crawler_reason reason) (skippedUrls c).
Proof.
  intros Hreach. pattern c. revert c Hreach.
  apply reachable_iteration_ind.
  - destruct (crawl_init_fields o w startUrl) as (_ & _ & _ & _ & Hs & _).
    rewrite Hs. constructor.
  - intros c it rest _ IH Hq.
    destruct (iteration_skipped c it rest Hq)
      as [-> | (r & reason & -> & Hr & Hown)]; [done|].
    apply Forall_app. split; [done|].
    constructor; [by exists reason | constructor].
Qed.

(** X12.  [getSkipReasonStats] counts the skip records reason by reason,
    a missing or empty reason counting as "unknown": a reason no record
    is filed under is not a key of the result, and a reason that [n]
    records are filed under has the value [n].  The object it counts in
    is a plain [{}], so this fails for the names of the properties of
    [Object.prototype]: such a reason gets the text of the inherited
    value followed by [n] digits 1, and ["__proto__"] never becomes a
    key.  No reason the crawler writes is such a name: in the report of
    a session every value of [skipReasons] is the number of skip records
    with that reason. *)
Theorem skip_reason_stats_count_all_but_inherited_keys :
  (∀ sk reason,
     (skipped_for reason sk = O →
      getSkipReasonStats sk !! reason = None)
     ∧ (skipped_for reason sk ≠ O →
        Object_prototype reason = None →
        getSkipReasonStats sk !! reason
        = Some (StatCount (Z.of_nat (skipped_for reason sk))))
     ∧ (∀ text,
          skipped_for reason sk ≠ O →
          Object_prototype reason = Some text →
          reason ≠ "__proto__" →
          getSkipReasonStats sk !! reason
          = Some (StatText (text +:+ ones (skipped_for reason sk))))
     ∧ getSkipReasonStats sk !! "__proto__" = None)
  ∧ (∀ fuel startUrl out c reason,
       crawl o w fuel startUrl new_WebCrawler = Some (out, c) →
       skipReasons (statistics out) !! reason
       = if decide (skipped_for reason (out_skippedUrls out) = O)
         then None
         else Some (StatCount
                      (Z.of_nat
                         (skipped_for reason (out_skippedUrls out))))).
Proof.
  split.
  - intros sk reason. split_and!.
    + intros Hn. by rewrite getSkipReasonStats_lookup, Hn.
    + intros Hn Hown. rewrite getSkipReasonStats_lookup.
      destruct (skipped_for reason sk) as [| n]; [done|].
      unfold stat_of. rewrite Hown.
      rewrite bool_decide_eq_false_2; [done|]. by intros ->.
    + intros text Hn Hinh Hne. rewrite getSkipReasonStats_lookup.
      destruct (skipped_for reason sk) as [| n]; [done|].
      unfold stat_of. by rewrite Hinh, (bool_decide_eq_false_2 _ Hne).
    + rewrite getSkipReasonStats_lookup. unfold stat_of.
      by destruct (skipped_for _ sk).
  - intros fuel startUrl out c reason (Hreach & -> & _)%crawl_reachable.
    cbn [saveResults statistics skipReasons out_skippedUrls].
    rewrite getSkipReasonStats_lookup.
    pose proof (reachable_skip_reasons startUrl c Hreach) as Hall.
    case_decide as Hn; [by rewrite Hn|].
    destruct (skipped_for reason (skippedUrls c)) as [| n] eqn:Hcount;
      [done|].
    assert (Hin : ∃ r, r ∈ skippedUrls c ∧ reason_key r = reason).
    { unfold skipped_for in Hcount.
      destruct (filter _ (skippedUrls c)) as [| r l] eqn:Hfilter; [done|].
      assert (Hr0 : r ∈ filter (fun item => reason_key item = reason)
                          (skippedUrls c)) by (rewrite Hfilter; left).
      apply list_elem_of_filter in Hr0 as [? ?]. by exists r. }
    destruct Hin as (r & Hin & Hkey).
    rewrite Forall_forall in Hall.
    destruct (Hall r Hin) as (reason' & Hr & Hown).
    apply crawler_reason_own in Hown as [Hne Hown].
    assert (reason' = reason) as ->.
    { unfold reason_key in Hkey. rewrite Hr in Hkey.
      by destruct reason'. }
    unfold stat_of. rewrite Hown.
    rewrite bool_decide_eq_false_2; [done|]. by intros ->.
Qed.

End Report.

(** * Properties of the URL filter, the link extraction and the files *)

Section UrlFilter.

Lemma shouldSkipUrl_spec url :
  shouldSkipUrl url = true ↔
  (∃ ext pre, ext ∈ skipExtensions ∧ toLowerCase url = pre +:+ ext)
  ∨ (∃ pattern pre post,
       pattern ∈ skipPatterns
       ∧ toLowerCase url = pre +:+ pattern +:+ post).
Proof.
  unfold shouldSkipUrl. cbn zeta.
  rewrite orb_true_iff, !existsb_exists. split.
  - intros [(ext & Hin & Hends) | (pattern & Hin & Hinc)].
    + left. apply js_endsWith_spec in Hends as [pre Hpre].
      exists ext, pre. split; [by apply list_elem_of_In | done].
    + right. apply js_includes_spec in Hinc as (pre & post & Hpre).
      exists pattern, pre, post. split; [by apply list_elem_of_In | done].
  - intros [(ext & pre & Hin & Heq) | (pattern & pre & post & Hin & Heq)].
    + left. exists ext. split; [by apply list_elem_of_In|].
      apply js_endsWith_spec. by exists pre.
    + right. exists pattern. split; [by apply list_elem_of_In|].
      apply js_includes_spec. by exists pre, post.
Qed.

(** X14.  The filter does not depend on the case of the letters: a URL that
    ends with an extension of the list written in any case, or that
    contains a pattern of the list written in any case, is skipped,
    whatever surrounds it. *)
Theorem shouldSkipUrl_ignores_case :
  (∀ pre suffix,
     toLowerCase suffix ∈ skipExtensions →
     shouldSkipUrl (pre +:+ suffix) = true)
  ∧ (∀ pre middle post,
       toLowerCase middle ∈ skipPatterns →
       shouldSkipUrl (pre +:+ middle +:+ post) = true)
  ∧ (∀ url1 url2,
       toLowerCase url1 = toLowerCase url2 →
       shouldSkipUrl url1 = shouldSkipUrl url2).
Proof.
  split_and!.
  - intros pre suffix Hin. apply shouldSkipUrl_spec. left.
    exists (toLowerCase suffix), (toLowerCase pre).
    split; [done | apply toLowerCase_app].
  - intros pre middle post Hin. apply shouldSkipUrl_spec. right.
    exists (toLowerCase middle), (toLowerCase pre), (toLowerCase post).
    split; [done | by rewrite !toLowerCase_app].
  - intros url1 url2 Heq. unfold shouldSkipUrl. by rewrite Heq.
Qed.

End UrlFilter.

Section LinkExtraction.

Context (resolveUrl : string → string → option string)
        (normalizeUrl : string → string)
        (getDomain : string → option string).

Lemma extractLinks_each_cases baseUrl baseDomain links seen a :
  extractLinks_each resolveUrl normalizeUrl getDomain baseUrl baseDomain
    (links, seen) a = (links, seen)
  ∧ (∀ abs, usable_anchor resolveUrl baseUrl a abs →
            normalizeUrl abs ∈ seen)
  ∨ ∃ abs,
      usable_anchor resolveUrl baseUrl a abs
      ∧ (normalizeUrl abs ∉ seen)
      ∧ extractLinks_each resolveUrl normalizeUrl getDomain baseUrl
          baseDomain (links, seen) a
        = (links ++ [{| link_url := normalizeUrl abs;
                        isInternal :=
                          isSameDomain getDomain abs
                            (https_of baseDomain) |}],
           {[normalizeUrl abs]} ∪ seen).
Proof.
  unfold extractLinks_each, usable_anchor.
  destruct (href a) as [| x h] eqn:Hh.
  { left. split; [done|]. by intros abs [? _]. }
  destruct (resolveUrl baseUrl (String x h)) as [[| y abs] |] eqn:Hres.
  - left. split; [done|]. intros abs (_ & ? & ? & _). by simplify_eq.
  - destruct (shouldSkipUrl (String y abs)) eqn:Hskip.
    + left. split; [done|]. intros abs' (_ & ? & _ & ?). simplify_eq.
      congruence.
    + case_bool_decide as Hseen.
      * left. split; [done|]. intros abs' (_ & ? & _). by simplify_eq.
      * right. exists (String y abs). by split_and!.
  - left. split; [done|]. by intros abs (_ & ? & _).
Qed.

(** The state of the loop of [extractLinks] after the anchors [anchors]. *)
Lemma extractLinks_invariant baseUrl baseDomain anchors :
  ∀ links seen,
    foldl (extractLinks_each resolveUrl normalizeUrl getDomain baseUrl
             baseDomain) ([], ∅) anchors = (links, seen) →
    NoDup (map link_url links)
    ∧ (∀ u, u ∈ seen ↔ u ∈ map link_url links)
    ∧ (∀ l, l ∈ links →
            ∃ a abs,
              a ∈ anchors
              ∧ usable_anchor resolveUrl baseUrl a abs
              ∧ link_url l = normalizeUrl abs
              ∧ isInternal l
                = isSameDomain getDomain abs (https_of baseDomain))
    ∧ (∀ a abs,
         a ∈ anchors →
         usable_anchor resolveUrl baseUrl a abs →
         normalizeUrl abs ∈ map link_url links).
Proof.
  induction anchors as [| a anchors IH] using rev_ind; intros links seen H.
  - cbn in H. simplify_eq. split_and!.
    + constructor.
    + intros u. set_solver.
    + intros l Hl. by apply elem_of_nil in Hl.
    + intros a abs Ha. by apply elem_of_nil in Ha.
  - rewrite foldl_app in H. cbn [foldl] in H.
    destruct (foldl _ _ anchors) as [links0 seen0] eqn:Hfold.
    destruct (IH links0 seen0 eq_refl) as (Hnd & Hseen & Hsound & Hcompl).
    destruct (extractLinks_each_cases baseUrl baseDomain links0 seen0 a)
      as [[Hsame Hdup] | (abs & Husable & Hfresh & Hpush)].
    + rewrite Hsame in H. simplify_eq. split_and!; [done | done | |].
      * intros l Hl. destruct (Hsound l Hl) as (a' & abs & ? & ?).
        exists a', abs. split; [set_solver | done].
      * intros a' abs [Ha | ->%list_elem_of_singleton]%elem_of_app Hu.
        -- by eapply Hcompl.
        -- by apply Hseen, Hdup.
    + rewrite Hpush in H. simplify_eq. rewrite map_app. cbn. split_and!.
      * apply NoDup_app. split_and!; [done | | apply NoDup_singleton].
        intros u Hu ->%list_elem_of_singleton. by apply Hfresh, Hseen.
      * intros u. rewrite elem_of_union, Hseen. set_solver.
      * intros l [Hl | ->%list_elem_of_singleton]%elem_of_app.
        -- destruct (Hsound l Hl) as (a' & abs' & ? & ?).
           exists a', abs'. split; [set_solver | done].
        -- exists a, abs. split; [set_solver | by split_and!].
      * intros a' abs' [Ha | ->%list_elem_of_singleton]%elem_of_app Hu.
        -- apply elem_of_app. left. by eapply Hcompl.
        -- destruct Husable as (_ & Hr & _), Hu as (_ & Hr' & _).
           simplify_eq. set_solver.
Qed.

(** X15.  [extractLinks] returns each link once: the URLs of its result are
    pairwise distinct, each is the normalized form of the absolute URL
    of an anchor whose [href] is not empty, resolves, and passes
    [shouldSkipUrl] before normalization, flagged internal when that
    absolute URL has the domain of [https://baseDomain]; and every such
    anchor is represented in the result. *)
Theorem extractLinks_returns_each_link_once anchors baseUrl baseDomain :
  NoDup (map link_url
           (extractLinks resolveUrl normalizeUrl getDomain anchors baseUrl
              baseDomain))
  ∧ (∀ l,
       l ∈ extractLinks resolveUrl normalizeUrl getDomain anchors baseUrl
             baseDomain →
       ∃ a abs,
         a ∈ anchors
         ∧ usable_anchor resolveUrl baseUrl a abs
         ∧ link_url l = normalizeUrl abs
         ∧ isInternal l = isSameDomain getDomain abs (https_of baseDomain))
  ∧ (∀ a abs,
       a ∈ anchors →
       usable_anchor resolveUrl baseUrl a abs →
       normalizeUrl abs
       ∈ map link_url
           (extractLinks resolveUrl normalizeUrl getDomain anchors baseUrl
              baseDomain)).
Proof.
  unfold extractLinks.
  destruct (foldl _ _ anchors) as [links seen] eqn:Hfold.
  destruct (extractLinks_invariant baseUrl baseDomain anchors links seen
              Hfold) as (? & _ & ? & ?).
  by split_and!.
Qed.

(** X16.  The links of a page as [extractLinks] returns them meet only
    the three tests of [addLinksToQueue]: their URLs being pairwise
    distinct, the items pushed are exactly the links, in order, internal
    or not, whose URL was not visited, not queued and not skipped before
    the call; none is held back by an earlier link of the same page. *)
Theorem extracted_links_are_queued_unless_known anchors baseUrl baseDomain
    depth parent c :
  queue (addLinksToQueue
           (extractLinks resolveUrl normalizeUrl getDomain anchors baseUrl
              baseDomain) depth parent c)
  = queue c
    ++ map (mkItem depth parent)
         (filter (fun u => (u ∉ visited c) ∧ (u ∉ queue_urls c)
                           ∧ (u ∉ map skip_url (skippedUrls c)))
            (map link_url
               (extractLinks resolveUrl normalizeUrl getDomain anchors
                  baseUrl baseDomain))).
Proof.
  assert (Hnd : NoDup (map link_url
                         (extractLinks resolveUrl normalizeUrl getDomain
                            anchors baseUrl baseDomain))).
  { unfold extractLinks.
    destruct (foldl _ _ anchors) as [links seen] eqn:Hfold.
    by destruct (extractLinks_invariant baseUrl baseDomain anchors links
                   seen Hfold) as (? & _). }
  destruct (addLinksToQueue_spec
              (extractLinks resolveUrl normalizeUrl getDomain anchors
                 baseUrl baseDomain) depth parent c) as (-> & _).
  f_equal. f_equal.
  generalize dependent (extractLinks resolveUrl normalizeUrl getDomain
                          anchors baseUrl baseDomain).
  intros links Hnd.
  generalize (visited c) (map skip_url (skippedUrls c)) (queue_urls c).
  intros vis skipped queued0.
  assert (Hgen : ∀ queued,
            (∀ u, u ∈ map link_url links → u ∈ queued ↔ u ∈ queued0) →
            pushed_urls links vis queued skipped
            = filter (fun u => (u ∉ vis) ∧ (u ∉ queued0) ∧ (u ∉ skipped))
                (map link_url links)).
  { induction links as [| l links IH]; intros queued Hsame; [done|].
    cbn in Hnd. apply NoDup_cons in Hnd as [Hnotin Hnd].
    cbn [pushed_urls map]. rewrite filter_cons.
    assert (Hl : link_url l ∈ queued ↔ link_url l ∈ queued0)
      by (apply Hsame; left).
    destruct (decide _) as [Hyes | Hno].
    - rewrite bool_decide_eq_true_2 by (rewrite Hl; exact Hyes).
      f_equal. apply IH; [done|].
      intros u Hu. rewrite elem_of_app, list_elem_of_singleton.
      rewrite <- (Hsame u) by (by right).
      split; [intros [? | ->]; [done | by destruct Hnotin] | by left].
    - rewrite bool_decide_eq_false_2 by (rewrite Hl; exact Hno).
      apply IH; [done|]. intros u Hu. apply Hsame. by right. }
  by apply Hgen.
Qed.

End LinkExtraction.

Section Files.

Lemma safeString_length domain :
  String.length (safeString domain) = String.length domain.
Proof. induction domain as [| a d IH]; cbn; [done | by rewrite IH]. Qed.

Lemma safeString_get domain :
  ∀ n, get n (safeString domain)
       = (fun a => if is_alnum a then a else "_"%char) <$> get n domain.
Proof.
  induction domain as [| a d IH]; intros n; [done|].
  destruct n as [| n]; cbn; [done | apply IH].
Qed.

(** X17.  [safeString] keeps the length of the domain and its letters and
    digits, and puts an underscore for every other character: the
    result holds letters, digits and underscores only, and applying the
    replacement again changes nothing. *)
Theorem safeString_is_alphanumeric domain :
  String.length (safeString domain) = String.length domain
  ∧ (∀ n a, get n domain = Some a →
            get n (safeString domain)
            = Some (if is_alnum a then a else "_"%char))
  ∧ (∀ n a, get n (safeString domain) = Some a →
            is_alnum a = true ∨ a = "_"%char)
  ∧ safeString (safeString domain) = safeString domain.
Proof.
  split_and!.
  - apply safeString_length.
  - intros n a Hget. by rewrite safeString_get, Hget.
  - intros n a. rewrite safeString_get.
    destruct (get n domain) as [b |]; [|done]. cbn. intros [= <-].
    destruct (is_alnum b) eqn:Hb; [by left | by right].
  - induction domain as [| a d IH]; cbn; [done|]. rewrite IH. f_equal.
    by destruct (is_alnum a) eqn:Ha; [rewrite Ha|].
Qed.

Lemma file_timestamp_date date :
  Forall (fun a => a ≠ "T"%char ∧ a ≠ ":"%char ∧ a ≠ "."%char)
    (list_ascii_of_string date) →
  ∀ time, file_timestamp (date +:+ "T" +:+ time) = date.
Proof.
  unfold file_timestamp.
  induction date as [| a d IH]; cbn [list_ascii_of_string]; intros Hall time.
  - done.
  - apply Forall_cons in Hall as [(HT & Hc & Hd) Hall].
    rewrite string_app_cons. cbn [dash_colons_dots].
    assert (bool_decide (a = ":"%char ∨ a = "."%char) = false) as ->.
    { apply bool_decide_eq_false_2. by intros [? | ?]. }
    cbn [before_T]. rewrite bool_decide_eq_false_2 by done.
    f_equal. by apply IH.
Qed.

(** X18.  The two files of a crawl are named after the domain and the date:
    for a time stamp of the form date, "T", time, in which the date has
    no "T", ":" or ".", the main file is the safe domain, "_", the date
    and ".json", and the summary has "_summary" before ".json".  When
    the domain is [null], the start URL having no host that can be
    parsed, a [TypeError] is raised before any file is written. *)
Theorem result_files_are_named_after_domain_and_date :
  (∀ domain date time,
     Forall (fun a => a ≠ "T"%char ∧ a ≠ ":"%char ∧ a ≠ "."%char)
       (list_ascii_of_string date) →
     saveCrawlData (Some domain) (date +:+ "T" +:+ time)
     = SaveFiles (safeString domain +:+ "_" +:+ date +:+ ".json")
         (safeString domain +:+ "_" +:+ date +:+ "_summary.json"))
  ∧ (∀ iso, saveCrawlData None iso = SaveTypeError).
Proof.
  split; [|done].
  intros domain date time Hdate. unfold saveCrawlData.
  by rewrite file_timestamp_date.
Qed.

End Files.

Section TopPages.

Context (wordCount : PageData → Z)
        (sortPages : list PageData → list PageData).

Lemma StronglySorted_take {A} (R : A → A → Prop) n (l : list A) :
  StronglySorted R l → StronglySorted R (take n l).
Proof.
  intros H. revert n. induction H as [| x l Hl IH Hx]; intros [| n];
    cbn; try constructor; [apply IH|].
  rewrite Forall_forall in Hx. apply Forall_forall. intros y Hy.
  apply Hx. by eapply (subseteq_take n l).
Qed.

Lemma StronglySorted_app_le {A} (R : A → A → Prop) (l1 l2 : list A) :
  StronglySorted R (l1 ++ l2) → ∀ x y, x ∈ l1 → y ∈ l2 → R x y.
Proof.
  induction l1 as [| a l1 IH]; intros H x y Hx Hy.
  - by apply elem_of_nil in Hx.
  - cbn in H. apply StronglySorted_inv in H as [Hs Ha].
    apply elem_of_cons in Hx as [-> | Hx]; [|by apply IH].
    rewrite Forall_forall in Ha. apply Ha, elem_of_app. by right.
Qed.

(** X19.  The summary lists at most ten pages, those with the most words:
    their word counts do not increase along the list, each entry
    describes a crawled page, and a crawled page that is not among the
    first ten of the sorted array has no more words than any page
    listed. *)
Theorem topPages_are_the_wordiest pages :
  sorts_by_wordCount wordCount sortPages →
  length (topPages wordCount sortPages pages) = (10 `min` length pages)%nat
  ∧ StronglySorted (fun a b => top_wordCount b ≤ top_wordCount a)
      (topPages wordCount sortPages pages)
  ∧ (∀ t, t ∈ topPages wordCount sortPages pages →
          ∃ p, p ∈ pages ∧ top_url t = page_url p
               ∧ top_wordCount t = wordCount p
               ∧ top_linksCount t = Z.of_nat (length (page_links p)))
  ∧ (∀ p, p ∈ pages →
          p ∈ take 10 (sortPages pages)
          ∨ ∀ t, t ∈ topPages wordCount sortPages pages →
                 wordCount p ≤ top_wordCount t).
Proof.
  intros Hsort. destruct (Hsort pages) as [Hperm Hsorted].
  unfold topPages. split_and!.
  - rewrite length_map, length_take. by rewrite Hperm.
  - apply (StronglySorted_take _ 10) in Hsorted.
    induction Hsorted as [| x l Hl IH Hx]; cbn; constructor; [done|].
    rewrite Forall_forall in Hx. apply Forall_forall.
    intros t (q & -> & Hq)%list_elem_of_fmap. cbn. by apply Hx.
  - intros t (p & -> & Hp)%list_elem_of_fmap. exists p. cbn.
    split; [|done]. rewrite <- Hperm. by eapply subseteq_take.
  - intros p Hp. rewrite <- Hperm in Hp.
    rewrite <- (take_drop 10 (sortPages pages)) in Hp, Hsorted.
    apply elem_of_app in Hp as [Hp | Hp]; [by left|]. right.
    intros t (q & -> & Hq)%list_elem_of_fmap. cbn.
    by apply (StronglySorted_app_le _ _ _ Hsorted q p).
Qed.

(** X20.  A session that ends hands its pages back sorted by word count, not
    in crawl order: the array [crawl] resolves with is a rearrangement
    of the pages of the main file in which the word counts do not
    increase, since [saveSummary] sorts that very array in place after
    the main file was written; the summary lists its first ten.  When
    the domain of the start URL is [null], [crawl] rejects although the
    loop ran to its end. *)
Theorem crawl_returns_pages_sorted_by_wordCount
    o w fuel startUrl out c domain iso :
  sorts_by_wordCount wordCount sortPages →
  crawl o w fuel startUrl new_WebCrawler = Some (out, c) →
  match domain with
  | None =>
      crawl_returned_pages sortPages (saveCrawlData domain iso) c = None
  | Some _ =>
      ∃ returned,
        crawl_returned_pages sortPages (saveCrawlData domain iso) c
        = Some returned
        ∧ returned ≡ₚ pages out
        ∧ StronglySorted (fun a b => wordCount b ≤ wordCount a) returned
        ∧ NoDup (map page_url returned)
        ∧ topPages wordCount sortPages (pages out)
          = map (fun page => {| top_url := page_url page;
                                top_wordCount := wordCount page;
                                top_linksCount :=
                                  Z.of_nat (length (page_links page)) |})
              (take 10 returned)
  end.
Proof.
  intros Hsort (Hreach & -> & _)%crawl_reachable.
  destruct domain as [d |]; [|done]. cbn.
  destruct (Hsort (results c)) as [Hperm Hsorted].
  exists (sortPages (results c)). split_and!; try done.
  rewrite Hperm.
  pose proof (inv_recorded c (reachable_Inv o w startUrl c Hreach)) as Hnd.
  unfold recorded in Hnd. by apply NoDup_app in Hnd as (? & _).
Qed.

End TopPages.

(** * The further properties on the example sessions *)

Lemma recorded_urls_never_repeat_witness :
  ∃ out c,
    crawl opts_skip site_tree 10 home new_WebCrawler = Some (out, c)
    ∧ NoDup (map page_url (pages out)
             ++ map skip_url (out_skippedUrls out)
             ++ map fail_url (out_failedUrls out))
    ∧ NoDup (recorded (iteration opts_skip site_tree
                         (start opts_skip site_tree))).
Proof.
  destruct (crawl opts_skip site_tree 10 home new_WebCrawler)
    as [[out c] |] eqn:Hrun; [| vm_compute in Hrun; discriminate].
  exists out, c. split; [reflexivity|].
  destruct (recorded_urls_never_repeat opts_skip site_tree home)
    as [Hstates Hreport].
  split.
  - exact (Hreport 10%nat out c Hrun).
  - destruct (Hstates (start opts_skip site_tree)
                (iteration opts_skip site_tree (start opts_skip site_tree)))
      as [Hnd _].
    + apply rtc_refl.
    + apply rtc_once. split; reflexivity.
    + exact Hnd.
Defined.

Lemma pages_never_exceed_maxPages_witness :
  ∃ out c,
    crawl opts_one_page site_tree 10 home new_WebCrawler = Some (out, c)
    ∧ totalPages out ≤ 1
    ∧ Z.of_nat (length (results (iteration opts_one_page site_tree
                                   (start opts_one_page site_tree)))) ≤ 1.
Proof.
  destruct (crawl opts_one_page site_tree 10 home new_WebCrawler)
    as [[out c] |] eqn:Hrun; [| vm_compute in Hrun; discriminate].
  exists out, c. split; [reflexivity|].
  destruct (pages_never_exceed_maxPages opts_one_page site_tree home)
    as [Hstates Hreport].
  split.
  - exact (proj1 (Hreport 10%nat out c Hrun)).
  - apply (Hstates (iteration opts_one_page site_tree
                      (start opts_one_page site_tree))).
    apply rtc_once. split; reflexivity.
Defined.

Lemma session_ends_on_empty_queue_or_page_cap_witness :
  ∃ out c,
    crawl opts_one_page site_tree 10 home new_WebCrawler = Some (out, c)
    ∧ (queue c = []
       ∨ maxPages opts_one_page ≤ Z.of_nat (length (results c))).
Proof.
  destruct (crawl opts_one_page site_tree 10 home new_WebCrawler)
    as [[out c] |] eqn:Hrun; [| vm_compute in Hrun; discriminate].
  exists out, c. split; [reflexivity|].
  exact (proj2 (session_ends_on_empty_queue_or_page_cap
                  opts_one_page site_tree home) 10%nat out c Hrun).
Defined.

Lemma seed_always_gets_an_outcome_witness :
  ∃ out c,
    crawl opts_skip (site_status 403) 5 home new_WebCrawler = Some (out, c)
    ∧ home ∈ map page_url (pages out)
               ++ map skip_url (out_skippedUrls out)
               ++ map fail_url (out_failedUrls out).
Proof.
  destruct (crawl opts_skip (site_status 403) 5 home new_WebCrawler)
    as [[out c] |] eqn:Hrun; [| vm_compute in Hrun; discriminate].
  exists out, c. split; [reflexivity|].
  apply (seed_always_gets_an_outcome opts_skip (site_status 403) home
           5%nat out c); [cbn; lia | cbn; lia | exact Hrun].
Defined.


Lemma pages_form_a_tree_within_maxDepth_witness :
  ∃ out c,
    crawl opts_default site_tree 10 home new_WebCrawler = Some (out, c)
    ∧ tree_shaped opts_default home
        (iteration opts_default site_tree (start opts_default site_tree))
    ∧ ∀ pre p post,
        pages out = pre ++ p :: post →
        0 ≤ page_depth p ≤ maxDepth opts_default
        ∧ page_placed home pre p.
Proof.
  destruct (crawl opts_default site_tree 10 home new_WebCrawler)
    as [[out c] |] eqn:Hrun; [| vm_compute in Hrun; discriminate].
  exists out, c. split; [reflexivity|].
  destruct (pages_form_a_tree_within_maxDepth opts_default site_tree home)
    as [Hstates Hreport].
  split.
  - apply Hstates. apply rtc_once. split; reflexivity.
  - exact (Hreport 10%nat out c Hrun).
Defined.

Lemma makeRequest_attempts_are_bounded_witness :
  ∃ k : nat,
    Z.of_nat k ≤ 3
    ∧ trace (makeRequest opts_default (site_status 500) home 0
               (start opts_default (site_status 500))).2
      = trace (start opts_default (site_status 500))
        ++ (EvGet home :: retry_events home 1 (Z.of_nat k))
    ∧ same_store (start opts_default (site_status 500))
        (makeRequest opts_default (site_status 500) home 0
           (start opts_default (site_status 500))).2.
Proof.
  destruct (makeRequest_attempts_are_bounded
              opts_default (site_status 500) home 0
              (start opts_default (site_status 500)) _ _
              (surjective_pairing _))
    as (k & Hk & _ & Htr & _ & _ & _ & Hstore).
  exists k. split_and!; [exact Hk | exact Htr | exact Hstore].
Defined.

Lemma url_is_requested_at_most_budget_times_witness :
  NoDup (marks (trace (iteration opts_default (site_status 500)
                         (start opts_default (site_status 500)))))
  ∧ Z.of_nat (requests_for home
                (trace (iteration opts_default (site_status 500)
                          (start opts_default (site_status 500)))))
    ≤ 4
  ∧ requests_for page_a
      (trace (iteration opts_default (site_status 500)
                (start opts_default (site_status 500))))
    = O.
Proof.
  destruct (url_is_requested_at_most_budget_times
              opts_default (site_status 500) home
              (iteration opts_default (site_status 500)
                 (start opts_default (site_status 500))))
    as (Hnd & _ & Hnone & Hmost).
  - apply rtc_once. split; reflexivity.
  - split_and!; [exact Hnd | exact (Hmost home) |].
    apply Hnone. vm_compute. set_solver.
Defined.

Lemma disallowed_url_is_never_requested_witness :
  ∃ out c,
    crawl opts_robots site_partly_disallowed 10 home new_WebCrawler
    = Some (out, c)
    ∧ (page_a ∉ visited c)
    ∧ requests_for page_a (trace c) = O
    ∧ (page_a ∉ map page_url (pages out)).
Proof.
  destruct (crawl opts_robots site_partly_disallowed 10 home new_WebCrawler)
    as [[out c] |] eqn:Hrun; [| vm_compute in Hrun; discriminate].
  exists out, c. split; [reflexivity|].
  destruct (crawl_reachable _ _ _ _ _ _ Hrun) as (Hreach & -> & _).
  destruct (disallowed_url_is_never_requested
              opts_robots site_partly_disallowed home c
              (fun url => negb (bool_decide (url = page_a))) Hreach
              eq_refl eq_refl)
    as [Hnever _].
  destruct (Hnever page_a eq_refl) as (Hv & Hr & Hp & _).
  split_and!; [exact Hv | exact Hr | exact Hp].
Defined.

Lemma classified_status_is_skipped_with_its_reason_witness :
  skippedUrls (iteration opts_skip (site_status 429)
                 (start opts_skip (site_status 429)))
  = [{| skip_url := home;
        skip_reason := Some "Too many requests - Rate limited";
        skip_parent := None;
        skip_statusCode := Some 429 |}]
  ∧ gets (trace (iteration opts_skip (site_status 429)
                   (start opts_skip (site_status 429))))
    = [home].
Proof.
  destruct (classified_status_is_skipped_with_its_reason
              opts_skip (site_status 429)
              (start opts_skip (site_status 429)) seed [] 429
              "Too many requests - Rate limited")
    as (Hs & _ & _ & Hg & _).
  - reflexivity.
  - reflexivity.
  - do 3 apply list_elem_of_further. apply list_elem_of_here.
  - reflexivity.
  - cbn. apply not_elem_of_empty.
  - cbn. lia.
  - right. exact I.
  - reflexivity.
  - rewrite Hs, Hg. split; reflexivity.
Defined.

Lemma transport_error_is_retried_then_classified_witness :
  skippedUrls (iteration opts_skip (site_down "Permission denied")
                 (start opts_skip (site_down "Permission denied")))
  = [{| skip_url := home;
        skip_reason := Some "Authorization issue: Permission denied";
        skip_parent := None;
        skip_statusCode := None |}]
  ∧ trace (iteration opts_skip (site_down "Permission denied")
             (start opts_skip (site_down "Permission denied")))
    = [EvEnqueue seed; EvDequeue seed; EvVisited home;
       EvGet home; EvSleep 1000; EvGet home; EvSleep 2000; EvGet home;
       EvSleep 3000; EvGet home; EvSleep 1000]
  ∧ failedUrls (iteration opts_skip (site_down "socket hang up")
                  (start opts_skip (site_down "socket hang up")))
    = [{| fail_url := home; fail_error := "socket hang up";
          fail_parent := None |}].
Proof.
  split_and!.
  - destruct (transport_error_is_retried_then_classified
                opts_skip (site_down "Permission denied")
                (start opts_skip (site_down "Permission denied")) seed []
                "Permission denied")
      as (_ & _ & Hskip & _).
    + reflexivity.
    + reflexivity.
    + reflexivity.
    + cbn. apply not_elem_of_empty.
    + cbn. lia.
    + right. exact I.
    + intros n. reflexivity.
    + destruct (Hskip eq_refl) as [Hs _]. rewrite Hs. reflexivity.
  - destruct (transport_error_is_retried_then_classified
                opts_skip (site_down "Permission denied")
                (start opts_skip (site_down "Permission denied")) seed []
                "Permission denied")
      as (Htr & _).
    + reflexivity.
    + reflexivity.
    + reflexivity.
    + cbn. apply not_elem_of_empty.
    + cbn. lia.
    + right. exact I.
    + intros n. reflexivity.
    + rewrite Htr. reflexivity.
  - destruct (transport_error_is_retried_then_classified
                opts_skip (site_down "socket hang up")
                (start opts_skip (site_down "socket hang up")) seed []
                "socket hang up")
      as (_ & _ & _ & Hfail).
    + reflexivity.
    + reflexivity.
    + reflexivity.
    + cbn. apply not_elem_of_empty.
    + cbn. lia.
    + right. exact I.
    + intros n. reflexivity.
    + destruct (Hfail eq_refl) as [Hf _]. rewrite Hf. reflexivity.
Defined.

Lemma success_reply_is_a_page_unless_extraction_throws_witness :
  results (iteration opts_skip (site_status 204)
             (start opts_skip (site_status 204)))
  = [{| page_url := home; page_depth := 0; page_parent := None;
        page_links := [] |}]
  ∧ failedUrls
      (iteration opts_skip
         (site_unreadable 200 "cheerio.load() expects a string")
         (start opts_skip
            (site_unreadable 200 "cheerio.load() expects a string")))
    = [{| fail_url := home;
          fail_error := "cheerio.load() expects a string";
          fail_parent := None |}]
  ∧ results
      (iteration opts_skip
         (site_unreadable 200 "cheerio.load() expects a string")
         (start opts_skip
            (site_unreadable 200 "cheerio.load() expects a string")))
    = [].
Proof.
  split_and!.
  - destruct (success_reply_is_a_page_unless_extraction_throws
                opts_skip (site_status 204)
                (start opts_skip (site_status 204)) seed [] 204)
      as [Hpage _].
    + lia.
    + reflexivity.
    + cbn. apply not_elem_of_empty.
    + cbn. lia.
    + right. exact I.
    + destruct (Hpage [] eq_refl) as (Hr & _). rewrite Hr. reflexivity.
  - destruct (success_reply_is_a_page_unless_extraction_throws
                opts_skip
                (site_unreadable 200 "cheerio.load() expects a string")
                (start opts_skip
                   (site_unreadable 200 "cheerio.load() expects a string"))
                seed [] 200)
      as [_ Hthrow].
    + lia.
    + reflexivity.
    + cbn. apply not_elem_of_empty.
    + cbn. lia.
    + right. exact I.
    + destruct (Hthrow _ eq_refl) as (_ & _ & _ & _ & Hrec).
      destruct Hrec as [Hf _]. rewrite Hf. reflexivity.
  - destruct (success_reply_is_a_page_unless_extraction_throws
                opts_skip
                (site_unreadable 200 "cheerio.load() expects a string")
                (start opts_skip
                   (site_unreadable 200 "cheerio.load() expects a string"))
                seed [] 200)
      as [_ Hthrow].
    + lia.
    + reflexivity.
    + cbn. apply not_elem_of_empty.
    + cbn. lia.
    + right. exact I.
    + destruct (Hthrow _ eq_refl) as (Hr & _). rewrite Hr. reflexivity.
Defined.

Lemma skip_reason_stats_count_all_but_inherited_keys_witness :
  getSkipReasonStats example_skipped !! "Not found" = Some (StatCount 2)
  ∧ getSkipReasonStats example_skipped !! "constructor"
    = Some (StatText "function Object() { [native code] }1")
  ∧ getSkipReasonStats example_skipped !! "Gone" = None
  ∧ ∃ out c,
      crawl opts_skip (site_status 404) 5 home new_WebCrawler
      = Some (out, c)
      ∧ skipReasons (statistics out) !! "Not found" = Some (StatCount 1).
Proof.
  destruct (skip_reason_stats_count_all_but_inherited_keys
              opts_skip (site_status 404))
    as [Hlist Hreport].
  split_and!.
  - destruct (Hlist example_skipped "Not found") as (_ & Hcount & _).
    rewrite Hcount; [reflexivity | discriminate | reflexivity].
  - destruct (Hlist example_skipped "constructor") as (_ & _ & Htext & _).
    rewrite (Htext (native_function "Object"));
      [reflexivity | discriminate | reflexivity | discriminate].
  - destruct (Hlist example_skipped "Gone") as (Hnone & _).
    apply Hnone. reflexivity.
  - destruct (crawl opts_skip (site_status 404) 5 home new_WebCrawler)
      as [[out c] |] eqn:Hrun; [| vm_compute in Hrun; discriminate].
    exists out, c. split; [reflexivity|].
    rewrite (Hreport 5%nat home out c "Not found" Hrun).
    vm_compute in Hrun. injection Hrun as <- _. reflexivity.
Defined.

Lemma shouldSkipUrl_ignores_case_witness :
  shouldSkipUrl ("https://ex.test/Doc" +:+ ".PDF") = true
  ∧ shouldSkipUrl ("https://ex.test" +:+ "/Admin/" +:+ "users") = true.
Proof.
  destruct shouldSkipUrl_ignores_case as (Hext & Hpat & _).
  split.
  - apply Hext. apply list_elem_of_here.
  - apply Hpat. apply list_elem_of_further, list_elem_of_here.
Defined.

Lemma extractLinks_returns_each_link_once_witness :
  NoDup (map link_url
           (extractLinks example_resolveUrl example_normalizeUrl
              example_getDomain example_anchors home (Some "ex.test")))
  ∧ page_b
    ∈ map link_url
        (extractLinks example_resolveUrl example_normalizeUrl
           example_getDomain example_anchors home (Some "ex.test")).
Proof.
  destruct (extractLinks_returns_each_link_once
              example_resolveUrl example_normalizeUrl example_getDomain
              example_anchors home (Some "ex.test"))
    as (Hnd & _ & Hall).
  split; [exact Hnd|].
  apply (Hall {| href := page_b |} page_b).
  - do 5 apply list_elem_of_further. apply list_elem_of_here.
  - split_and!; [discriminate | reflexivity | discriminate | reflexivity].
Defined.

Lemma extracted_links_are_queued_unless_known_witness :
  queue (addLinksToQueue
           (extractLinks example_resolveUrl example_normalizeUrl
              example_getDomain example_anchors home (Some "ex.test"))
           1 home (set_queue [mkItem 0 home page_b] new_WebCrawler))
  = [mkItem 0 home page_b; mkItem 1 home page_a].
Proof.
  rewrite (extracted_links_are_queued_unless_known
             example_resolveUrl example_normalizeUrl example_getDomain
             example_anchors home (Some "ex.test") 1 home
             (set_queue [mkItem 0 home page_b] new_WebCrawler)).
  vm_compute. reflexivity.
Defined.

Lemma safeString_is_alphanumeric_witness :
  get 2 (safeString "ex.test") = Some "_"%char
  ∧ get 3 (safeString "ex.test") = Some "t"%char.
Proof.
  destruct (safeString_is_alphanumeric "ex.test") as (_ & Hget & _).
  split.
  - exact (Hget 2%nat "."%char eq_refl).
  - exact (Hget 3%nat "t"%char eq_refl).
Defined.

Lemma result_files_are_named_after_domain_and_date_witness :
  saveCrawlData (Some "ex.test")
    ("2024-05-17" +:+ "T" +:+ "10:20:30.456Z")
  = SaveFiles "ex_test_2024-05-17.json" "ex_test_2024-05-17_summary.json".
Proof.
  rewrite (proj1 result_files_are_named_after_domain_and_date
             "ex.test" "2024-05-17" "10:20:30.456Z").
  - reflexivity.
  - vm_compute.
    repeat (constructor; [split_and!; discriminate|]). constructor.
Defined.

Lemma example_sortPages_sorts :
  sorts_by_wordCount example_wordCount example_sortPages.
Proof.
  intros pages. unfold example_sortPages. split.
  - apply merge_sort_Permutation.
  - assert (Transitive
              (fun a b => example_wordCount b ≤ example_wordCount a))
      by (intros x y z Hxy Hyz; lia).
    assert (Total (fun a b => example_wordCount b ≤ example_wordCount a)).
    { intros x y.
      destruct (Z.le_gt_cases (example_wordCount y) (example_wordCount x));
        [left | right]; lia. }
    by apply (StronglySorted_merge_sort _).
Qed.

Lemma topPages_are_the_wordiest_witness :
  ∃ out c,
    crawl opts_default site_tree 10 home new_WebCrawler = Some (out, c)
    ∧ length (topPages example_wordCount example_sortPages (pages out))
      = 4%nat
    ∧ StronglySorted (fun a b => top_wordCount b ≤ top_wordCount a)
        (topPages example_wordCount example_sortPages (pages out)).
Proof.
  destruct (crawl opts_default site_tree 10 home new_WebCrawler)
    as [[out c] |] eqn:Hrun; [| vm_compute in Hrun; discriminate].
  exists out, c. split; [reflexivity|].
  destruct (topPages_are_the_wordiest example_wordCount example_sortPages
              (pages out) example_sortPages_sorts)
    as (Hlen & Hsorted & _).
  split; [| exact Hsorted].
  rewrite Hlen. vm_compute in Hrun. by injection Hrun as <- _.
Defined.

Lemma crawl_returns_pages_sorted_by_wordCount_witness :
  ∃ out c returned,
    crawl opts_default site_tree 10 home new_WebCrawler = Some (out, c)
    ∧ crawl_returned_pages example_sortPages
        (saveCrawlData (Some "ex.test") "2024-05-17T10:20:30.456Z") c
      = Some returned
    ∧ returned ≡ₚ pages out
    ∧ StronglySorted
        (fun a b => example_wordCount b ≤ example_wordCount a) returned.
Proof.
  destruct (crawl opts_default site_tree 10 home new_WebCrawler)
    as [[out c] |] eqn:Hrun; [| vm_compute in Hrun; discriminate].
  destruct (crawl_returns_pages_sorted_by_wordCount
              example_wordCount example_sortPages opts_default site_tree
              10%nat home out c (Some "ex.test")
              "2024-05-17T10:20:30.456Z" example_sortPages_sorts Hrun)
    as (returned & Hret & Hperm & Hsorted & _).
  exists out, c, returned. by split_and!.
Defined.
